(** * Natural atomic orbitals: a shallow embedding of [pyscf/lo/nao.py]

    The development follows the source file top to bottom: the table of
    default shell configurations ([AOSHELL]) and its override
    ([set_atom_conf]), the shell classifier ([_core_val_ryd_list]), the
    block averager ([_spheric_average_mat]), the pre-NAO solver
    ([_prenao_sub]), the assembler ([_nao_sub]) and the restoration pass of
    [nao].  Python exceptions are values of [exn]; numpy arrays are lists
    (of lists) of scalars; the routines of scipy and of [pyscf.lo.orth]
    are parameters of the sections that use them. *)

From Stdlib Require Import String Ascii DecimalString.
From Stdlib Require Import List Arith Lia Bool ZArith Ring Sorted Permutation.
From Stdlib Require QArith Qcanon.
Import ListNotations.

Set Implicit Arguments.

(** ** Python runtime: exceptions and the error monad *)

Inductive exn : Type :=
| IndexError | ValueError | TypeError | ZeroDivisionError
| KeyError | RuntimeError | LinAlgError.

Inductive result (A : Type) : Type :=
| Ok (a : A)
| Raise (e : exn).
Arguments Ok {A} a.
Arguments Raise {A} e.

Definition bind {A B : Type} (m : result A) (k : A -> result B) : result B :=
  match m with
  | Ok a => k a
  | Raise e => Raise e
  end.

Declare Scope py_scope.
Delimit Scope py_scope with py.
Notation "x <- m ;; k" := (bind m (fun x => k))
  (at level 61, m at next level, right associativity) : py_scope.
Notation "' p <- m ;; k" := (bind m (fun x => match x with p => k end))
  (at level 61, p pattern, m at next level, right associativity) : py_scope.
Open Scope py_scope.

(** [xs[i]] for a Python list and a non-negative index. *)
Definition getitem {A : Type} (xs : list A) (i : nat) : result A :=
  match nth_error xs i with
  | Some x => Ok x
  | None => Raise IndexError
  end.

(** [xs[i] = v] for a Python list and a non-negative index. *)
Fixpoint setitem {A : Type} (xs : list A) (i : nat) (v : A) : result (list A) :=
  match xs, i with
  | [], _ => Raise IndexError
  | _ :: t, O => Ok (v :: t)
  | x :: t, S j => t' <- setitem t j v ;; Ok (x :: t')
  end.

(** [[f(x) for x in xs]], stopping at the first exception. *)
Fixpoint mapM {A B : Type} (f : A -> result B) (xs : list A) : result (list B) :=
  match xs with
  | [] => Ok []
  | x :: t => y <- f x ;; ys <- mapM f t ;; Ok (y :: ys)
  end.

(** ** Python strings *)

Module PyStr.
Open Scope string_scope.

(** [s.replace(c, '')] for a one-character [c]. *)
Fixpoint remove_char (c : ascii) (s : string) : string :=
  match s with
  | EmptyString => EmptyString
  | String a t => if Ascii.eqb a c then remove_char c t
                  else String a (remove_char c t)
  end.

Definition lower_char (a : ascii) : ascii :=
  let n := nat_of_ascii a in
  if ((65 <=? n) && (n <=? 90))%nat then ascii_of_nat (n + 32) else a.

(** [s.lower()] on ASCII text. *)
Fixpoint lower (s : string) : string :=
  match s with
  | EmptyString => EmptyString
  | String a t => String (lower_char a) (lower t)
  end.

(** [sub in s]. *)
Fixpoint contains (sub s : string) : bool :=
  if prefix sub s then true
  else match s with
       | EmptyString => false
       | String _ t => contains sub t
       end.

(** [c in s] for a one-character [c]. *)
Fixpoint has_char (c : ascii) (s : string) : bool :=
  match s with
  | EmptyString => false
  | String a t => Ascii.eqb a c || has_char c t
  end.

(** [s.find(c)] for a one-character [c]: the first position, or [-1]. *)
Fixpoint find_from (c : ascii) (s : string) (pos : Z) : Z :=
  match s with
  | EmptyString => (-1)%Z
  | String a t => if Ascii.eqb a c then pos else find_from c t (pos + 1)%Z
  end.

Definition find (c : ascii) (s : string) : Z := find_from c s 0%Z.

(** [s[i]], with Python's wrap-around of a negative index. *)
Definition item (s : string) (i : Z) : result ascii :=
  let len := Z.of_nat (String.length s) in
  let j := if (i <? 0)%Z then (i + len)%Z else i in
  if (j <? 0)%Z then Raise IndexError
  else match String.get (Z.to_nat j) s with
       | Some a => Ok a
       | None => Raise IndexError
       end.

(** [s[::2]]. *)
Fixpoint every_other (s : string) : string :=
  match s with
  | EmptyString => EmptyString
  | String a EmptyString => String a EmptyString
  | String a (String _ t) => String a (every_other t)
  end.

(** [s.split(c)[0]] for a one-character [c]: the text before the first
    [c], or all of [s] when there is none. *)
Fixpoint split_head (c : ascii) (s : string) : string :=
  match s with
  | EmptyString => EmptyString
  | String a t => if Ascii.eqb a c then EmptyString
                  else String a (split_head c t)
  end.

(** [int(x)] for a one-character string [x]. *)
Definition int_of_char (a : ascii) : result nat :=
  let n := nat_of_ascii a in
  if ((48 <=? n) && (n <=? 57))%nat then Ok (n - 48) else Raise ValueError.

(** ['%d' % n] for a non-negative [n]. *)
Definition fmt_d (n : nat) : string := NilEmpty.string_of_uint (Nat.to_uint n).

(** The characters of a string, as the 1-character items a [for] visits. *)
Definition chars (s : string) : list ascii := list_ascii_of_string s.

End PyStr.

(** ** The table of default shell configurations *)

(** One row per nuclear charge: number of shells (not the atomic
    configuration) in the core, and in core plus valence. *)
Definition conf_table : Type := list (string * string).

Definition AOSHELL : conf_table := [
  ("0s0p0d0f", "0s0p0d0f");  (*   0  GHOST *)
  ("0s0p0d0f", "1s0p0d0f");  (*   1  H *)
  ("0s0p0d0f", "1s0p0d0f");  (*   2  He *)
  ("1s0p0d0f", "2s0p0d0f");  (*   3  Li *)
  ("1s0p0d0f", "2s0p0d0f");  (*   4  Be *)
  ("1s0p0d0f", "2s1p0d0f");  (*   5  B *)
  ("1s0p0d0f", "2s1p0d0f");  (*   6  C *)
  ("1s0p0d0f", "2s1p0d0f");  (*   7  N *)
  ("1s0p0d0f", "2s1p0d0f");  (*   8  O *)
  ("1s0p0d0f", "2s1p0d0f");  (*   9  F *)
  ("1s0p0d0f", "2s1p0d0f");  (*  10  Ne *)
  ("2s1p0d0f", "3s1p0d0f");  (*  11  Na *)
  ("2s1p0d0f", "3s1p0d0f");  (*  12  Mg *)
  ("2s1p0d0f", "3s2p0d0f");  (*  13  Al *)
  ("2s1p0d0f", "3s2p0d0f");  (*  14  Si *)
  ("2s1p0d0f", "3s2p0d0f");  (*  15  P *)
  ("2s1p0d0f", "3s2p0d0f");  (*  16  S *)
  ("2s1p0d0f", "3s2p0d0f");  (*  17  Cl *)
  ("2s1p0d0f", "3s2p0d0f");  (*  18  Ar *)
  ("3s2p0d0f", "4s2p0d0f");  (*  19  K *)
  ("3s2p0d0f", "4s2p0d0f");  (*  20  Ca *)
  ("3s2p0d0f", "4s2p1d0f");  (*  21  Sc *)
  ("3s2p0d0f", "4s2p1d0f");  (*  22  Ti *)
  ("3s2p0d0f", "4s2p1d0f");  (*  23  V *)
  ("3s2p0d0f", "4s2p1d0f");  (*  24  Cr *)
  ("3s2p0d0f", "4s2p1d0f");  (*  25  Mn *)
  ("3s2p0d0f", "4s2p1d0f");  (*  26  Fe *)
  ("3s2p0d0f", "4s2p1d0f");  (*  27  Co *)
  ("3s2p0d0f", "4s2p1d0f");  (*  28  Ni *)
  ("3s2p0d0f", "4s2p1d0f");  (*  29  Cu *)
  ("3s2p0d0f", "4s2p1d0f");  (*  30  Zn *)
  ("3s2p1d0f", "4s3p1d0f");  (*  31  Ga *)
  ("3s2p1d0f", "4s3p1d0f");  (*  32  Ge *)
  ("3s2p1d0f", "4s3p1d0f");  (*  33  As *)
  ("3s2p1d0f", "4s3p1d0f");  (*  34  Se *)
  ("3s2p1d0f", "4s3p1d0f");  (*  35  Br *)
  ("3s2p1d0f", "4s3p1d0f");  (*  36  Kr *)
  ("4s3p1d0f", "5s3p1d0f");  (*  37  Rb *)
  ("4s3p1d0f", "5s3p1d0f");  (*  38  Sr *)
  ("4s3p1d0f", "5s3p2d0f");  (*  39  Y *)
  ("4s3p1d0f", "5s3p2d0f");  (*  40  Zr *)
  ("4s3p1d0f", "5s3p2d0f");  (*  41  Nb *)
  ("4s3p1d0f", "5s3p2d0f");  (*  42  Mo *)
  ("4s3p1d0f", "5s3p2d0f");  (*  43  Tc *)
  ("4s3p1d0f", "5s3p2d0f");  (*  44  Ru *)
  ("4s3p1d0f", "5s3p2d0f");  (*  45  Rh *)
  ("4s3p1d0f", "4s3p2d0f");  (*  46  Pd *)
  ("4s3p1d0f", "5s3p2d0f");  (*  47  Ag *)
  ("4s3p1d0f", "5s3p2d0f");  (*  48  Cd *)
  ("4s3p2d0f", "5s4p2d0f");  (*  49  In *)
  ("4s3p2d0f", "5s4p2d0f");  (*  50  Sn *)
  ("4s3p2d0f", "5s4p2d0f");  (*  51  Sb *)
  ("4s3p2d0f", "5s4p2d0f");  (*  52  Te *)
  ("4s3p2d0f", "5s4p2d0f");  (*  53  I *)
  ("4s3p2d0f", "5s4p2d0f");  (*  54  Xe *)
  ("5s4p2d0f", "6s4p2d0f");  (*  55  Cs *)
  ("5s4p2d0f", "6s4p2d0f");  (*  56  Ba *)
  ("5s4p2d0f", "6s4p3d0f");  (*  57  La *)
  ("5s4p2d0f", "6s4p3d1f");  (*  58  Ce *)
  ("5s4p2d0f", "6s4p2d1f");  (*  59  Pr *)
  ("5s4p2d0f", "6s4p2d1f");  (*  60  Nd *)
  ("5s4p2d0f", "6s4p2d1f");  (*  61  Pm *)
  ("5s4p2d0f", "6s4p2d1f");  (*  62  Sm *)
  ("5s4p2d0f", "6s4p2d1f");  (*  63  Eu *)
  ("5s4p2d0f", "6s4p3d1f");  (*  64  Gd *)
  ("5s4p2d0f", "6s4p3d1f");  (*  65  Tb *)
  ("5s4p2d0f", "6s4p2d1f");  (*  66  Dy *)
  ("5s4p2d0f", "6s4p2d1f");  (*  67  Ho *)
  ("5s4p2d0f", "6s4p2d1f");  (*  68  Er *)
  ("5s4p2d0f", "6s4p2d1f");  (*  69  Tm *)
  ("5s4p2d0f", "6s4p2d1f");  (*  70  Yb *)
  ("5s4p2d1f", "6s4p3d1f");  (*  71  Lu *)
  ("5s4p2d1f", "6s4p3d1f");  (*  72  Hf *)
  ("5s4p2d1f", "6s4p3d1f");  (*  73  Ta *)
  ("5s4p2d1f", "6s4p3d1f");  (*  74  W *)
  ("5s4p2d1f", "6s4p3d1f");  (*  75  Re *)
  ("5s4p2d1f", "6s4p3d1f");  (*  76  Os *)
  ("5s4p2d1f", "6s4p3d1f");  (*  77  Ir *)
  ("5s4p2d1f", "6s4p3d1f");  (*  78  Pt *)
  ("5s4p2d1f", "6s4p3d1f");  (*  79  Au *)
  ("5s4p2d1f", "6s4p3d1f");  (*  80  Hg *)
  ("5s4p3d1f", "6s5p3d1f");  (*  81  Tl *)
  ("5s4p3d1f", "6s5p3d1f");  (*  82  Pb *)
  ("5s4p3d1f", "6s5p3d1f");  (*  83  Bi *)
  ("5s4p3d1f", "6s5p3d1f");  (*  84  Po *)
  ("5s4p3d1f", "6s5p3d1f");  (*  85  At *)
  ("5s4p3d1f", "6s5p3d1f");  (*  86  Rn *)
  ("6s5p3d1f", "7s5p3d1f");  (*  87  Fr *)
  ("6s5p3d1f", "7s5p3d1f");  (*  88  Ra *)
  ("6s5p3d1f", "7s5p4d1f");  (*  89  Ac *)
  ("6s5p3d1f", "7s5p4d1f");  (*  90  Th *)
  ("6s5p3d1f", "7s5p4d2f");  (*  91  Pa *)
  ("6s5p3d1f", "7s5p4d2f");  (*  92  U *)
  ("6s5p3d1f", "7s5p4d2f");  (*  93  Np *)
  ("6s5p3d1f", "7s5p3d2f");  (*  94  Pu *)
  ("6s5p3d1f", "7s5p3d2f");  (*  95  Am *)
  ("6s5p3d1f", "7s5p4d2f");  (*  96  Cm *)
  ("6s5p3d1f", "7s5p4d2f");  (*  97  Bk *)
  ("6s5p3d1f", "7s5p3d2f");  (*  98  Cf *)
  ("6s5p3d1f", "7s5p3d2f");  (*  99  Es *)
  ("6s5p3d1f", "7s5p3d2f");  (* 100  Fm *)
  ("6s5p3d1f", "7s5p3d2f");  (* 101  Md *)
  ("6s5p3d1f", "7s5p3d2f");  (* 102  No *)
  ("6s5p3d2f", "7s5p4d2f");  (* 103  Lr *)
  ("6s5p3d2f", "7s5p4d2f");  (* 104  Rf *)
  ("6s5p3d2f", "7s5p4d2f");  (* 105  Db *)
  ("6s5p3d2f", "7s5p4d2f");  (* 106  Sg *)
  ("6s5p3d2f", "7s5p4d2f");  (* 107  Bh *)
  ("6s5p3d2f", "7s5p4d2f");  (* 108  Hs *)
  ("6s5p3d2f", "7s5p4d2f");  (* 109  Mt *)
  ("6s5p3d2f", "7s5p4d2f");  (* 110  E110 *)
  ("6s5p3d2f", "7s5p4d2f");  (* 111  E111 *)
  ("6s5p3d2f", "7s5p4d2f");  (* 112  E112 *)
  ("6s5p4d2f", "7s6p4d2f");  (* 113  E113 *)
  ("6s5p4d2f", "7s6p4d2f");  (* 114  E114 *)
  ("6s5p4d2f", "7s6p4d2f");  (* 115  E115 *)
  ("6s5p4d2f", "7s6p4d2f");  (* 116  E116 *)
  ("6s3p4d2f", "7s6p4d2f");  (* 117  E117 *)
  ("6s3p4d2f", "7s6p4d2f")   (* 118  E118 *)
]%string.

(** [element : str or int] of [set_atom_conf]. *)
Inductive element : Type :=
| Symbol (symb : string)
| Nuc (z : nat).

(** [description : str or a list of str]. *)
Inductive description : Type :=
| DStr (desc : string)
| DSeq (descs : list string).

Definition str_of_element (e : element) : string :=
  match e with
  | Symbol s => s
  | Nuc z => PyStr.fmt_d z
  end.

(** [[int(x) for x in conf[::2]]] *)
Definition shell_counts (conf : string) : result (list nat) :=
  mapM PyStr.int_of_char (PyStr.chars (PyStr.every_other conf)).

(** ['%ds%dp%dd%df' % tuple(n)] *)
Definition fmt_conf (n : list nat) : result string :=
  match n with
  | [a; b; c; d] =>
      Ok (PyStr.fmt_d a ++ "s" ++ PyStr.fmt_d b ++ "p" ++
          PyStr.fmt_d c ++ "d" ++ PyStr.fmt_d d ++ "f")%string
  | _ => Raise TypeError
  end.

(** [int(desc.split(s)[0][-1])] *)
Definition count_before (s : ascii) (desc : string) : result nat :=
  a <- PyStr.item (PyStr.split_head s desc) (-1) ;;
  PyStr.int_of_char a.

Section SetAtomConf.

(** [mole._charge]: nuclear charge of an element symbol or number; it is
    defined in [pyscf.gto.mole]. *)
Variable _charge : element -> result nat.

Definition to_conf (AOSHELL : conf_table) (charge : nat) (desc : string)
  : result string :=
  let desc := PyStr.lower (PyStr.remove_char "_" (PyStr.remove_char "-"
                (PyStr.remove_char " " desc))) in
  if PyStr.contains "doublep" desc then Ok "2p"%string
  else if PyStr.contains "doubled" desc then Ok "2d"%string
  else if PyStr.contains "doublef" desc then Ok "2f"%string
  else if PyStr.contains "polarize" desc then
    row <- getitem AOSHELL charge ;;
    let loc := PyStr.find "0" (snd row) in
    row <- getitem AOSHELL charge ;;
    a <- PyStr.item (snd row) (loc + 1) ;;
    Ok (String "1" (String a EmptyString))
  else Ok desc.

(** One turn of [for i, s in enumerate(('s', 'p', 'd', 'f'))]. *)
Definition conf_step (c_desc v_desc : string) (st : list nat * list nat)
  (ch : nat * ascii) : result (list nat * list nat) :=
  let '(ncore, ncv) := st in
  let '(i, s) := ch in
  ncore <- (if PyStr.has_char s c_desc
            then n <- count_before s c_desc ;; setitem ncore i n
            else Ok ncore) ;;
  ncv <- (if PyStr.has_char s v_desc
          then c <- getitem ncore i ;;
               n <- count_before s v_desc ;;
               setitem ncv i (c + n)
          else Ok ncv) ;;
  Ok (ncore, ncv).

Fixpoint conf_loop (c_desc v_desc : string) (st : list nat * list nat)
  (chs : list (nat * ascii)) : result (list nat * list nat) :=
  match chs with
  | [] => Ok st
  | ch :: rest => st' <- conf_step c_desc v_desc st ch ;;
                  conf_loop c_desc v_desc st' rest
  end.

Definition spdf : list (nat * ascii) :=
  [(0, "s"); (1, "p"); (2, "d"); (3, "f")]%char.

(** [set_atom_conf(element, description)]: the new table and the line
    written to [sys.stderr]. *)
Definition set_atom_conf (AOSHELL : conf_table) (elem : element)
  (descr : description) : result (conf_table * string) :=
  charge <- _charge elem ;;
  '(c_desc, v_desc) <-
     match descr with
     | DStr d =>
         row <- getitem AOSHELL charge ;;
         v <- to_conf AOSHELL charge d ;;
         Ok (fst row, v)
     | DSeq ds =>
         d0 <- getitem ds 0 ;;
         c <- to_conf AOSHELL charge d0 ;;
         d1 <- getitem ds 1 ;;
         v <- to_conf AOSHELL charge d1 ;;
         Ok (c, v)
     end ;;
  row <- getitem AOSHELL charge ;;
  ncore <- shell_counts (fst row) ;;
  row <- getitem AOSHELL charge ;;
  ncv <- shell_counts (snd row) ;;
  '(ncore, ncv) <- conf_loop c_desc v_desc (ncore, ncv) spdf ;;
  c_conf <- fmt_conf ncore ;;
  cv_conf <- fmt_conf ncv ;;
  AOSHELL' <- setitem AOSHELL charge (c_conf, cv_conf) ;;
  Ok (AOSHELL',
      ("Update " ++ str_of_element elem ++ " conf: core " ++ c_conf ++
       " core+valence " ++ cv_conf ++ String (ascii_of_nat 10) "")%string).

End SetAtomConf.

(** Valence shells per channel: core+valence count minus core count. *)
Definition valence_counts (AOSHELL : conf_table) (charge : nat)
  : result (list nat) :=
  row <- getitem AOSHELL charge ;;
  ncore <- shell_counts (fst row) ;;
  ncv <- shell_counts (snd row) ;;
  Ok (map (fun p => snd p - fst p) (combine ncore ncv)).

(** ** Molecule metadata *)

(** One row of [mol._bas]: owning atom, angular momentum, number of
    contracted functions. *)
Record shell : Type := Shell {
  sh_atom : nat;
  sh_ang : nat;
  sh_nctr : nat
}.

(** One atom: its symbol and the number of electrons its ECP replaces. *)
Record atom : Type := Atom {
  at_symbol : string;
  at_nelec_core : nat
}.

(** What the routines read of a [Mole]: atoms, shells, the
    Cartesian-or-spherical flag, the offsets [ao_loc_nr()] and the rows
    [(b0, b1, p0, p1)] of [aoslice_by_atom()]. *)
Record Mole : Type := MkMole {
  mol_atoms : list atom;
  mol_bas : list shell;
  mol_cart : bool;
  mol_ao_loc : list nat;
  mol_aoslice : list (nat * nat * nat * nat)
}.

Definition natm (mol : Mole) : nat := length (mol_atoms mol).
Definition nbas (mol : Mole) : nat := length (mol_bas mol).

Definition bas_atom (mol : Mole) (ib : nat) : result nat :=
  sh <- getitem (mol_bas mol) ib ;; Ok (sh_atom sh).
Definition bas_angular (mol : Mole) (ib : nat) : result nat :=
  sh <- getitem (mol_bas mol) ib ;; Ok (sh_ang sh).
Definition bas_nctr (mol : Mole) (ib : nat) : result nat :=
  sh <- getitem (mol_bas mol) ib ;; Ok (sh_nctr sh).
Definition atom_symbol (mol : Mole) (ia : nat) : result string :=
  a <- getitem (mol_atoms mol) ia ;; Ok (at_symbol a).
Definition atom_nelec_core (mol : Mole) (ia : nat) : result nat :=
  a <- getitem (mol_atoms mol) ia ;; Ok (at_nelec_core a).

(** Components per shell: [(l + 1) * (l + 2) // 2] or [2 * l + 1]. *)
Definition degen_of (cart : bool) (l : nat) : nat :=
  if cart then (l + 1) * (l + 2) / 2 else 2 * l + 1.

(** Number of basis functions: every contracted function of every shell
    has [degen_of] components. *)
Definition shell_size (cart : bool) (sh : shell) : nat :=
  sh_nctr sh * degen_of cart (sh_ang sh).

Definition nao_nr (mol : Mole) : nat :=
  list_sum (map (shell_size (mol_cart mol)) (mol_bas mol)).

(** ** The shell classifier *)

(** [count], the three lists and [k]. *)
Record cls_state : Type := ClsState {
  cls_count : list (list nat);
  cls_core : list nat;
  cls_val : list nat;
  cls_rydbg : list nat;
  cls_k : nat
}.

(** [count[ia, l]] *)
Definition count_get (count : list (list nat)) (ia l : nat) : result nat :=
  row <- getitem count ia ;; getitem row l.

(** [count[ia, l] += nc] *)
Definition count_add (count : list (list nat)) (ia l nc : nat)
  : result (list (list nat)) :=
  row <- getitem count ia ;;
  c <- getitem row l ;;
  row' <- setitem row l (c + nc) ;;
  setitem count ia row'.

(** One turn of [for n in range(nc)]. *)
Definition classify_ctr (ecpcore coreshell cvshell : list nat)
  (ia l deg : nat) (st : cls_state) (n : nat) : result cls_state :=
  let k := cls_k st in
  let put_core := ClsState (cls_count st) (cls_core st ++ seq k deg)
                    (cls_val st) (cls_rydbg st) (k + deg) in
  let put_val := ClsState (cls_count st) (cls_core st)
                    (cls_val st ++ seq k deg) (cls_rydbg st) (k + deg) in
  let put_rydbg := ClsState (cls_count st) (cls_core st) (cls_val st)
                    (cls_rydbg st ++ seq k deg) (k + deg) in
  if 3 <? l then Ok put_rydbg
  else
    e <- getitem ecpcore l ;;
    c <- count_get (cls_count st) ia l ;;
    ncs <- getitem coreshell l ;;
    if e + c + n <? ncs then Ok put_core
    else
      e <- getitem ecpcore l ;;
      c <- count_get (cls_count st) ia l ;;
      ncv <- getitem cvshell l ;;
      if e + c + n <? ncv then Ok put_val
      else Ok put_rydbg.

(** [for x in xs: st = body(st, x)], stopping at the first exception. *)
Fixpoint foldM {S X : Type} (body : S -> X -> result S) (xs : list X) (st : S)
  : result S :=
  match xs with
  | [] => Ok st
  | x :: t => st' <- body st x ;; foldM body t st'
  end.

Section Classifier.

Variable _charge : element -> result nat.

(** [pyscf.gto.ecp.core_configuration]: shells per angular momentum that
    an ECP of [nelec_ecp] electrons replaces. *)
Variable core_configuration : nat -> result (list nat).

(** The table as it stands when the classifier runs. *)
Variable AOSHELL : conf_table.

(** One turn of [for ib in range(mol.nbas)]. *)
Definition classify_shell (mol : Mole) (st : cls_state) (ib : nat)
  : result cls_state :=
  ia <- bas_atom mol ib ;;
  symb <- atom_symbol mol ia ;;
  nuc <- _charge (Symbol symb) ;;
  l <- bas_angular mol ib ;;
  nc <- bas_nctr mol ib ;;
  symb <- atom_symbol mol ia ;;
  nelec_ecp <- atom_nelec_core mol ia ;;
  ecpcore <- core_configuration nelec_ecp ;;
  row <- getitem AOSHELL nuc ;;
  coreshell <- shell_counts (fst row) ;;
  row <- getitem AOSHELL nuc ;;
  cvshell <- shell_counts (snd row) ;;
  let deg := degen_of (mol_cart mol) l in
  st <- foldM (classify_ctr ecpcore coreshell cvshell ia l deg) (seq 0 nc) st ;;
  count <- count_add (cls_count st) ia l nc ;;
  Ok (ClsState count (cls_core st) (cls_val st) (cls_rydbg st) (cls_k st)).

Definition _core_val_ryd_list (mol : Mole)
  : result (list nat * list nat * list nat) :=
  let count := repeat (repeat 0 9) (natm mol) in
  st <- foldM (classify_shell mol) (seq 0 (nbas mol))
              (ClsState count [] [] [] 0) ;;
  Ok (cls_core st, cls_val st, cls_rydbg st).

End Classifier.

(** The water molecule of the module's self-test, in the 6-31g basis:
    O has shells 3s and 2p, each H has 2s.  Every shell has one contracted
    function. *)
Definition water_631g : Mole :=
  let o_s := Shell 0 0 1 in
  let o_p := Shell 0 1 1 in
  MkMole [Atom "O" 0; Atom "H" 0; Atom "H" 0]
         [o_s; o_s; o_s; o_p; o_p; Shell 1 0 1; Shell 1 0 1; Shell 2 0 1; Shell 2 0 1]
         false
         [0; 1; 2; 3; 6; 9; 10; 11; 12; 13]
         [(0, 5, 0, 9); (5, 7, 9, 11); (7, 9, 11, 13)].

(** Charges of the symbols used in the examples. *)
Definition charge_of (e : element) : result nat :=
  match e with
  | Nuc z => Ok z
  | Symbol s =>
      if String.eqb s "H" then Ok 1
      else if String.eqb s "O" then Ok 8
      else if String.eqb s "Na" then Ok 11
      else if String.eqb s "Fe" then Ok 26
      else if String.eqb s "Ce" then Ok 58
      else Raise RuntimeError
  end.

(** Core shells replaced by the smallest ECPs; other electron counts are
    not used in the examples. *)
Definition small_core_configuration (nelec_ecp : nat) : result (list nat) :=
  match nelec_ecp with
  | 0 => Ok [0; 0; 0; 0]
  | 2 => Ok [1; 0; 0; 0]
  | 10 => Ok [2; 1; 0; 0]
  | _ => Raise RuntimeError
  end.
(** ** Scalars and numpy arrays *)

(** The entries of the matrices: the arithmetic of the arrays, in exact
    arithmetic.  [of_Z] converts a Python integer, [ltb] and [leb] are
    [<] and [<=]. *)
Class Scalar (F : Type) : Type := {
  zero : F;
  one : F;
  add : F -> F -> F;
  mul : F -> F -> F;
  sub : F -> F -> F;
  opp : F -> F;
  div : F -> F -> F;
  of_Z : Z -> F;
  ltb : F -> F -> bool;
  leb : F -> F -> bool
}.

Declare Scope F_scope.
Delimit Scope F_scope with F.
Infix "+" := add : F_scope.
Infix "*" := mul : F_scope.
Infix "-" := sub : F_scope.
Infix "/" := div : F_scope.
Notation "- x" := (opp x) : F_scope.

(** A 1-d array, and a 2-d array as the list of its rows. *)
Definition vec (F : Type) : Type := list F.
Definition matrix (F : Type) : Type := list (list F).

Section Numpy.

Context {F : Type} {SF : Scalar F}.

Definition nrows (A : matrix F) : nat := length A.
Definition ncols (A : matrix F) : nat :=
  match A with
  | [] => 0
  | r :: _ => length r
  end.

(** [numpy.zeros(n)], [numpy.zeros((m, n))], [numpy.eye(n)] *)
Definition zeros (n : nat) : vec F := repeat zero n.
Definition zeros2 (m n : nat) : matrix F := repeat (zeros n) m.
Definition eye (n : nat) : matrix F :=
  map (fun i => map (fun j => if i =? j then one else zero) (seq 0 n)) (seq 0 n).

(** [A[i, j]], for reading an array in statements. *)
Definition entry (A : matrix F) (i j : nat) : F := nth j (nth i A []) zero.

(** [xs[lst]] with a list of indices: a new array. *)
Definition take {A : Type} (xs : list A) (lst : list nat) : result (list A) :=
  mapM (getitem xs) lst.

(** [A[:, lst]] *)
Definition take_cols (A : matrix F) (lst : list nat) : result (matrix F) :=
  mapM (fun row => take row lst) A.

(** Sum of a 1-d array. *)
Definition vsum (xs : vec F) : F := fold_right add zero xs.

Definition column (A : matrix F) (j : nat) : vec F :=
  map (fun row => nth j row zero) A.

(** [A.T] of a square array given by its rows, as the restoration step
    of [nao] takes it.  A list of rows cannot hold an array without rows
    or without columns, so the arrays of [_nao_sub], where [cnao[:, []]]
    occurs, carry their shape and have a transpose of their own
    ([a2_conjT]). *)
Definition transpose (A : matrix F) : matrix F :=
  map (column A) (seq 0 (ncols A)).

Definition vdot (u v : vec F) : F :=
  vsum (map (fun xy => (fst xy * snd xy)%F) (combine u v)).

Definition matmul (A B : matrix F) : matrix F :=
  map (fun row => map (fun j => vdot row (column B j)) (seq 0 (ncols B))) A.

(** [numpy.dot(A, B)] of two 2-d arrays. *)
Definition np_dot (A B : matrix F) : result (matrix F) :=
  if ncols A =? nrows B then Ok (matmul A B) else Raise ValueError.

(** [reduce(numpy.dot, (A, B, C))] *)
Definition np_dot3 (A B C : matrix F) : result (matrix F) :=
  AB <- np_dot A B ;; np_dot AB C.

(** [A - B], entry by entry, for arrays of one shape. *)
Definition mat_sub (A B : matrix F) : matrix F :=
  map (fun rs => map (fun xy => (fst xy - snd xy)%F) (combine (fst rs) (snd rs)))
      (combine A B).

(** [A / n] for a Python integer [n]. *)
Definition mat_div (A : matrix F) (n : nat) : matrix F :=
  map (map (fun x => (x / of_Z (Z.of_nat n))%F)) A.

(** [count] consecutive pieces of [n] items each. *)
Definition chunks {A : Type} (n count : nat) (xs : list A) : list (list A) :=
  map (fun i => firstn n (skipn (i * n) xs)) (seq 0 count).

(** [A.reshape(a, b, c, d)] of the row-major data [flat]. *)
Definition reshape4 (flat : list F) (a b c d : nat)
  : result (list (list (list (list F)))) :=
  if length flat =? a * b * c * d then
    Ok (map (fun blk => map (chunks d c) (chunks (c * d) b blk))
            (chunks (b * c * d) a flat))
  else Raise ValueError.

(** [numpy.einsum('imjn->ij', T)] for [T] of shape [(a, b, c, d)]. *)
Definition einsum_imjn_ij (c : nat) (T : list (list (list (list F)))) : matrix F :=
  map (fun Ti => map (fun j => vsum (map (fun Tim => vsum (nth j Tim [])) Ti))
                     (seq 0 c)) T.

(** The value assigned by [target[...] = xs] to a target of [n] items:
    [xs] itself, or its one item repeated. *)
Definition broadcast_to {A : Type} (n : nat) (xs : list A) : result (list A) :=
  if length xs =? n then Ok xs
  else match xs with
       | [x] => Ok (repeat x n)
       | _ => Raise ValueError
       end.

(** [for (i, v) in zip(lst, vals): xs[i] = v] *)
Fixpoint scatter {A : Type} (xs : list A) (lst : list nat) (vals : list A)
  : result (list A) :=
  match lst, vals with
  | i :: lst', v :: vals' => xs' <- setitem xs i v ;; scatter xs' lst' vals'
  | _, _ => Ok xs
  end.

(** [xs[lst] = vals] with a list of indices. *)
Definition put {A : Type} (xs : list A) (lst : list nat) (vals : list A)
  : result (list A) :=
  vals <- broadcast_to (length lst) vals ;;
  scatter xs lst vals.

(** [A[i0, lst] = vals] *)
Definition put_row (A : matrix F) (i0 : nat) (lst : list nat) (vals : vec F)
  : result (matrix F) :=
  row <- getitem A i0 ;;
  row' <- put row lst vals ;;
  setitem A i0 row'.

(** [xs[a:b]] *)
Definition slice {A : Type} (xs : list A) (a b : nat) : list A :=
  skipn a (firstn b xs).

(** [numpy.where(xs == l)[0]] *)
Definition where_eq (xs : list nat) (l : nat) : list nat :=
  filter (fun i => nth i xs 0 =? l) (seq 0 (length xs)).

(** [numpy.arange(a, b)] *)
Definition arange (a b : nat) : list nat := seq a (b - a).

(** [numpy.hstack(parts)] of a Python list of 1-d arrays: numpy refuses to
    concatenate an empty sequence. *)
Definition hstack {A : Type} (parts : list (list A)) : result (list A) :=
  match parts with
  | [] => Raise ValueError
  | _ => Ok (concat parts)
  end.

(** [xs.max()]: numpy refuses an empty array. *)
Definition np_max (xs : list nat) : result nat :=
  match xs with
  | [] => Raise ValueError
  | x :: t => Ok (fold_left Nat.max t x)
  end.

(** [xs[-1]] *)
Definition last_item {A : Type} (xs : list A) : result A :=
  match rev xs with
  | [] => Raise IndexError
  | x :: _ => Ok x
  end.

(** [idx.reshape(-1, degen)] of a 1-d array. *)
Definition reshape_rows {A : Type} (idx : list A) (degen : nat)
  : result (list (list A)) :=
  if degen =? 0 then Raise ValueError
  else if length idx mod degen =? 0 then
    Ok (chunks degen (length idx / degen) idx)
  else Raise ValueError.

(** [idx[:, k]] of a 2-d array of indices. *)
Definition icolumn (idx : list (list nat)) (k : nat) : result (list nat) :=
  mapM (fun row => getitem row k) idx.

(** ** The block averager *)

Definition _spheric_average_mat (mat : matrix F) (l : nat) (lst : list nat)
  (degen : option nat) : result (matrix F) :=
  let degen := match degen with
               | None => l * 2 + 1
               | Some d => d
               end in
  if degen =? 0 then Raise ZeroDivisionError
  else
    let nd := length lst / degen in
    rows <- take mat lst ;;
    sub_mat <- take_cols rows lst ;;
    mat_frag <- reshape4 (concat sub_mat) nd degen nd degen ;;
    Ok (mat_div (einsum_imjn_ij nd mat_frag) degen).

End Numpy.

(** ** The pre-NAO solver *)

Section PreNao.

Context {F : Type} {SF : Scalar F}.

(** [scipy.linalg.eigh(a, b)]: eigenvalues and the matrix whose columns
    are the eigenvectors of the generalized problem [a v = e b v]. *)
Variable eigh : matrix F -> matrix F -> result (vec F * matrix F).

(** The [idx] of one atom (shells [b0..b1-1]) and one [l]: the functions
    of every shell of that [l], as [numpy.hstack] joins them. *)
Definition block_idx (ao_loc bas_ang : list nat) (b0 b1 l : nat)
  : result (list nat) :=
  parts <- mapM (fun ib => lo <- getitem ao_loc (b0 + ib) ;;
                           hi <- getitem ao_loc (b0 + ib + 1) ;;
                           Ok (arange lo hi))
                (where_eq (slice bas_ang b0 b1) l) ;;
  hstack parts.

(** One turn of [for i, i0 in enumerate(ilst)]: [cao[i0, ilst] = v[i]]. *)
Definition write_row (v : matrix F) (ilst : list nat) (cao : matrix F)
  (ii0 : nat * nat) : result (matrix F) :=
  let '(i, i0) := ii0 in
  vi <- getitem v i ;;
  put_row cao i0 ilst vi.

(** One turn of [for k in range(degen)]. *)
Definition write_component (e : vec F) (v : matrix F) (idx : list (list nat))
  (st : vec F * matrix F) (k : nat) : result (vec F * matrix F) :=
  let '(occ, cao) := st in
  ilst <- icolumn idx k ;;
  occ <- put occ ilst e ;;
  cao <- foldM (write_row v ilst) (combine (seq 0 (length ilst)) ilst) cao ;;
  Ok (occ, cao).

(** The body of [for l in range(l_max+1)] once [idx] is known to be
    non-empty. *)
Definition prenao_block (cart : bool) (p s : matrix F) (l : nat)
  (idx : list nat) (st : vec F * matrix F) : result (vec F * matrix F) :=
  let degen := degen_of cart l in
  p_frag <- _spheric_average_mat p l idx (Some degen) ;;
  s_frag <- _spheric_average_mat s l idx (Some degen) ;;
  '(e, v) <- eigh p_frag s_frag ;;
  let e := rev e in
  let v := map (@rev F) v in
  idx <- reshape_rows idx degen ;;
  foldM (write_component e v idx) (seq 0 degen) st.

(** One turn of [for l in range(l_max+1)]. *)
Definition prenao_l (mol : Mole) (p s : matrix F) (bas_ang : list nat)
  (b0 b1 : nat) (st : vec F * matrix F) (l : nat) : result (vec F * matrix F) :=
  idx <- block_idx (mol_ao_loc mol) bas_ang b0 b1 l ;;
  if length idx <? 1 then Ok st
  else prenao_block (mol_cart mol) p s l idx st.

(** One turn of [for ia, (b0,b1,p0,p1) in enumerate(...)]. *)
Definition prenao_atom (mol : Mole) (p s : matrix F) (bas_ang : list nat)
  (st : vec F * matrix F) (sl : nat * nat * nat * nat) : result (vec F * matrix F) :=
  let '(b0, b1, _, _) := sl in
  l_max <- np_max (slice bas_ang b0 b1) ;;
  foldM (prenao_l mol p s bas_ang b0 b1) (seq 0 (l_max + 1)) st.

Definition _prenao_sub (mol : Mole) (p s : matrix F) : result (vec F * matrix F) :=
  let ao_loc := mol_ao_loc mol in
  nao <- last_item ao_loc ;;
  let occ := zeros nao in
  let cao := zeros2 nao nao in
  let bas_ang := map sh_ang (mol_bas mol) in
  foldM (prenao_atom mol p s bas_ang) (mol_aoslice mol) (occ, cao).

(** The restoration pass of [nao]: the body of [if restore:]. *)
Definition restore_pass (mol : Mole) (p cnao : matrix F) : result (matrix F) :=
  p_nao <- np_dot3 (transpose cnao) p cnao ;;
  let s_nao := eye (nrows p_nao) in
  r <- _prenao_sub mol p_nao s_nao ;;
  np_dot cnao (snd r).

End PreNao.

(** An atom whose only shell is a p shell: it has no s function. *)
Definition p_only_atom : Mole :=
  MkMole [Atom "H" 0] [Shell 0 1 1] false [0; 3] [(0, 1, 0, 3)].

(** An atom with two s functions in one contracted shell. *)
Definition two_s_atom : Mole :=
  MkMole [Atom "H" 0] [Shell 0 0 2] false [0; 2] [(0, 1, 0, 2)].

(** Two atoms of which the second has no shell. *)
Definition bare_second_atom : Mole :=
  MkMole [Atom "H" 0; Atom "H" 0] [Shell 0 0 1] false [0; 1]
         [(0, 1, 0, 1); (1, 1, 1, 1)].
(** ** Array objects and the store *)

(** A 2-d array: its shape [(rows, columns)] and its rows.  The shape is
    kept beside the rows because an array without rows or without columns,
    such as [cnao[:, []]] and its transpose, cannot be read off a list of
    rows. *)
Record array2 (F : Type) : Type := Array2 {
  shape2 : nat * nat;
  rows2 : matrix F
}.
Arguments Array2 {F} shape2 rows2.
Arguments shape2 {F} a.
Arguments rows2 {F} a.

Section Array2.

Context {F : Type} {SF : Scalar F}.

(** The array of shape [(m, n)] whose entry [(i, j)] is [f i j]. *)
Definition a2_make (m n : nat) (f : nat -> nat -> F) : array2 F :=
  Array2 (m, n) (map (fun i => map (fun j => f i j) (seq 0 n)) (seq 0 m)).

(** Where [j] occurs last in [lst]. *)
Fixpoint last_index_from (k j : nat) (lst : list nat) (found : option nat)
  : option nat :=
  match lst with
  | [] => found
  | x :: t => last_index_from (S k) j t (if x =? j then Some k else found)
  end.

Definition last_index (j : nat) (lst : list nat) : option nat :=
  last_index_from 0 j lst None.

(** [a.conj().T]: the entries are real, so the conjugate is a copy. *)
Definition a2_conjT (a : array2 F) : array2 F :=
  let '(m, n) := shape2 a in
  a2_make n m (fun i j => entry (rows2 a) j i).

(** [numpy.dot(a, b)] of two 2-d arrays; the sum over an empty axis is
    zero. *)
Definition a2_dot (a b : array2 F) : result (array2 F) :=
  let '(m, k) := shape2 a in
  let '(k', n) := shape2 b in
  if k =? k' then
    Ok (a2_make m n
          (fun i j => vsum (map (fun t => (entry (rows2 a) i t * entry (rows2 b) t j)%F)
                                (seq 0 k))))
  else Raise ValueError.

(** [a - b] for arrays of one shape. *)
Definition a2_sub (a b : array2 F) : result (array2 F) :=
  let '(m, n) := shape2 a in
  let '(m', n') := shape2 b in
  if (m =? m') && (n =? n') then
    Ok (a2_make m n (fun i j => (entry (rows2 a) i j - entry (rows2 b) i j)%F))
  else Raise ValueError.

(** [a[:, lst]] with a list of indices. *)
Definition a2_take_cols (a : array2 F) (lst : list nat) : result (array2 F) :=
  let '(m, n) := shape2 a in
  if forallb (fun j => j <? n) lst then
    Ok (Array2 (m, length lst)
          (map (fun i => map (fun j => entry (rows2 a) i j) lst) (seq 0 m)))
  else Raise IndexError.

(** [a[:, lst] = b] for [b] with one column per index: the new value of
    [a].  Where an index is repeated the last assignment stays. *)
Definition a2_put_cols (a : array2 F) (lst : list nat) (b : array2 F)
  : result (array2 F) :=
  let '(m, n) := shape2 a in
  let '(m', n') := shape2 b in
  if (m' =? m) && (n' =? length lst) then
    if forallb (fun j => j <? n) lst then
      Ok (a2_make m n
            (fun i j => match last_index j lst with
                        | Some r => entry (rows2 b) i r
                        | None => entry (rows2 a) i j
                        end))
    else Raise IndexError
  else Raise ValueError.

End Array2.

(** An array object: 1-d or 2-d. *)
Inductive ndarray (F : Type) : Type :=
| Arr1 (v : vec F)
| Arr2 (a : array2 F).
Arguments Arr1 {F} v.
Arguments Arr2 {F} a.

(** A reference to an array object: its position in the store. *)
Definition ref : Type := nat.

(** The store of array objects and the warnings logged so far (each
    warning of this module carries the residual it reports). *)
Record world (F : Type) : Type := World {
  heap : list (ndarray F);
  warnings : list F
}.
Arguments World {F} heap warnings.

(** Computations that read and update the store and may raise. *)
Definition M (F A : Type) : Type := world F -> result A * world F.

Definition ret {F A : Type} (a : A) : M F A := fun w => (Ok a, w).

Definition mbind {F A B : Type} (m : M F A) (k : A -> M F B) : M F B :=
  fun w => match m w with
           | (Ok a, w') => k a w'
           | (Raise e, w') => (Raise e, w')
           end.

Definition lift {F A : Type} (r : result A) : M F A := fun w => (r, w).

Declare Scope M_scope.
Delimit Scope M_scope with M.
Notation "x <-- m ;; k" := (mbind m (fun x => k))
  (at level 61, m at next level, right associativity) : M_scope.
Notation "m ;;; k" := (mbind m (fun _ => k))
  (at level 61, right associativity) : M_scope.

Section Store.

Context {F : Type} {SF : Scalar F}.

(** A new array object. *)
Definition alloc (a : ndarray F) : M F ref :=
  fun w => (Ok (length (heap w)), World (heap w ++ [a]) (warnings w)).

Definition load (r : ref) : M F (ndarray F) :=
  fun w => (getitem (heap w) r, w).

(** Overwriting the contents of an existing object. *)
Definition store (r : ref) (a : ndarray F) : M F unit :=
  fun w => match setitem (heap w) r a with
           | Ok h => (Ok tt, World h (warnings w))
           | Raise e => (Raise e, w)
           end.

Definition load1 (r : ref) : M F (vec F) :=
  (a <-- load r ;;
   match a with
   | Arr1 v => ret v
   | Arr2 _ => lift (Raise TypeError)
   end)%M.

Definition load2 (r : ref) : M F (array2 F) :=
  (a <-- load r ;;
   match a with
   | Arr2 m => ret m
   | Arr1 _ => lift (Raise TypeError)
   end)%M.

(** [logger.warn(mol, 'Weak orthogonality for localized orbitals %s', snorm)] *)
Definition warn (snorm : F) : M F unit :=
  fun w => (Ok tt, World (heap w) (warnings w ++ [snorm])).

(** [a.copy()] and [a.astype(dtype)]: a new object with the same values. *)
Definition np_copy (a : ref) : M F ref := (x <-- load a ;; alloc x)%M.

(** [a[:, lst]] with a list of indices: a new object. *)
Definition np_take_cols (a : ref) (lst : list nat) : M F ref :=
  (A <-- load2 a ;; B <-- lift (a2_take_cols A lst) ;; alloc (Arr2 B))%M.

(** [v[lst]] with a list of indices: a new object. *)
Definition np_take (v : ref) (lst : list nat) : M F ref :=
  (x <-- load1 v ;; y <-- lift (take x lst) ;; alloc (Arr1 y))%M.

(** [a.conj().T]: a new object. *)
Definition np_conjT (a : ref) : M F ref :=
  (A <-- load2 a ;; alloc (Arr2 (a2_conjT A)))%M.

(** [lib.dot(a, b)]: a new object. *)
Definition lib_dot (a b : ref) : M F ref :=
  (A <-- load2 a ;; B <-- load2 b ;; C <-- lift (a2_dot A B) ;; alloc (Arr2 C))%M.

(** [a -= b]: in place, on the object [a]. *)
Definition np_isub (a b : ref) : M F unit :=
  (A <-- load2 a ;; B <-- load2 b ;;
   C <-- lift (a2_sub A B) ;;
   store a (Arr2 C))%M.

(** [a - b]: a new object. *)
Definition np_sub (a b : ref) : M F ref :=
  (A <-- load2 a ;; B <-- load2 b ;;
   C <-- lift (a2_sub A B) ;;
   alloc (Arr2 C))%M.

(** [a[:, lst] = b]: in place, on the object [a]. *)
Definition np_put_cols (a : ref) (lst : list nat) (b : ref) : M F unit :=
  (A <-- load2 a ;; B <-- load2 b ;;
   A' <-- lift (a2_put_cols A lst B) ;;
   store a (Arr2 A'))%M.

End Store.

(** ** The assembler *)

Section NaoSub.

Context {F : Type} {SF : Scalar F}.

Variable _charge : element -> result nat.
Variable core_configuration : nat -> result (list nat).
Variable AOSHELL : conf_table.

(** [mol.intor_symmetric('int1e_ovlp')]: the overlap matrix of the
    molecule, from the integral library. *)
Variable intor_ovlp : Mole -> result (array2 F).

(** [orth.lowdin(s)] and [orth.weight_orth(s, weight)] of
    [pyscf.lo.orth]: they compute a new matrix from their arguments. *)
Variable lowdin : array2 F -> result (array2 F).
Variable weight_orth : array2 F -> vec F -> result (array2 F).

(** [numpy.linalg.norm] of a 2-d array. *)
Variable norm : array2 F -> F.

(** [numpy.empty((m, n))]: an array of that shape with arbitrary entries. *)
Variable np_empty : nat -> nat -> matrix F.

Definition call_lowdin (s1 : ref) : M F ref :=
  (A <-- load2 s1 ;; B <-- lift (lowdin A) ;; alloc (Arr2 B))%M.

Definition call_weight_orth (s1 wt : ref) : M F ref :=
  (A <-- load2 s1 ;; w <-- load1 wt ;; B <-- lift (weight_orth A w) ;;
   alloc (Arr2 B))%M.

(** [reduce(lib.dot, (c.conj().T, s, c))] *)
Definition gram (c s : ref) : M F ref :=
  (ct <-- np_conjT c ;; x <-- lib_dot ct s ;; lib_dot x c)%M.

(** [reduce(lib.dot, (c1, c1.conj().T, s, c))] *)
Definition projection (c1 s c : ref) : M F ref :=
  (c1t <-- np_conjT c1 ;; x <-- lib_dot c1 c1t ;; y <-- lib_dot x s ;;
   lib_dot y c)%M.

(** [1e-9] *)
Definition weak_tol : F := (one / of_Z 1000000000)%F.

(** The three partitions written into [cnao]: the function up to its
    last assignment to [cnao].  It yields the objects [cnao] and [s]. *)
Definition nao_assemble (mol : Mole) (pre_occ pre_nao : ref) (s : option ref)
  : M F (ref * ref) :=
  (s <-- match s with
         | None => S0 <-- lift (intor_ovlp mol) ;; alloc (Arr2 S0)
         | Some s => ret s
         end ;;
   lists <-- lift (_core_val_ryd_list _charge core_configuration AOSHELL mol) ;;
   let '(core_lst, val_lst, rydbg_lst) := lists in
   let nbf := nao_nr mol in
   pre_nao <-- np_copy pre_nao ;;
   cnao <-- alloc (Arr2 (Array2 (nbf, nbf) (np_empty nbf nbf))) ;;
   c <-- match core_lst with
         | _ :: _ =>
             c <-- np_take_cols pre_nao core_lst ;;
             c <-- np_copy c ;;
             s1 <-- gram c s ;;
             x <-- call_lowdin s1 ;;
             c1 <-- lib_dot c x ;;
             np_put_cols cnao core_lst c1 ;;;
             c <-- np_take_cols pre_nao val_lst ;;
             c <-- np_copy c ;;
             x <-- projection c1 s c ;;
             np_isub c x ;;;
             ret c
         | [] => np_take_cols pre_nao val_lst
         end ;;
   match val_lst with
   | _ :: _ =>
       s1 <-- gram c s ;;
       wt <-- np_take pre_occ val_lst ;;
       x <-- call_weight_orth s1 wt ;;
       y <-- lib_dot c x ;;
       np_put_cols cnao val_lst y
   | [] => ret tt
   end ;;;
   match rydbg_lst with
   | _ :: _ =>
       let cvlst := core_lst ++ val_lst in
       c1 <-- np_take_cols cnao cvlst ;;
       c1 <-- np_copy c1 ;;
       c <-- np_take_cols pre_nao rydbg_lst ;;
       c <-- np_copy c ;;
       x <-- projection c1 s c ;;
       np_isub c x ;;;
       s1 <-- gram c s ;;
       x <-- call_lowdin s1 ;;
       y <-- lib_dot c x ;;
       np_put_cols cnao rydbg_lst y
   | [] => ret tt
   end ;;;
   ret (cnao, s))%M.

(** The residual [numpy.linalg.norm(C^T S C - numpy.eye(nbf))]. *)
Definition residual (nbf : nat) (cnao s : ref) : M F F :=
  (g <-- gram cnao s ;;
   i <-- alloc (Arr2 (Array2 (nbf, nbf) (eye nbf))) ;;
   d <-- np_sub g i ;;
   D <-- load2 d ;;
   ret (norm D))%M.

(** The check that ends the function: warn, and return [cnao]. *)
Definition nao_validate (mol : Mole) (cs : ref * ref) : M F ref :=
  (let '(cnao, s) := cs in
   snorm <-- residual (nao_nr mol) cnao s ;;
   (if ltb weak_tol snorm then warn snorm else ret tt) ;;;
   ret cnao)%M.

Definition _nao_sub (mol : Mole) (pre_occ pre_nao : ref) (s : option ref)
  : M F ref :=
  (cs <-- nao_assemble mol pre_occ pre_nao s ;; nao_validate mol cs)%M.

End NaoSub.

(** ** Exact rational scalars, for the examples *)

Definition Qc_ltb (a b : Qcanon.Qc) : bool :=
  match Qcanon.Qccompare a b with
  | Lt => true
  | _ => false
  end.

Definition Qc_leb (a b : Qcanon.Qc) : bool :=
  match Qcanon.Qccompare a b with
  | Gt => false
  | _ => true
  end.

#[export] Instance Qc_scalar : Scalar Qcanon.Qc := {|
  zero := Qcanon.Q2Qc (QArith_base.inject_Z 0);
  one := Qcanon.Q2Qc (QArith_base.inject_Z 1);
  add := Qcanon.Qcplus;
  mul := Qcanon.Qcmult;
  sub := Qcanon.Qcminus;
  opp := Qcanon.Qcopp;
  div := Qcanon.Qcdiv;
  of_Z := fun z => Qcanon.Q2Qc (QArith_base.inject_Z z);
  ltb := Qc_ltb;
  leb := Qc_leb
|}.

(** An integer as a rational scalar. *)
Definition q (z : Z) : Qcanon.Qc := Qcanon.Q2Qc (QArith_base.inject_Z z).

(** The eigensolver on the problems of the examples: a diagonal matrix
    with ascending diagonal and the identity as overlap.  There the
    eigenvalues are the diagonal, in that order, and the eigenvectors are
    the unit vectors.  Other problems are not solved. *)
Definition eigh_diag (a b : matrix Qcanon.Qc)
  : result (vec Qcanon.Qc * matrix Qcanon.Qc) :=
  let n := nrows a in
  let d := map (fun i => entry a i i) (seq 0 n) in
  let same := fun A B : matrix Qcanon.Qc =>
                forallb (fun i => forallb (fun j =>
                  Qcanon.Qc_eq_bool (entry A i j) (entry B i j)) (seq 0 n))
                  (seq 0 n) in
  let diag := map (fun i => map (fun j => if i =? j then entry a i i else zero)
                                (seq 0 n)) (seq 0 n) in
  let fix sorted (xs : list Qcanon.Qc) : bool :=
    match xs with
    | x :: ((y :: _) as t) => Qc_leb x y && sorted t
    | _ => true
    end in
  if (nrows b =? n) && same a diag && same b (eye n) && sorted d
  then Ok (d, eye n)
  else Raise LinAlgError.

(** Stand-ins for the collaborators in the examples: an orthogonalizer
    that keeps the columns as they are, the entrywise 1-norm, and zeros
    for the uninitialised array. *)
Definition keep_columns (s1 : array2 Qcanon.Qc) : result (array2 Qcanon.Qc) :=
  Ok (Array2 (shape2 s1) (eye (fst (shape2 s1)))).

Definition keep_columns_weighted (s1 : array2 Qcanon.Qc) (wt : vec Qcanon.Qc)
  : result (array2 Qcanon.Qc) :=
  Ok (Array2 (shape2 s1) (eye (fst (shape2 s1)))).

Definition Qc_abs (x : Qcanon.Qc) : Qcanon.Qc :=
  if Qc_ltb x zero then Qcanon.Qcopp x else x.

Definition norm1 (A : array2 Qcanon.Qc) : Qcanon.Qc :=
  vsum (map (fun row => vsum (map Qc_abs row)) (rows2 A)).

(** A store holding occupations, pre-NAO coefficients and an overlap for
    [two_s_atom]; the overlap is twice the identity. *)
Definition two_s_world : world Qcanon.Qc :=
  World [Arr1 [q 1; q 0]; Arr2 (Array2 (2, 2) (eye 2));
         Arr2 (Array2 (2, 2) [[q 2; q 0]; [q 0; q 2]])] [].

(** The same for [p_only_atom], whose three functions are all Rydberg
    functions. *)
Definition p_only_world : world Qcanon.Qc :=
  World [Arr1 [q 0; q 0; q 0]; Arr2 (Array2 (3, 3) (eye 3));
         Arr2 (Array2 (3, 3) [[q 2; q 0; q 0]; [q 0; q 2; q 0]; [q 0; q 0; q 2]])]
        [].

(** ** Vocabulary of the statements *)

(** The digit character of a count below ten. *)
Definition dchar (n : nat) : ascii := ascii_of_nat (48 + n).
Arguments dchar : simpl never.

(** A row of the table as the module writes it: one digit per channel,
    each followed by its letter. *)
Definition conf_str (a b c d : nat) : string :=
  String (dchar a) (String "s" (String (dchar b) (String "p"
    (String (dchar c) (String "d" (String (dchar d) (String "f" ""))))))).

(** The first channel whose count is zero. *)
Fixpoint first_zero (n : list nat) : option nat :=
  match n with
  | [] => None
  | x :: t => if x =? 0 then Some 0
              else match first_zero t with
                   | Some i => Some (S i)
                   | None => None
                   end
  end.

(** [xs] with item [i] replaced, unchanged when [i] is out of range. *)
Fixpoint replace_nth {A : Type} (xs : list A) (i : nat) (v : A) : list A :=
  match xs, i with
  | [], _ => []
  | _ :: t, O => v :: t
  | x :: t, S j => x :: replace_nth t j v
  end.

(** The letter of channel [i] in the order s, p, d, f. *)
Definition channel_letter (i : nat) : ascii :=
  match i with
  | 0 => "s"
  | 1 => "p"
  | 2 => "d"
  | _ => "f"
  end%char.

(** A list of indices in strictly increasing order, all below [k]. *)
Definition increasing_below (k : nat) (l : list nat) : Prop :=
  StronglySorted lt l /\ Forall (fun x => x < k) l.

(** No index belongs to both lists. *)
Definition disjoint (l1 l2 : list nat) : Prop :=
  forall x, In x l1 -> ~ In x l2.

Section ClassifierInputs.

Variable _charge : element -> result nat.
Variable core_configuration : nat -> result (list nat).
Variable AOSHELL : conf_table.

(** What the classifier needs of a shell: an angular momentum within the
    nine columns of [count], an owning atom of the molecule whose symbol
    has a charge, whose ECP has a core configuration over s, p, d, f, and
    whose row of the table holds four counts per string. *)
Definition shell_ok (mol : Mole) (sh : shell) : Prop :=
  sh_ang sh < 9 /\
  exists a nuc ecpcore row coreshell cvshell,
    getitem (mol_atoms mol) (sh_atom sh) = Ok a /\
    _charge (Symbol (at_symbol a)) = Ok nuc /\
    core_configuration (at_nelec_core a) = Ok ecpcore /\
    getitem AOSHELL nuc = Ok row /\
    shell_counts (fst row) = Ok coreshell /\
    shell_counts (snd row) = Ok cvshell /\
    4 <= length ecpcore /\ 4 <= length coreshell /\ 4 <= length cvshell.

Definition classifiable (mol : Mole) : Prop :=
  Forall (shell_ok mol) (mol_bas mol).

End ClassifierInputs.

(** The invariant of the classifier's loops: the three lists are in
    increasing order, below [k], and together hold each index below [k]
    once. *)
Definition cls_inv (st : cls_state) : Prop :=
  increasing_below (cls_k st) (cls_core st) /\
  increasing_below (cls_k st) (cls_val st) /\
  increasing_below (cls_k st) (cls_rydbg st) /\
  Permutation (cls_core st ++ cls_val st ++ cls_rydbg st) (seq 0 (cls_k st)).

(** One contracted function placed: its [deg] indices go to the end of
    one list, [k] advances, [count] is untouched. *)
Definition placed (deg : nat) (st st' : cls_state) : Prop :=
  cls_count st' = cls_count st /\
  cls_k st' = cls_k st + deg /\
  let new := seq (cls_k st) deg in
  (cls_core st' = cls_core st ++ new /\ cls_val st' = cls_val st /\
   cls_rydbg st' = cls_rydbg st) \/
  (cls_core st' = cls_core st /\ cls_val st' = cls_val st ++ new /\
   cls_rydbg st' = cls_rydbg st) \/
  (cls_core st' = cls_core st /\ cls_val st' = cls_val st /\
   cls_rydbg st' = cls_rydbg st ++ new).

(** [count] has one row of nine columns per atom. *)
Definition count_shape (n : nat) (count : list (list nat)) : Prop :=
  length count = n /\ Forall (fun row => length row = 9) count.

Section MatrixVocabulary.

Context {F : Type} {SF : Scalar F}.

(** An [n] by [n] array. *)
Definition square (n : nat) (A : matrix F) : Prop :=
  length A = n /\ Forall (fun row => length row = n) A.

(** An [m] by [n] array. *)
Definition has_shape (m n : nat) (A : matrix F) : Prop :=
  length A = m /\ Forall (fun row => length row = n) A.

(** The sum of [mat] over the [degen] components of radial functions [i]
    and [j] of the block [lst]. *)
Definition block_sum (mat : matrix F) (lst : list nat) (degen i j : nat) : F :=
  vsum (map (fun m =>
          vsum (map (fun n => entry mat (nth (i * degen + m) lst 0)
                                        (nth (j * degen + n) lst 0))
                    (seq 0 degen)))
          (seq 0 degen)).

(** [A[i, j] == A[j, i]] on the indices of [lst]. *)
Definition symmetric_on (lst : list nat) (A : matrix F) : Prop :=
  forall a b, In a lst -> In b lst -> entry A a b = entry A b a.

End MatrixVocabulary.

(** The indices of component [k] of a block, in radial order:
    [idx.reshape(-1, degen)[:, k]]. *)
Definition component_indices (idx : list nat) (degen nd k : nat) : list nat :=
  map (fun r => nth (r * degen + k) idx 0) (seq 0 nd).

(** [a] and [b] are functions of one component of the block. *)
Definition same_component (idx : list nat) (degen nd a b : nat) : Prop :=
  exists k i j, k < degen /\ i < nd /\ j < nd /\
    a = nth (i * degen + k) idx 0 /\ b = nth (j * degen + k) idx 0.

Section OrderVocabulary.

Context {F : Type} {SF : Scalar F}.

(** Each item is [<=] every later one; each item is [>=] every later one. *)
Definition ascending (e : vec F) : Prop :=
  StronglySorted (fun a b => leb a b = true) e.
Definition non_increasing (e : vec F) : Prop :=
  StronglySorted (fun a b => leb b a = true) e.

End OrderVocabulary.

(** The store has grown, and the objects at references below [n0] are the
    ones they were. *)
Definition heap_ext {F : Type} (n0 : nat) (h h' : list (ndarray F)) : Prop :=
  length h <= length h' /\
  forall r, r < n0 -> nth_error h' r = nth_error h r.

(** A computation that, started in a store of at least [n0] objects,
    leaves those [n0] objects alone, logs no warning, and whose result
    satisfies [Q]. *)
Definition quiet {F A : Type} (n0 : nat) (m : M F A) (Q : A -> Prop) : Prop :=
  forall w, n0 <= length (heap w) ->
    heap_ext n0 (heap w) (heap (snd (m w))) /\
    warnings (snd (m w)) = warnings w /\
    forall a, fst (m w) = Ok a -> Q a.

Section Orthonormality.

Context {F : Type} {SF : Scalar F}.

(** [sum(f(k) for k in range(n))] *)
Definition sum_upto (n : nat) (f : nat -> F) : F := vsum (map f (seq 0 n)).

(** The columns [a] and [b] of the [n]-row array [A] have inner product
    one when [a = b] and zero otherwise, for all [a, b < m]. *)
Definition orthonormal_columns (n m : nat) (A : matrix F) : Prop :=
  forall a b, a < m -> b < m ->
    sum_upto n (fun c => (entry A c a * entry A c b)%F) =
    if a =? b then one else zero.

End Orthonormality.

(** The blocks the loops of [_prenao_sub] visit for one atom, in order:
    angular momentum and indices, the empty ones skipped. *)
Definition atom_blocks (ao_loc bas_ang : list nat) (sl : nat * nat * nat * nat)
  : result (list (nat * list nat)) :=
  let '(b0, b1, _, _) := sl in
  l_max <- np_max (slice bas_ang b0 b1) ;;
  bs <- mapM (fun l => idx <- block_idx ao_loc bas_ang b0 b1 l ;; Ok (l, idx))
             (seq 0 (l_max + 1)) ;;
  Ok (filter (fun b => negb (length (snd b) <? 1)) bs).

(** The blocks of the whole molecule, atom after atom. *)
Definition prenao_blocks (mol : Mole) : result (list (nat * list nat)) :=
  bss <- mapM (atom_blocks (mol_ao_loc mol) (map sh_ang (mol_bas mol)))
              (mol_aoslice mol) ;;
  Ok (concat bss).

(** The blocks hold each index below [n] once, and each block has a whole
    number of radial functions. *)
Definition blocks_partition (cart : bool) (n : nat)
  (bs : list (nat * list nat)) : Prop :=
  Permutation (concat (map snd bs)) (seq 0 n) /\
  Forall (fun b => length (snd b) mod degen_of cart (fst b) = 0) bs.

(** Division by a positive integer undoes the sum of that many equal
    terms, as in a field of characteristic zero. *)
Definition averaging_division (F : Type) {SF : Scalar F} : Prop :=
  forall d, 0 < d ->
    (sum_upto d (fun _ => one) / of_Z (Z.of_nat d))%F = one /\
    (zero / of_Z (Z.of_nat d))%F = zero.
Arguments averaging_division F {SF}.

(** What is used of [scipy.linalg.eigh] with the identity as overlap:
    when it returns, it returns as many eigenvalues as the matrix has rows
    and a square matrix of eigenvectors with orthonormal columns. *)
Definition eigh_orthonormal {F : Type} {SF : Scalar F}
  (eigh : matrix F -> matrix F -> result (vec F * matrix F)) : Prop :=
  forall a nd e v,
    eigh a (eye nd) = Ok (e, v) ->
    length e = nd /\ has_shape nd nd v /\ orthonormal_columns nd nd v.

(** The state of [cao] between blocks: it is [n] by [n], it vanishes off
    the pairs of indices already written ([D]), and its columns at those
    indices are orthonormal. *)
Definition partial_rotation {F : Type} {SF : Scalar F} (n : nat)
  (D : list nat) (cao : matrix F) : Prop :=
  has_shape n n cao /\
  (forall a b, a < n -> b < n -> ~ (In a D /\ In b D) -> entry cao a b = zero) /\
  (forall a b, In a D -> In b D ->
     sum_upto n (fun c => (entry cao c a * entry cao c b)%F) =
     if a =? b then one else zero).

(** The rows of [aoslice_by_atom()] cut the shells [b .. e-1] into
    consecutive ranges, atom after atom. *)
Fixpoint aoslice_tiles (b : nat) (rows : list (nat * nat * nat * nat)) (e : nat)
  : Prop :=
  match rows with
  | [] => b = e
  | (b0, b1, _, _) :: t => b0 = b /\ b0 <= b1 /\ aoslice_tiles b1 t e
  end.

(** What [ao_loc_nr()] and [aoslice_by_atom()] give for the shells of a
    molecule: one offset more than there are shells, starting at zero and
    advancing by the size of each shell, and rows that are consecutive
    ranges of all the shells. *)
Definition mol_consistent (mol : Mole) : Prop :=
  length (mol_ao_loc mol) = S (nbas mol) /\
  nth 0 (mol_ao_loc mol) 0 = 0 /\
  (forall ib, ib < nbas mol ->
     nth (S ib) (mol_ao_loc mol) 0 =
     nth ib (mol_ao_loc mol) 0 +
     shell_size (mol_cart mol) (nth ib (mol_bas mol) (Shell 0 0 0))) /\
  aoslice_tiles 0 (mol_aoslice mol) (nbas mol).

(** Every atom has a shell, and the angular momenta of its shells have no
    gap: with a shell of angular momentum [m] it has one of every
    [l <= m]. *)
Definition atoms_complete (mol : Mole) : Prop :=
  Forall (fun sl : nat * nat * nat * nat =>
            let '(b0, b1, _, _) := sl in
            let ls := slice (map sh_ang (mol_bas mol)) b0 b1 in
            b0 < b1 /\ forall l m, In m ls -> l <= m -> In l ls)
         (mol_aoslice mol).

(** What is used of the shapes [scipy.linalg.eigh] returns: for an [nd] by
    [nd] problem, [nd] eigenvalues and an [nd] by [nd] array. *)
Definition eigh_shapes {F : Type} {SF : Scalar F}
  (eigh : matrix F -> matrix F -> result (vec F * matrix F)) : Prop :=
  forall a b nd e v,
    has_shape nd nd a -> has_shape nd nd b -> eigh a b = Ok (e, v) ->
    length e = nd /\ has_shape nd nd v.

(** Two stores that are the same but for the object at [cn]: in both it is
    a 2-d array with [nbf] columns, of one shape, and the two arrays are
    the same in the columns [W]. *)
Definition stores_agree {F : Type} {SF : Scalar F} (cn nbf : nat) (W : list nat)
  (w1 w2 : world F) : Prop :=
  warnings w1 = warnings w2 /\
  length (heap w1) = length (heap w2) /\
  (forall r, r <> cn -> nth_error (heap w1) r = nth_error (heap w2) r) /\
  exists m A1 A2,
    nth_error (heap w1) cn = Some (Arr2 (Array2 (m, nbf) A1)) /\
    nth_error (heap w2) cn = Some (Arr2 (Array2 (m, nbf) A2)) /\
    has_shape m nbf A1 /\ has_shape m nbf A2 /\
    forall i j, In j W -> entry A1 i j = entry A2 i j.

(** A computation that does not see the columns outside [W] of the array
    at [cn]: started in two stores that agree but for those, when it
    returns in the first it returns the same in the second, its result
    satisfies [Q], and the stores then agree but for the columns outside
    [W']. *)
Definition blind {F : Type} {SF : Scalar F} {A : Type} (cn nbf : nat)
  (W W' : list nat) (m : M F A) (Q : A -> Prop) : Prop :=
  forall w1 w2 a w1',
    stores_agree cn nbf W w1 w2 -> m w1 = (Ok a, w1') ->
    exists w2', m w2 = (Ok a, w2') /\ Q a /\ stores_agree cn nbf W' w1' w2'.

(** * Properties *)

(** ** Lists with Python indexing *)

Lemma getitem_Ok {A : Type} (xs : list A) (i : nat) (x : A) :
  getitem xs i = Ok x <-> nth_error xs i = Some x.
Proof.
  unfold getitem. destruct (nth_error xs i); split; intros H;
    inversion H; reflexivity.
Qed.

Lemma getitem_lt {A : Type} (xs : list A) (i : nat) :
  i < length xs -> exists x, getitem xs i = Ok x.
Proof.
  intros H. unfold getitem.
  destruct (nth_error xs i) eqn:E; [eauto|].
  apply nth_error_None in E. lia.
Qed.

Lemma getitem_nth {A : Type} (xs : list A) (i : nat) (d : A) :
  i < length xs -> getitem xs i = Ok (nth i xs d).
Proof.
  intros H. unfold getitem. rewrite (nth_error_nth' xs d H). reflexivity.
Qed.

Lemma getitem_Ok_lt {A : Type} (xs : list A) (i : nat) (x : A) :
  getitem xs i = Ok x -> i < length xs.
Proof.
  intros H. apply getitem_Ok in H. apply nth_error_Some. congruence.
Qed.

Lemma setitem_replace {A : Type} (xs : list A) (i : nat) (v : A) :
  i < length xs -> setitem xs i v = Ok (replace_nth xs i v).
Proof.
  revert i. induction xs as [|x t IH]; intros [|j] H; simpl in *; try lia.
  - reflexivity.
  - rewrite IH by lia. reflexivity.
Qed.

Lemma setitem_Ok {A : Type} (xs xs' : list A) (i : nat) (v : A) :
  setitem xs i v = Ok xs' -> i < length xs /\ xs' = replace_nth xs i v.
Proof.
  revert i xs'. induction xs as [|x t IH]; intros [|j] xs' H; simpl in *;
    try discriminate.
  - inversion H. split; [lia | reflexivity].
  - destruct (setitem t j v) eqn:E; simpl in H; [|discriminate].
    inversion H. destruct (IH _ _ E) as [Hl ->]. split; [lia | reflexivity].
Qed.

Lemma replace_nth_length {A : Type} (xs : list A) (i : nat) (v : A) :
  length (replace_nth xs i v) = length xs.
Proof.
  revert i. induction xs as [|x t IH]; intros [|j]; simpl; auto.
Qed.

Lemma nth_error_replace_nth {A : Type} (xs : list A) (i j : nat) (v : A) :
  nth_error (replace_nth xs i v) j =
  if (j =? i) && (i <? length xs) then Some v else nth_error xs j.
Proof.
  revert i j. induction xs as [|x t IH]; intros i j.
  - simpl. rewrite andb_false_r. destruct i, j; reflexivity.
  - destruct i as [|i], j as [|j]; simpl; try reflexivity.
    rewrite IH. reflexivity.
Qed.

Lemma nth_replace_nth {A : Type} (xs : list A) (i j : nat) (v d : A) :
  nth j (replace_nth xs i v) d =
  if (j =? i) && (i <? length xs) then v else nth j xs d.
Proof.
  revert i j. induction xs as [|x t IH]; intros i j.
  - simpl. rewrite andb_false_r. destruct i, j; reflexivity.
  - destruct i as [|i], j as [|j]; simpl; try reflexivity.
    rewrite IH. reflexivity.
Qed.

(** ** The configuration table and its override *)

Lemma fmt_d_digit (n : nat) : n < 10 -> PyStr.fmt_d n = String (dchar n) "".
Proof.
  intros H. do 10 (destruct n as [|n]; [reflexivity|]). lia.
Qed.

Lemma fmt_conf_digits (a b c d : nat) :
  a < 10 -> b < 10 -> c < 10 -> d < 10 ->
  fmt_conf [a; b; c; d] = Ok (conf_str a b c d).
Proof.
  intros Ha Hb Hc Hd. unfold fmt_conf, conf_str.
  rewrite !fmt_d_digit by assumption. reflexivity.
Qed.

Lemma int_of_dchar (n : nat) : n < 10 -> PyStr.int_of_char (dchar n) = Ok n.
Proof.
  intros H. do 10 (destruct n as [|n]; [reflexivity|]). lia.
Qed.

Lemma dchar_eqb_zero (n : nat) :
  n < 10 -> Ascii.eqb (dchar n) "0" = (n =? 0).
Proof.
  intros H. do 10 (destruct n as [|n]; [reflexivity|]). lia.
Qed.

Lemma dchar_not_letter (n : nat) (c : ascii) :
  n < 10 -> In c ["s"; "p"; "d"; "f"]%char -> Ascii.eqb (dchar n) c = false.
Proof.
  intros H Hc. simpl in Hc.
  do 10 (destruct n as [|n];
         [decompose [or] Hc; subst; try reflexivity; contradiction|]).
  lia.
Qed.

Lemma shell_counts_conf_str (a b c d : nat) :
  a < 10 -> b < 10 -> c < 10 -> d < 10 ->
  shell_counts (conf_str a b c d) = Ok [a; b; c; d].
Proof.
  intros Ha Hb Hc Hd. unfold shell_counts, conf_str.
  cbn [PyStr.every_other PyStr.chars list_ascii_of_string mapM].
  rewrite !int_of_dchar by assumption. reflexivity.
Qed.

Section ConfProofs.

Variable _charge : element -> result nat.

Lemma find_zero_conf_str (v0 v1 v2 v3 : nat) :
  v0 < 10 -> v1 < 10 -> v2 < 10 -> v3 < 10 ->
  PyStr.find "0" (conf_str v0 v1 v2 v3) =
  match first_zero [v0; v1; v2; v3] with
  | Some i => Z.of_nat (2 * i)
  | None => (-1)%Z
  end.
Proof.
  intros H0 H1 H2 H3. unfold PyStr.find, conf_str.
  cbn [PyStr.find_from].
  rewrite !dchar_eqb_zero by assumption. cbn [first_zero].
  destruct (v0 =? 0); [reflexivity|].
  destruct (v1 =? 0); [reflexivity|].
  destruct (v2 =? 0); [reflexivity|].
  destruct (v3 =? 0); reflexivity.
Qed.

Lemma first_zero_lt (n : list nat) (i : nat) :
  first_zero n = Some i -> i < length n /\ nth i n 1 = 0.
Proof.
  revert i. induction n as [|x t IH]; intros i H; simpl in *; [discriminate|].
  destruct (x =? 0) eqn:E.
  - inversion H. apply Nat.eqb_eq in E. split; [lia | assumption].
  - destruct (first_zero t) as [j|]; [|discriminate]. inversion H.
    destruct (IH j eq_refl). split; [lia | assumption].
Qed.

Lemma first_zero_None (n : list nat) :
  first_zero n = None <-> Forall (fun x => x <> 0) n.
Proof.
  induction n as [|x t IH]; simpl.
  - split; [constructor | reflexivity].
  - destruct (x =? 0) eqn:E.
    + apply Nat.eqb_eq in E. split; [discriminate|].
      intros H. inversion H. contradiction.
    + apply Nat.eqb_neq in E. destruct (first_zero t).
      * split; [discriminate|]. intros H. inversion H as [|? ? ? Ht].
        apply IH in Ht. discriminate.
      * split; [|reflexivity]. intros _. constructor; [assumption|].
        apply IH. reflexivity.
Qed.

Lemma item_last1 (a : ascii) : PyStr.item (String a "") (-1) = Ok a.
Proof. reflexivity. Qed.

Lemma item_last3 (a b c : ascii) :
  PyStr.item (String a (String b (String c ""))) (-1) = Ok c.
Proof. reflexivity. Qed.

Lemma item_last5 (a b c d e : ascii) :
  PyStr.item (String a (String b (String c (String d (String e ""))))) (-1)
  = Ok e.
Proof. reflexivity. Qed.

Lemma item_last7 (a b c d e f g : ascii) :
  PyStr.item (String a (String b (String c (String d (String e (String f
               (String g ""))))))) (-1) = Ok g.
Proof. reflexivity. Qed.

Lemma count_before_conf_str (c0 c1 c2 c3 : nat) :
  c0 < 10 -> c1 < 10 -> c2 < 10 -> c3 < 10 ->
  let c := conf_str c0 c1 c2 c3 in
  (PyStr.has_char "s" c = true /\ count_before "s" c = Ok c0) /\
  (PyStr.has_char "p" c = true /\ count_before "p" c = Ok c1) /\
  (PyStr.has_char "d" c = true /\ count_before "d" c = Ok c2) /\
  (PyStr.has_char "f" c = true /\ count_before "f" c = Ok c3).
Proof.
  intros H0 H1 H2 H3 c. subst c. unfold conf_str, count_before.
  cbn [PyStr.has_char PyStr.split_head].
  rewrite !dchar_not_letter by (assumption || (simpl; tauto)).
  change (Ascii.eqb "s" "s") with true. change (Ascii.eqb "p" "p") with true.
  change (Ascii.eqb "d" "d") with true. change (Ascii.eqb "f" "f") with true.
  change (Ascii.eqb "s" "p") with false. change (Ascii.eqb "s" "d") with false.
  change (Ascii.eqb "s" "f") with false. change (Ascii.eqb "p" "d") with false.
  change (Ascii.eqb "p" "f") with false. change (Ascii.eqb "d" "f") with false.
  cbn [orb].
  rewrite item_last1, item_last3, item_last5, item_last7. cbn [bind].
  rewrite !int_of_dchar by assumption.
  repeat split; reflexivity.
Qed.

Lemma to_conf_polarize (tbl : conf_table) (z : nat) (c : string)
  (v0 v1 v2 v3 : nat) :
  getitem tbl z = Ok (c, conf_str v0 v1 v2 v3) ->
  v0 < 10 -> v1 < 10 -> v2 < 10 -> v3 < 10 ->
  to_conf tbl z "polarize" =
  Ok (String "1" (String
        match first_zero [v0; v1; v2; v3] with
        | Some i => channel_letter i
        | None => dchar v0
        end ""))%string.
Proof.
  intros Hrow H0 H1 H2 H3. unfold to_conf.
  change (PyStr.lower _) with "polarize"%string.
  change (PyStr.contains "doublep" "polarize") with false.
  change (PyStr.contains "doubled" "polarize") with false.
  change (PyStr.contains "doublef" "polarize") with false.
  change (PyStr.contains "polarize" "polarize") with true.
  cbv iota. rewrite Hrow. cbn [bind snd].
  rewrite find_zero_conf_str by assumption.
  pose proof (first_zero_lt [v0; v1; v2; v3]) as Hlt.
  destruct (first_zero [v0; v1; v2; v3]) as [i|].
  - destruct (Hlt i eq_refl) as [Hi _]. simpl in Hi.
    do 4 (destruct i as [|i]; [reflexivity|]). lia.
  - reflexivity.
Qed.

Lemma conf_loop_one_shell (c0 c1 c2 c3 v0 v1 v2 v3 i : nat) :
  c0 < 10 -> c1 < 10 -> c2 < 10 -> c3 < 10 -> i < 4 ->
  conf_loop (conf_str c0 c1 c2 c3) (String "1" (String (channel_letter i) ""))
            ([c0; c1; c2; c3], [v0; v1; v2; v3]) spdf =
  Ok ([c0; c1; c2; c3],
      replace_nth [v0; v1; v2; v3] i (nth i [c0; c1; c2; c3] 0 + 1)).
Proof.
  intros H0 H1 H2 H3 Hi.
  destruct (count_before_conf_str H0 H1 H2 H3)
    as [[Hs Hs'] [[Hp Hp'] [[Hd Hd'] [Hf Hf']]]].
  unfold spdf, conf_loop, conf_step.
  rewrite Hs, Hs'; cbn [bind setitem].
  do 4 (destruct i as [|i]; [
    cbn -[conf_str]; rewrite ?Hp, ?Hp', ?Hd, ?Hd', ?Hf, ?Hf';
    cbn -[conf_str]; rewrite ?Hp, ?Hp', ?Hd, ?Hd', ?Hf, ?Hf';
    cbn -[conf_str]; rewrite ?Hp, ?Hp', ?Hd, ?Hd', ?Hf, ?Hf';
    cbn -[conf_str]; reflexivity |]).
  lia.
Qed.

Lemma conf_loop_no_letter (c0 c1 c2 c3 v0 v1 v2 v3 : nat) :
  c0 < 10 -> c1 < 10 -> c2 < 10 -> c3 < 10 -> v0 < 10 ->
  conf_loop (conf_str c0 c1 c2 c3) (String "1" (String (dchar v0) ""))
            ([c0; c1; c2; c3], [v0; v1; v2; v3]) spdf =
  Ok ([c0; c1; c2; c3], [v0; v1; v2; v3]).
Proof.
  intros H0 H1 H2 H3 Hv.
  destruct (count_before_conf_str H0 H1 H2 H3)
    as [[Hs Hs'] [[Hp Hp'] [[Hd Hd'] [Hf Hf']]]].
  unfold spdf, conf_loop, conf_step.
  assert (Hno : forall c, In c ["s"; "p"; "d"; "f"]%char ->
            PyStr.has_char c (String "1" (String (dchar v0) "")) = false).
  { intros c Hc. cbn [PyStr.has_char]. rewrite (dchar_not_letter Hv Hc).
    simpl in Hc. decompose [or] Hc; subst; try reflexivity; contradiction. }
  rewrite !Hno by (simpl; tauto).
  rewrite Hs, Hs', Hp, Hp', Hd, Hd', Hf, Hf'.
  reflexivity.
Qed.

Lemma has_zero_conf_str (v0 v1 v2 v3 : nat) :
  v0 < 10 -> v1 < 10 -> v2 < 10 -> v3 < 10 ->
  PyStr.has_char "0" (conf_str v0 v1 v2 v3) = false ->
  first_zero [v0; v1; v2; v3] = None.
Proof.
  intros H0 H1 H2 H3. unfold conf_str. cbn [PyStr.has_char first_zero].
  rewrite !dchar_eqb_zero by assumption. cbn.
  destruct (v0 =? 0), (v1 =? 0), (v2 =? 0), (v3 =? 0); cbn;
    intros H; (discriminate || reflexivity).
Qed.

Lemma replace_nth_same {A : Type} (xs : list A) (i : nat) (x : A) :
  nth_error xs i = Some x -> replace_nth xs i x = xs.
Proof.
  revert i. induction xs as [|y t IH]; intros [|i] H; simpl in *;
    try discriminate.
  - inversion H. reflexivity.
  - rewrite IH by assumption. reflexivity.
Qed.

(** The override on a well-formed row, for a valence description that
    [to_conf] turns into [v_desc]. *)
Lemma set_atom_conf_row (tbl : conf_table) (elem : element) (z : nat)
  (c0 c1 c2 c3 v0 v1 v2 v3 : nat) (v_desc : string) (ncv : list nat)
  (cv_conf : string) :
  _charge elem = Ok z ->
  getitem tbl z = Ok (conf_str c0 c1 c2 c3, conf_str v0 v1 v2 v3) ->
  Forall (fun n => n < 10) [c0; c1; c2; c3; v0; v1; v2; v3] ->
  to_conf tbl z "polarize" = Ok v_desc ->
  conf_loop (conf_str c0 c1 c2 c3) v_desc
            ([c0; c1; c2; c3], [v0; v1; v2; v3]) spdf =
    Ok ([c0; c1; c2; c3], ncv) ->
  fmt_conf ncv = Ok cv_conf ->
  exists msg,
    set_atom_conf _charge tbl elem (DStr "polarize") =
    Ok (replace_nth tbl z (conf_str c0 c1 c2 c3, cv_conf), msg).
Proof.
  intros Hz Hrow Hd Hconf Hloop Hfmt.
  apply Forall_cons_iff in Hd; destruct Hd as [Hc0 Hd].
  apply Forall_cons_iff in Hd; destruct Hd as [Hc1 Hd].
  apply Forall_cons_iff in Hd; destruct Hd as [Hc2 Hd].
  apply Forall_cons_iff in Hd; destruct Hd as [Hc3 Hd].
  apply Forall_cons_iff in Hd; destruct Hd as [Hv0 Hd].
  apply Forall_cons_iff in Hd; destruct Hd as [Hv1 Hd].
  apply Forall_cons_iff in Hd; destruct Hd as [Hv2 Hd].
  apply Forall_cons_iff in Hd; destruct Hd as [Hv3 _].
  unfold set_atom_conf. rewrite Hz. cbn [bind].
  rewrite Hrow. cbn [bind fst snd]. rewrite Hconf. cbn [bind].
  rewrite !shell_counts_conf_str by assumption. cbn [bind].
  rewrite Hloop. cbn [bind].
  rewrite fmt_conf_digits by assumption. cbn [bind].
  rewrite Hfmt. cbn [bind].
  rewrite setitem_replace by (eapply getitem_Ok_lt; eassumption).
  cbn [bind]. eexists. reflexivity.
Qed.

End ConfProofs.

(** C7, as amended.  From the default table, [set_atom_conf('Fe',
    'double d')] rewrites the row of Fe (charge 26) to core [3s2p0d0f] and
    core+valence [4s2p2d0f] and leaves every other row alone: the core is
    unchanged, and of the valence counts only d changes, from its default
    1 to 2. *)
Theorem set_atom_conf_Fe_double_d (_charge : element -> result nat) :
  _charge (Symbol "Fe") = Ok 26 ->
  exists tbl' msg,
    set_atom_conf _charge AOSHELL (Symbol "Fe") (DStr "double d") = Ok (tbl', msg) /\
    getitem AOSHELL 26 = Ok ("3s2p0d0f", "4s2p1d0f")%string /\
    getitem tbl' 26 = Ok ("3s2p0d0f", "4s2p2d0f")%string /\
    (forall z, z <> 26 -> nth_error tbl' z = nth_error AOSHELL z) /\
    valence_counts AOSHELL 26 = Ok [1; 0; 1; 0] /\
    valence_counts tbl' 26 = Ok [1; 0; 2; 0].
Proof.
  intros Hz.
  exists (replace_nth AOSHELL 26 ("3s2p0d0f", "4s2p2d0f")%string).
  eexists. split.
  - unfold set_atom_conf. rewrite Hz. vm_compute. reflexivity.
  - repeat split; try (vm_compute; reflexivity).
    intros z Hne. rewrite nth_error_replace_nth.
    destruct (z =? 26) eqn:E; [apply Nat.eqb_eq in E; contradiction|].
    reflexivity.
Qed.

Lemma set_atom_conf_Fe_double_d_witness :
  charge_of (Symbol "Fe") = Ok 26 /\
  exists tbl' msg,
    set_atom_conf charge_of AOSHELL (Symbol "Fe") (DStr "double d") = Ok (tbl', msg) /\
    getitem AOSHELL 26 = Ok ("3s2p0d0f", "4s2p1d0f")%string /\
    getitem tbl' 26 = Ok ("3s2p0d0f", "4s2p2d0f")%string /\
    (forall z, z <> 26 -> nth_error tbl' z = nth_error AOSHELL z) /\
    valence_counts AOSHELL 26 = Ok [1; 0; 1; 0] /\
    valence_counts tbl' 26 = Ok [1; 0; 2; 0].
Proof.
  split; [reflexivity|].
  apply (set_atom_conf_Fe_double_d charge_of). reflexivity.
Defined.

(** C7 as the specification words it fails: the d count of Fe is not 0 in
    the default table, neither as the valence count (core+valence minus
    core) nor as the stored core+valence count; it is 1. *)
Lemma set_atom_conf_Fe_double_d_default_is_not_zero :
  ~ (exists tbl' msg row v cv v',
       set_atom_conf charge_of AOSHELL (Symbol "Fe") (DStr "double d") = Ok (tbl', msg) /\
       getitem AOSHELL 26 = Ok row /\
       valence_counts AOSHELL 26 = Ok v /\
       shell_counts (snd row) = Ok cv /\
       valence_counts tbl' 26 = Ok v' /\
       (nth 2 v 1 = 0 \/ nth 2 cv 1 = 0) /\
       nth 2 v' 0 = 2).
Proof.
  intros (tbl' & msg & row & v & cv & v' & _ & Hrow & Hv & Hcv & _ & H0 & _).
  vm_compute in Hrow. inversion Hrow; subst row. clear Hrow.
  vm_compute in Hv. inversion Hv; subst v. clear Hv.
  vm_compute in Hcv. inversion Hcv; subst cv. clear Hcv.
  simpl in H0. destruct H0; discriminate.
Qed.

(** C8, as amended.  On a row of single-digit counts, [set_atom_conf(element,
    'polarize')] looks for the first channel (in the order s, p, d, f) whose
    stored core+valence count is 0 and sets that count to the core count of
    the channel plus one; the core string and the other three core+valence
    counts are written back unchanged, and so is every other row. *)
Theorem set_atom_conf_polarize_first_zero (_charge : element -> result nat)
  (tbl : conf_table) (elem : element) (z c0 c1 c2 c3 v0 v1 v2 v3 i : nat) :
  _charge elem = Ok z ->
  getitem tbl z = Ok (conf_str c0 c1 c2 c3, conf_str v0 v1 v2 v3) ->
  Forall (fun n => n < 10) [c0; c1; c2; c3; v0; v1; v2; v3] ->
  first_zero [v0; v1; v2; v3] = Some i ->
  exists cv_conf msg,
    fmt_conf (replace_nth [v0; v1; v2; v3] i (nth i [c0; c1; c2; c3] 0 + 1))
      = Ok cv_conf /\
    set_atom_conf _charge tbl elem (DStr "polarize") =
      Ok (replace_nth tbl z (conf_str c0 c1 c2 c3, cv_conf), msg).
Proof.
  intros Hz Hrow Hd Hfz.
  assert (Hd' := Hd).
  apply Forall_cons_iff in Hd; destruct Hd as [H1 Hd].
  apply Forall_cons_iff in Hd; destruct Hd as [H2 Hd].
  apply Forall_cons_iff in Hd; destruct Hd as [H3 Hd].
  apply Forall_cons_iff in Hd; destruct Hd as [H4 Hd].
  apply Forall_cons_iff in Hd; destruct Hd as [H5 Hd].
  apply Forall_cons_iff in Hd; destruct Hd as [H6 Hd].
  apply Forall_cons_iff in Hd; destruct Hd as [H7 Hd].
  apply Forall_cons_iff in Hd; destruct Hd as [H8 _].
  destruct (first_zero_lt _ Hfz) as [Hi _]. simpl in Hi.
  assert (Hconf := @to_conf_polarize tbl z (conf_str c0 c1 c2 c3) v0 v1 v2 v3
                     Hrow H5 H6 H7 H8).
  rewrite Hfz in Hconf.
  assert (Hloop := @conf_loop_one_shell c0 c1 c2 c3 v0 v1 v2 v3 i
                     H1 H2 H3 H4 Hi).
  destruct (fmt_conf (replace_nth [v0; v1; v2; v3] i
                        (nth i [c0; c1; c2; c3] 0 + 1))) as [cv_conf|e] eqn:Hfmt.
  - exists cv_conf.
    destruct (@set_atom_conf_row _charge tbl elem z c0 c1 c2 c3 v0 v1 v2 v3
                _ _ cv_conf Hz Hrow Hd' Hconf Hloop Hfmt) as [msg Hmsg].
    exists msg. split; [reflexivity | exact Hmsg].
  - exfalso. do 4 (destruct i as [|i]; [discriminate Hfmt|]). lia.
Qed.

Lemma set_atom_conf_polarize_first_zero_witness :
  exists cv_conf msg,
    fmt_conf (replace_nth [4; 2; 1; 0] 3 (nth 3 [3; 2; 0; 0] 0 + 1)) = Ok cv_conf /\
    set_atom_conf charge_of AOSHELL (Symbol "Fe") (DStr "polarize") =
      Ok (replace_nth AOSHELL 26 (conf_str 3 2 0 0, cv_conf), msg).
Proof.
  apply (set_atom_conf_polarize_first_zero charge_of AOSHELL (Symbol "Fe")
           (z := 26) (c0 := 3) (c1 := 2) (c2 := 0) (c3 := 0)
           (v0 := 4) (v1 := 2) (v2 := 1) (v3 := 0) (i := 3)).
  - reflexivity.
  - reflexivity.
  - repeat constructor; lia.
  - reflexivity.
Defined.

(** C8 as the specification words it fails for Fe in the default table:
    the first channel with no valence shell (core+valence minus core) is
    p, and the override does not add a shell there; it adds the f shell. *)
Lemma set_atom_conf_polarize_Fe_not_first_valence_zero :
  ~ (exists tbl' msg v v',
       set_atom_conf charge_of AOSHELL (Symbol "Fe") (DStr "polarize") = Ok (tbl', msg) /\
       valence_counts AOSHELL 26 = Ok v /\
       valence_counts tbl' 26 = Ok v' /\
       forall i, first_zero v = Some i -> nth i v' 0 = nth i v 0 + 1).
Proof.
  intros (tbl' & msg & v & v' & Hrun & Hv & Hv' & H).
  vm_compute in Hrun. inversion Hrun; subst tbl' msg. clear Hrun.
  vm_compute in Hv. inversion Hv; subst v. clear Hv.
  vm_compute in Hv'. inversion Hv'; subst v'. clear Hv'.
  specialize (H 1 eq_refl). discriminate H.
Qed.

(** C9, as amended.  On a row of single-digit counts whose core+valence
    string has no '0', [set_atom_conf(element, 'polarize')] writes the row
    back with the same four core counts and the same four core+valence
    counts: the table is unchanged. *)
Theorem set_atom_conf_polarize_no_zero (_charge : element -> result nat)
  (tbl : conf_table) (elem : element) (z c0 c1 c2 c3 v0 v1 v2 v3 : nat) :
  _charge elem = Ok z ->
  getitem tbl z = Ok (conf_str c0 c1 c2 c3, conf_str v0 v1 v2 v3) ->
  Forall (fun n => n < 10) [c0; c1; c2; c3; v0; v1; v2; v3] ->
  PyStr.has_char "0" (conf_str v0 v1 v2 v3) = false ->
  exists tbl' msg row',
    set_atom_conf _charge tbl elem (DStr "polarize") = Ok (tbl', msg) /\
    getitem tbl' z = Ok row' /\
    shell_counts (fst row') = Ok [c0; c1; c2; c3] /\
    shell_counts (snd row') = Ok [v0; v1; v2; v3] /\
    tbl' = tbl.
Proof.
  intros Hz Hrow Hd Hno.
  assert (Hd' := Hd).
  apply Forall_cons_iff in Hd; destruct Hd as [H1 Hd].
  apply Forall_cons_iff in Hd; destruct Hd as [H2 Hd].
  apply Forall_cons_iff in Hd; destruct Hd as [H3 Hd].
  apply Forall_cons_iff in Hd; destruct Hd as [H4 Hd].
  apply Forall_cons_iff in Hd; destruct Hd as [H5 Hd].
  apply Forall_cons_iff in Hd; destruct Hd as [H6 Hd].
  apply Forall_cons_iff in Hd; destruct Hd as [H7 Hd].
  apply Forall_cons_iff in Hd; destruct Hd as [H8 _].
  assert (Hfz : first_zero [v0; v1; v2; v3] = None)
    by (apply has_zero_conf_str; assumption).
  assert (Hconf := @to_conf_polarize tbl z (conf_str c0 c1 c2 c3) v0 v1 v2 v3
                     Hrow H5 H6 H7 H8).
  rewrite Hfz in Hconf.
  destruct (@set_atom_conf_row _charge tbl elem z c0 c1 c2 c3 v0 v1 v2 v3
              _ _ (conf_str v0 v1 v2 v3) Hz Hrow Hd' Hconf
              (@conf_loop_no_letter c0 c1 c2 c3 v0 v1 v2 v3 H1 H2 H3 H4 H5)
              (fmt_conf_digits H5 H6 H7 H8)) as [msg Hmsg].
  rewrite replace_nth_same in Hmsg by (apply getitem_Ok; exact Hrow).
  exists tbl, msg, (conf_str c0 c1 c2 c3, conf_str v0 v1 v2 v3).
  repeat split; try assumption.
  - apply shell_counts_conf_str; assumption.
  - apply shell_counts_conf_str; assumption.
Qed.

Lemma set_atom_conf_polarize_no_zero_witness :
  exists tbl' msg row',
    set_atom_conf charge_of AOSHELL (Symbol "Ce") (DStr "polarize") = Ok (tbl', msg) /\
    getitem tbl' 58 = Ok row' /\
    shell_counts (fst row') = Ok [5; 4; 2; 0] /\
    shell_counts (snd row') = Ok [6; 4; 3; 1] /\
    tbl' = AOSHELL.
Proof.
  apply (set_atom_conf_polarize_no_zero charge_of AOSHELL (Symbol "Ce")
           (z := 58) (c0 := 5) (c1 := 4) (c2 := 2) (c3 := 0)
           (v0 := 6) (v1 := 4) (v2 := 3) (v3 := 1)).
  - reflexivity.
  - reflexivity.
  - repeat constructor; lia.
  - reflexivity.
Defined.

(** C9 as the specification words it fails on a row the module itself
    writes: after [set_atom_conf(87, '5s')] the core+valence string of Fr
    is [11s5p3d1f], which has no '0', and [set_atom_conf(87, 'polarize')]
    does not rewrite the row; it raises [ValueError]. *)
Lemma set_atom_conf_polarize_no_zero_two_digit_row_raises :
  exists tbl msg,
    set_atom_conf charge_of AOSHELL (Nuc 87) (DStr "5s") = Ok (tbl, msg) /\
    getitem tbl 87 = Ok ("6s5p3d1f", "11s5p3d1f")%string /\
    PyStr.has_char "0" "11s5p3d1f" = false /\
    set_atom_conf charge_of tbl (Nuc 87) (DStr "polarize") = Raise ValueError.
Proof.
  eexists. eexists. split; [vm_compute; reflexivity|].
  split; [vm_compute; reflexivity|]. split; vm_compute; reflexivity.
Qed.

(** ** The error monad and its loops *)

Lemma bind_Ok {A B : Type} (m : result A) (k : A -> result B) (b : B) :
  bind m k = Ok b -> exists a, m = Ok a /\ k a = Ok b.
Proof.
  destruct m as [a|e]; simpl; intros H; [eauto | discriminate].
Qed.

Ltac bind_inv H :=
  let a := fresh "a" in
  let Ha := fresh "Ha" in
  apply bind_Ok in H; destruct H as [a [Ha H]].

Tactic Notation "bind_ok" hyp(H) "as" ident(a) ident(Ha) :=
  apply bind_Ok in H; destruct H as [a [Ha H]].

(** An invariant indexed by the position in [range(a, a + n)]. *)
Lemma foldM_seq_inv {St : Type} (P : nat -> St -> Prop)
  (body : St -> nat -> result St) (n a : nat) (st0 st : St) :
  P a st0 ->
  (forall i s s', a <= i < a + n -> P i s -> body s i = Ok s' -> P (i + 1) s') ->
  foldM body (seq a n) st0 = Ok st ->
  P (a + n) st.
Proof.
  revert a st0. induction n as [|n IH]; intros a st0 H0 Hstep Hrun; simpl in Hrun.
  - inversion Hrun. subst. rewrite Nat.add_0_r. assumption.
  - bind_inv Hrun. replace (a + S n) with (S a + n) by lia.
    apply (IH (S a) a0); [| |assumption].
    + replace (S a) with (a + 1) by lia. apply (Hstep a st0); [lia | assumption..].
    + intros i s s' Hi. apply Hstep. lia.
Qed.

(** A loop whose every turn succeeds under the invariant succeeds. *)
Lemma foldM_seq_total {St : Type} (P : nat -> St -> Prop)
  (body : St -> nat -> result St) (n a : nat) (st0 : St) :
  P a st0 ->
  (forall i s, a <= i < a + n -> P i s ->
     exists s', body s i = Ok s' /\ P (i + 1) s') ->
  exists st, foldM body (seq a n) st0 = Ok st /\ P (a + n) st.
Proof.
  revert a st0. induction n as [|n IH]; intros a st0 H0 Hstep; simpl.
  - exists st0. rewrite Nat.add_0_r. auto.
  - destruct (Hstep a st0 ltac:(lia) H0) as [s' [Hs' HP]].
    rewrite Hs'. simpl. replace (a + S n) with (S a + n) by lia.
    apply IH.
    + replace (S a) with (a + 1) by lia. assumption.
    + intros i s Hi. apply Hstep. lia.
Qed.

(** ** The shell classifier *)

Lemma StronglySorted_seq (a n : nat) : StronglySorted lt (seq a n).
Proof.
  revert a. induction n as [|n IH]; intros a; simpl; constructor.
  - apply IH.
  - apply Forall_forall. intros x Hx. apply in_seq in Hx. lia.
Qed.

Lemma StronglySorted_app_lt (l1 l2 : list nat) :
  StronglySorted lt l1 -> StronglySorted lt l2 ->
  (forall x y, In x l1 -> In y l2 -> x < y) ->
  StronglySorted lt (l1 ++ l2).
Proof.
  induction l1 as [|a t IH]; intros H1 H2 Hlt; simpl; [assumption|].
  inversion H1 as [|? ? Ht Ha]; subst. constructor.
  - apply IH; [assumption..|]. intros x y Hx Hy. apply Hlt; simpl; auto.
  - apply Forall_app. split; [assumption|].
    apply Forall_forall. intros y Hy. apply Hlt; simpl; auto.
Qed.

Lemma increasing_below_app (k d : nat) (l : list nat) :
  increasing_below k l -> increasing_below (k + d) (l ++ seq k d).
Proof.
  intros [Hs Hb]. rewrite Forall_forall in Hb. split.
  - apply StronglySorted_app_lt; [assumption | apply StronglySorted_seq |].
    intros x y Hx Hy. apply Hb in Hx. apply in_seq in Hy. lia.
  - apply Forall_app. split; apply Forall_forall; intros x Hx.
    + apply Hb in Hx. lia.
    + apply in_seq in Hx. lia.
Qed.

Lemma increasing_below_mono (k d : nat) (l : list nat) :
  increasing_below k l -> increasing_below (k + d) l.
Proof.
  intros [Hs Hb]. split; [assumption|].
  eapply Forall_impl; [|exact Hb]. simpl. intros. lia.
Qed.

Lemma cls_inv_init (count : list (list nat)) :
  cls_inv (ClsState count [] [] [] 0).
Proof.
  unfold cls_inv, increasing_below. simpl.
  repeat split; constructor.
Qed.

Lemma perm_insert_first {A : Type} (a b c n s : list A) :
  Permutation (a ++ b ++ c) s -> Permutation ((a ++ n) ++ b ++ c) (s ++ n).
Proof.
  intros H. rewrite <- app_assoc.
  apply Permutation_trans with (a ++ (b ++ c) ++ n).
  - apply Permutation_app_head, Permutation_app_comm.
  - rewrite app_assoc. apply Permutation_app_tail. exact H.
Qed.

Lemma perm_insert_second {A : Type} (a b c n s : list A) :
  Permutation (a ++ b ++ c) s -> Permutation (a ++ (b ++ n) ++ c) (s ++ n).
Proof.
  intros H. rewrite <- app_assoc.
  apply Permutation_trans with (a ++ b ++ c ++ n).
  - do 2 apply Permutation_app_head. apply Permutation_app_comm.
  - rewrite !app_assoc. apply Permutation_app_tail.
    rewrite <- app_assoc. exact H.
Qed.

Lemma perm_insert_third {A : Type} (a b c n s : list A) :
  Permutation (a ++ b ++ c) s -> Permutation (a ++ b ++ c ++ n) (s ++ n).
Proof.
  intros H. rewrite !app_assoc. apply Permutation_app_tail.
  rewrite <- app_assoc. exact H.
Qed.

Lemma cls_inv_placed (deg : nat) (st st' : cls_state) :
  cls_inv st -> placed deg st st' -> cls_inv st'.
Proof.
  intros (Hc & Hv & Hr & Hp) (_ & Hk & Hcase). unfold cls_inv.
  rewrite Hk, seq_app. cbn [Nat.add].
  destruct Hcase as [(-> & -> & ->) | [(-> & -> & ->) | (-> & -> & ->)]].
  - split; [|split; [|split]];
      auto using increasing_below_app, increasing_below_mono.
    apply perm_insert_first, Hp.
  - split; [|split; [|split]];
      auto using increasing_below_app, increasing_below_mono.
    apply perm_insert_second, Hp.
  - split; [|split; [|split]];
      auto using increasing_below_app, increasing_below_mono.
    apply perm_insert_third, Hp.
Qed.

Lemma classify_ctr_placed (ecpcore coreshell cvshell : list nat)
  (ia l deg n : nat) (st st' : cls_state) :
  classify_ctr ecpcore coreshell cvshell ia l deg st n = Ok st' ->
  placed deg st st'.
Proof.
  unfold classify_ctr, placed. intros H.
  destruct (3 <? l).
  - inversion H. simpl. auto 10.
  - do 3 bind_inv H. destruct (_ <? _).
    + inversion H. simpl. auto 10.
    + do 3 bind_inv H. destruct (_ <? _); inversion H; simpl; auto 10.
Qed.

Lemma count_get_shape (n ia l : nat) (count : list (list nat)) :
  count_shape n count -> ia < n -> l < 9 ->
  exists c, count_get count ia l = Ok c.
Proof.
  intros [Hlen Hrows] Hia Hl. unfold count_get.
  destruct (@getitem_lt _ count ia) as [row Hrow]; [lia|].
  rewrite Hrow. simpl. apply getitem_lt.
  apply getitem_Ok, nth_error_In in Hrow.
  rewrite Forall_forall in Hrows. rewrite (Hrows _ Hrow). assumption.
Qed.

Lemma classify_ctr_total (ecpcore coreshell cvshell : list nat)
  (natm ia l deg n : nat) (st : cls_state) :
  count_shape natm (cls_count st) -> ia < natm -> l < 9 ->
  4 <= length ecpcore -> 4 <= length coreshell -> 4 <= length cvshell ->
  exists st', classify_ctr ecpcore coreshell cvshell ia l deg st n = Ok st'.
Proof.
  intros Hshape Hia Hl He Hc Hv. unfold classify_ctr.
  destruct (3 <? l) eqn:E; [eauto|].
  apply Nat.ltb_ge in E.
  destruct (@getitem_lt _ ecpcore l) as [e ->]; [lia|].
  destruct (@count_get_shape natm ia l _ Hshape Hia Hl) as [c ->].
  destruct (@getitem_lt _ coreshell l) as [ncs ->]; [lia|].
  destruct (@getitem_lt _ cvshell l) as [ncv ->]; [lia|].
  simpl. destruct (_ <? ncs); [eauto|]. destruct (_ <? ncv); eauto.
Qed.

Lemma classify_shell_ctrs (ecpcore coreshell cvshell : list nat)
  (natm ia l deg nc : nat) (st : cls_state) :
  cls_inv st -> count_shape natm (cls_count st) -> ia < natm -> l < 9 ->
  4 <= length ecpcore -> 4 <= length coreshell -> 4 <= length cvshell ->
  exists st',
    foldM (classify_ctr ecpcore coreshell cvshell ia l deg) (seq 0 nc) st = Ok st' /\
    cls_inv st' /\ cls_count st' = cls_count st /\
    cls_k st' = cls_k st + nc * deg.
Proof.
  intros Hinv Hshape Hia Hl He Hc Hv.
  destruct (@foldM_seq_total _
              (fun n s => cls_inv s /\ cls_count s = cls_count st /\
                          cls_k s = cls_k st + n * deg)
              (classify_ctr ecpcore coreshell cvshell ia l deg)
              nc 0 st) as [st' [Hrun HP]].
  - cbn [Nat.mul]. rewrite Nat.add_0_r. auto.
  - intros n s _ (Hs & Hcnt & Hk).
    assert (Hshape' : count_shape natm (cls_count s))
      by (rewrite Hcnt; exact Hshape).
    destruct (@classify_ctr_total ecpcore coreshell cvshell natm ia l deg n s
                Hshape' Hia Hl He Hc Hv) as [s' Hs'].
    exists s'. split; [assumption|].
    pose proof (classify_ctr_placed _ _ _ _ _ _ _ _ Hs') as Hpl.
    split; [eapply cls_inv_placed; eassumption|].
    destruct Hpl as (Hcnt' & Hk' & _). split; [congruence|]. rewrite Hk', Hk. lia.
  - exists st'. simpl in HP. tauto.
Qed.

Lemma count_add_shape (n ia l nc : nat) (count : list (list nat)) :
  count_shape n count -> ia < n -> l < 9 ->
  exists count', count_add count ia l nc = Ok count' /\ count_shape n count'.
Proof.
  intros [Hlen Hrows] Hia Hl. unfold count_add.
  destruct (@getitem_lt _ count ia) as [row Hrow]; [lia|].
  rewrite Hrow. simpl.
  assert (Hr : length row = 9).
  { apply getitem_Ok, nth_error_In in Hrow.
    rewrite Forall_forall in Hrows. auto. }
  destruct (@getitem_lt _ row l) as [c ->]; [lia|]. cbn [bind].
  rewrite setitem_replace by lia. simpl.
  rewrite setitem_replace by lia.
  eexists. split; [reflexivity|]. split.
  - rewrite replace_nth_length. assumption.
  - apply Forall_forall. intros r Hin.
    apply In_nth_error in Hin. destruct Hin as [j Hj].
    rewrite nth_error_replace_nth in Hj.
    destruct ((j =? ia) && (ia <? length count)).
    + inversion Hj. rewrite replace_nth_length. assumption.
    + apply nth_error_In in Hj. rewrite Forall_forall in Hrows. auto.
Qed.

Lemma list_sum_firstn_succ (f : shell -> nat) (bas : list shell) (ib : nat)
  (sh : shell) :
  nth_error bas ib = Some sh ->
  list_sum (map f (firstn (ib + 1) bas)) =
  list_sum (map f (firstn ib bas)) + f sh.
Proof.
  revert ib. induction bas as [|x t IH]; intros [|ib] H; simpl in *;
    try discriminate.
  - inversion H. subst. destruct t; simpl; lia.
  - rewrite (IH _ H). lia.
Qed.

Section ClassifierProofs.

Variable _charge : element -> result nat.
Variable core_configuration : nat -> result (list nat).
Variable AOSHELL : conf_table.

Lemma classify_shell_total (mol : Mole) (st : cls_state) (ib : nat) :
  classifiable _charge core_configuration AOSHELL mol ->
  ib < nbas mol ->
  cls_inv st -> count_shape (natm mol) (cls_count st) ->
  cls_k st = list_sum (map (shell_size (mol_cart mol)) (firstn ib (mol_bas mol))) ->
  exists st',
    classify_shell _charge core_configuration AOSHELL mol st ib = Ok st' /\
    cls_inv st' /\ count_shape (natm mol) (cls_count st') /\
    cls_k st' = list_sum (map (shell_size (mol_cart mol))
                              (firstn (ib + 1) (mol_bas mol))).
Proof.
  intros Hmol Hib Hinv Hshape Hk. unfold classifiable in Hmol.
  destruct (@getitem_lt _ (mol_bas mol) ib Hib) as [sh Hsh].
  assert (Hok : shell_ok _charge core_configuration AOSHELL mol sh).
  { rewrite Forall_forall in Hmol. apply Hmol.
    apply getitem_Ok in Hsh. eapply nth_error_In; eassumption. }
  destruct Hok as (Hl & a & nuc & ecpcore & row & cs & cv &
                   Ha & Hnuc & Hecp & Hrow & Hcs & Hcv & He & Hc & Hv).
  assert (Hia : sh_atom sh < natm mol) by (eapply getitem_Ok_lt; eassumption).
  unfold classify_shell, bas_atom, bas_angular, bas_nctr, atom_symbol,
    atom_nelec_core.
  rewrite Hsh. cbn [bind]. rewrite Ha. cbn [bind]. rewrite Hnuc. cbn [bind].
  rewrite Hecp. cbn [bind]. rewrite Hrow. cbn [bind].
  rewrite Hcs, Hcv. cbn [bind].
  destruct (@classify_shell_ctrs ecpcore cs cv (natm mol) (sh_atom sh)
              (sh_ang sh) (degen_of (mol_cart mol) (sh_ang sh)) (sh_nctr sh) st
              Hinv Hshape Hia Hl He Hc Hv)
    as (st1 & -> & Hinv1 & Hcnt1 & Hk1).
  cbn [bind].
  assert (Hshape1 : count_shape (natm mol) (cls_count st1))
    by (rewrite Hcnt1; exact Hshape).
  destruct (@count_add_shape (natm mol) (sh_atom sh) (sh_ang sh) (sh_nctr sh)
              (cls_count st1) Hshape1 Hia Hl) as (count' & -> & Hshape').
  cbn [bind]. eexists. split; [reflexivity|].
  cbn [cls_count cls_k]. split; [exact Hinv1|]. split; [assumption|].
  rewrite Hk1, Hk.
  apply getitem_Ok in Hsh.
  rewrite (@list_sum_firstn_succ _ _ _ _ Hsh).
  reflexivity.
Qed.

End ClassifierProofs.

Lemma disjoint_of_NoDup_app (l1 l2 : list nat) :
  NoDup (l1 ++ l2) -> disjoint l1 l2.
Proof.
  induction l1 as [|a t IH]; simpl; intros H x Hx; [contradiction|].
  inversion H as [|? ? Hna Hnd]; subst. destruct Hx as [-> | Hx].
  - intros Hx2. apply Hna. apply in_or_app. auto.
  - apply IH; assumption.
Qed.

Lemma count_shape_zeros (n : nat) : count_shape n (repeat (repeat 0 9) n).
Proof.
  split; [apply repeat_length|].
  apply Forall_forall. intros row Hrow.
  apply repeat_spec in Hrow. subst. reflexivity.
Qed.

(** X1.  The three lists of the shell classifier partition the basis
    functions.  For a molecule whose shells the classifier can look up
    (angular momentum below nine, owning atom present, charge, ECP core
    and table row available), [_core_val_ryd_list] returns; each of the
    lists it returns is strictly increasing, no index is in two of them,
    and together they hold each of [0 .. nao_nr - 1] exactly once. *)
Theorem core_val_ryd_list_partition (_charge : element -> result nat)
  (core_configuration : nat -> result (list nat)) (AOSHELL : conf_table)
  (mol : Mole) :
  classifiable _charge core_configuration AOSHELL mol ->
  exists core_lst val_lst rydbg_lst,
    _core_val_ryd_list _charge core_configuration AOSHELL mol
      = Ok (core_lst, val_lst, rydbg_lst) /\
    StronglySorted lt core_lst /\
    StronglySorted lt val_lst /\
    StronglySorted lt rydbg_lst /\
    disjoint core_lst val_lst /\
    disjoint core_lst rydbg_lst /\
    disjoint val_lst rydbg_lst /\
    Permutation (core_lst ++ val_lst ++ rydbg_lst) (seq 0 (nao_nr mol)).
Proof.
  intros Hmol. unfold _core_val_ryd_list.
  destruct (@foldM_seq_total _
              (fun ib st =>
                 cls_inv st /\ count_shape (natm mol) (cls_count st) /\
                 cls_k st = list_sum (map (shell_size (mol_cart mol))
                                          (firstn ib (mol_bas mol))))
              (classify_shell _charge core_configuration AOSHELL mol)
              (nbas mol) 0
              (ClsState (repeat (repeat 0 9) (natm mol)) [] [] [] 0))
    as [st [Hrun (Hinv & _ & Hk)]].
  - split; [apply cls_inv_init|]. split; [apply count_shape_zeros|]. reflexivity.
  - intros ib st [_ Hib] (Hinv & Hshape & Hk).
    destruct (@classify_shell_total _charge core_configuration AOSHELL mol st ib
                Hmol Hib Hinv Hshape Hk) as (st' & Hst' & H1 & H2 & H3).
    exists st'. auto.
  - rewrite Hrun. cbn [bind].
    exists (cls_core st), (cls_val st), (cls_rydbg st).
    cbn [Nat.add] in Hk. unfold nbas in Hk. rewrite firstn_all in Hk.
    fold (nao_nr mol) in Hk.
    destruct Hinv as ([Hc _] & [Hv _] & [Hr _] & Hp). rewrite Hk in Hp.
    assert (Hnd : NoDup (cls_core st ++ cls_val st ++ cls_rydbg st)).
    { apply Permutation_NoDup with (seq 0 (nao_nr mol));
        [apply Permutation_sym; exact Hp | apply seq_NoDup]. }
    split; [reflexivity|]. repeat (split; [assumption|]).
    split; [|split; [|split]].
    + intros x H1 H2. apply (disjoint_of_NoDup_app _ _ Hnd x H1).
      apply in_or_app. auto.
    + intros x H1 H2. apply (disjoint_of_NoDup_app _ _ Hnd x H1).
      apply in_or_app. auto.
    + apply NoDup_app_remove_l in Hnd. apply disjoint_of_NoDup_app. exact Hnd.
    + exact Hp.
Qed.

Lemma core_val_ryd_list_partition_witness :
  exists core_lst val_lst rydbg_lst,
    _core_val_ryd_list charge_of small_core_configuration AOSHELL water_631g
      = Ok (core_lst, val_lst, rydbg_lst) /\
    StronglySorted lt core_lst /\
    StronglySorted lt val_lst /\
    StronglySorted lt rydbg_lst /\
    disjoint core_lst val_lst /\
    disjoint core_lst rydbg_lst /\
    disjoint val_lst rydbg_lst /\
    Permutation (core_lst ++ val_lst ++ rydbg_lst) (seq 0 (nao_nr water_631g)).
Proof.
  apply (@core_val_ryd_list_partition charge_of small_core_configuration
           AOSHELL water_631g).
  unfold classifiable, water_631g. cbn [mol_bas].
  repeat (apply Forall_cons || apply Forall_nil);
    (split; [cbn; lia|]);
    cbn [sh_atom mol_atoms];
    match goal with
    | |- context [getitem _ 0] =>
        exists (Atom "O" 0), 8, [0; 0; 0; 0], ("1s0p0d0f", "2s1p0d0f")%string,
               [1; 0; 0; 0], [2; 1; 0; 0]
    | |- _ =>
        exists (Atom "H" 0), 1, [0; 0; 0; 0], ("0s0p0d0f", "1s0p0d0f")%string,
               [0; 0; 0; 0], [1; 0; 0; 0]
    end;
    repeat split; cbn; lia.
Defined.

Lemma count_add_Ok (n ia l nc : nat) (count count' : list (list nat)) :
  count_shape n count ->
  count_add count ia l nc = Ok count' ->
  ia < n /\ l < 9 /\ count_shape n count'.
Proof.
  intros Hshape H. assert (Hrun := H). unfold count_add in H.
  bind_ok H as row Hrow. bind_ok H as c Hc.
  assert (Hia : ia < n).
  { destruct Hshape as [<- _]. eapply getitem_Ok_lt; eassumption. }
  assert (Hl : l < 9).
  { destruct Hshape as [_ Hrows]. rewrite Forall_forall in Hrows.
    rewrite <- (Hrows row).
    - eapply getitem_Ok_lt; eassumption.
    - apply getitem_Ok in Hrow. eapply nth_error_In; eassumption. }
  split; [assumption|]. split; [assumption|].
  destruct (@count_add_shape n ia l nc count Hshape Hia Hl) as (c2 & Hc2 & Hs2).
  congruence.
Qed.

Section ClassifierReturns.

Variable _charge : element -> result nat.
Variable core_configuration : nat -> result (list nat).
Variable AOSHELL : conf_table.

Lemma classify_shell_Ok (mol : Mole) (st st' : cls_state) (ib : nat) :
  count_shape (natm mol) (cls_count st) ->
  classify_shell _charge core_configuration AOSHELL mol st ib = Ok st' ->
  count_shape (natm mol) (cls_count st') /\
  exists sh, nth_error (mol_bas mol) ib = Some sh /\
             sh_ang sh < 9 /\ sh_atom sh < natm mol.
Proof.
  intros Hshape H. unfold classify_shell in H.
  unfold bas_atom, bas_angular, bas_nctr in H.
  bind_ok H as ia Hia0. bind_ok Hia0 as sh Hsh.
  inversion Hia0; subst ia. clear Hia0.
  rewrite Hsh in H. cbn [bind] in H.
  bind_ok H as symb Hsymb. bind_ok H as nuc Hnuc.
  bind_ok H as symb2 Hsymb2. bind_ok H as nelec Hnelec.
  bind_ok H as ecpcore Hecp. bind_ok H as row Hrow.
  bind_ok H as coreshell Hcs. bind_ok H as row2 Hrow2.
  bind_ok H as cvshell Hcv. bind_ok H as st1 Hst1.
  bind_ok H as count' Hadd.
  inversion H; subst st'. clear H. cbn [cls_count].
  assert (Hcnt : cls_count st1 = cls_count st).
  { refine (@foldM_seq_inv _ (fun _ s => cls_count s = cls_count st)
              (classify_ctr ecpcore coreshell cvshell (sh_atom sh) (sh_ang sh)
                 (degen_of (mol_cart mol) (sh_ang sh)))
              (sh_nctr sh) 0 st st1 eq_refl _ Hst1).
    intros i s s' _ Hs Hstep. apply classify_ctr_placed in Hstep.
    destruct Hstep as [Hc _]. congruence. }
  rewrite Hcnt in Hadd.
  destruct (@count_add_Ok _ _ _ _ _ _ Hshape Hadd) as (Hia & Hl & Hshape2).
  split; [exact Hshape2|]. exists sh. apply getitem_Ok in Hsh. auto.
Qed.

End ClassifierReturns.

(** X2.  The classifier returns only for shells it can count: if
    [_core_val_ryd_list] returns its three lists, every shell of the
    molecule has an angular momentum below nine (the columns of [count])
    and an owning atom among the atoms of the molecule.  So a shell with
    [l >= 9] makes the classifier raise, whatever the table holds. *)
Theorem core_val_ryd_list_returns_only_below_nine
  (_charge : element -> result nat)
  (core_configuration : nat -> result (list nat)) (AOSHELL : conf_table)
  (mol : Mole) (lists : list nat * list nat * list nat) :
  _core_val_ryd_list _charge core_configuration AOSHELL mol = Ok lists ->
  Forall (fun sh => sh_ang sh < 9 /\ sh_atom sh < natm mol) (mol_bas mol).
Proof.
  intros H. unfold _core_val_ryd_list in H. bind_ok H as st Ha. clear H.
  assert (HP : count_shape (natm mol) (cls_count st) /\
               forall ib, ib < 0 + nbas mol ->
                 exists sh, nth_error (mol_bas mol) ib = Some sh /\
                            sh_ang sh < 9 /\ sh_atom sh < natm mol).
  { refine (@foldM_seq_inv _
             (fun n s => count_shape (natm mol) (cls_count s) /\
                forall ib, ib < n ->
                  exists sh, nth_error (mol_bas mol) ib = Some sh /\
                             sh_ang sh < 9 /\ sh_atom sh < natm mol)
             (classify_shell _charge core_configuration AOSHELL mol)
             (nbas mol) 0
             (ClsState (repeat (repeat 0 9) (natm mol)) [] [] [] 0) st
             _ _ Ha).
    - split; [apply count_shape_zeros|]. intros ib Hib. lia.
    - intros i s s' _ [Hshape Hprev] Hstep.
      destruct (@classify_shell_Ok _charge core_configuration AOSHELL mol
                  s s' i Hshape Hstep) as [Hshape' Hsh].
      split; [assumption|]. intros ib Hib.
      destruct (Nat.eq_dec ib i) as [->|Hne]; [assumption|].
      apply Hprev. lia. }
  destruct HP as [_ HP]. apply Forall_forall. intros sh Hin.
  apply In_nth_error in Hin. destruct Hin as [ib Hib].
  assert (Hlt : ib < 0 + nbas mol).
  { unfold nbas. apply nth_error_Some. congruence. }
  destruct (HP ib Hlt) as (sh' & Hsh' & Hl & Hia).
  assert (sh' = sh) by congruence. subst. auto.
Qed.

Lemma core_val_ryd_list_returns_only_below_nine_witness :
  Forall (fun sh => sh_ang sh < 9 /\ sh_atom sh < natm water_631g)
         (mol_bas water_631g).
Proof.
  apply (@core_val_ryd_list_returns_only_below_nine charge_of
           small_core_configuration AOSHELL water_631g
           ([0], [1; 3; 4; 5; 9; 11], [2; 6; 7; 8; 10; 12])).
  vm_compute. reflexivity.
Defined.

(** X3.  An override touches one row.  Whatever the description, when
    [set_atom_conf] returns, the table has the same number of rows and
    every row other than that of the element's charge is the one it was. *)
Theorem set_atom_conf_other_rows (_charge : element -> result nat)
  (tbl tbl' : conf_table) (elem : element) (descr : description)
  (msg : string) :
  set_atom_conf _charge tbl elem descr = Ok (tbl', msg) ->
  exists z, _charge elem = Ok z /\ z < length tbl /\
            length tbl' = length tbl /\
            forall z', z' <> z -> nth_error tbl' z' = nth_error tbl z'.
Proof.
  intros H. unfold set_atom_conf in H.
  bind_ok H as z Hz. exists z. split; [assumption|].
  bind_ok H as descs Hdescs. destruct descs as [c_desc v_desc].
  bind_ok H as row Hrow. bind_ok H as ncore Hncore.
  bind_ok H as row2 Hrow2. bind_ok H as ncv Hncv.
  bind_ok H as counts Hloop. destruct counts as [ncore' ncv'].
  bind_ok H as c_conf Hc. bind_ok H as cv_conf Hcv.
  bind_ok H as tbl2 Hset. inversion H; subst tbl2 msg. clear H.
  apply setitem_Ok in Hset. destruct Hset as [Hlt ->].
  split; [assumption|]. split; [apply replace_nth_length|].
  intros z' Hne. rewrite nth_error_replace_nth.
  destruct (z' =? z) eqn:E; [apply Nat.eqb_eq in E; contradiction|].
  reflexivity.
Qed.

Lemma set_atom_conf_other_rows_witness :
  exists z, charge_of (Symbol "Fe") = Ok z /\ z < length AOSHELL /\
            length (replace_nth AOSHELL 26 ("3s2p0d0f", "4s2p2d0f")%string)
              = length AOSHELL /\
            forall z', z' <> z ->
              nth_error (replace_nth AOSHELL 26 ("3s2p0d0f", "4s2p2d0f")%string) z'
              = nth_error AOSHELL z'.
Proof.
  apply (@set_atom_conf_other_rows charge_of AOSHELL _ (Symbol "Fe")
           (DStr "double d")
           ("Update Fe conf: core 3s2p0d0f core+valence 4s2p2d0f" ++
            String (ascii_of_nat 10) "")%string).
  vm_compute. reflexivity.
Defined.

Lemma to_conf_error (tbl : conf_table) (z : nat) (desc : string) (e : exn) :
  to_conf tbl z desc = Raise e -> e = IndexError.
Proof.
  unfold to_conf.
  destruct (PyStr.contains "doublep" _); [discriminate|].
  destruct (PyStr.contains "doubled" _); [discriminate|].
  destruct (PyStr.contains "doublef" _); [discriminate|].
  destruct (PyStr.contains "polarize" _); [|discriminate].
  unfold getitem. destruct (nth_error tbl z) as [row|]; cbn [bind].
  - unfold PyStr.item.
    destruct (_ <? 0)%Z; [intros H; inversion H; reflexivity|].
    destruct (String.get _ _); cbn [bind]; intros H; inversion H; reflexivity.
  - intros H. inversion H. reflexivity.
Qed.

(** X4.  A charge beyond the table is an [IndexError]: when the charge of
    the element is not below the number of rows, [set_atom_conf] raises
    [IndexError] for every description, string or sequence. *)
Theorem set_atom_conf_charge_out_of_range (_charge : element -> result nat)
  (tbl : conf_table) (elem : element) (descr : description) (z : nat) :
  _charge elem = Ok z -> length tbl <= z ->
  set_atom_conf _charge tbl elem descr = Raise IndexError.
Proof.
  intros Hz Hlen. unfold set_atom_conf. rewrite Hz. cbn [bind].
  assert (Hrow : getitem tbl z = Raise IndexError).
  { unfold getitem. destruct (nth_error tbl z) eqn:E; [|reflexivity].
    assert (nth_error tbl z <> None) by congruence.
    apply nth_error_Some in H. lia. }
  destruct descr as [d | ds].
  - rewrite Hrow. reflexivity.
  - destruct (getitem ds 0) as [d0|e0] eqn:E0; cbn [bind].
    + destruct (to_conf tbl z d0) as [c|e] eqn:Ec; cbn [bind].
      * destruct (getitem ds 1) as [d1|e1] eqn:E1; cbn [bind].
        -- destruct (to_conf tbl z d1) as [v|e] eqn:Ev; cbn [bind].
           ++ rewrite Hrow. reflexivity.
           ++ apply to_conf_error in Ev. subst. reflexivity.
        -- unfold getitem in E1. destruct (nth_error ds 1); inversion E1.
           reflexivity.
      * apply to_conf_error in Ec. subst. reflexivity.
    + unfold getitem in E0. destruct (nth_error ds 0); inversion E0.
      reflexivity.
Qed.

Lemma set_atom_conf_charge_out_of_range_witness :
  set_atom_conf charge_of AOSHELL (Nuc 119) (DStr "double d") = Raise IndexError.
Proof.
  apply (@set_atom_conf_charge_out_of_range charge_of AOSHELL (Nuc 119)
           (DStr "double d") 119).
  - reflexivity.
  - vm_compute. repeat constructor.
Defined.

Lemma dchar_lower (n : nat) : n < 10 -> PyStr.lower_char (dchar n) = dchar n.
Proof.
  intros H. do 10 (destruct n as [|n]; [reflexivity|]). lia.
Qed.

(** A description of one count and one letter is its own configuration. *)
Lemma to_conf_literal (tbl : conf_table) (z n i : nat) :
  n < 10 -> i < 4 ->
  to_conf tbl z (String (dchar n) (String (channel_letter i) "")) =
  Ok (String (dchar n) (String (channel_letter i) "")).
Proof.
  intros Hn Hi.
  do 10 (destruct n as [|n];
         [do 4 (destruct i as [|i]; [reflexivity|]); lia|]).
  lia.
Qed.

Lemma conf_loop_literal (c0 c1 c2 c3 v0 v1 v2 v3 n i : nat) :
  c0 < 10 -> c1 < 10 -> c2 < 10 -> c3 < 10 -> n < 10 -> i < 4 ->
  conf_loop (conf_str c0 c1 c2 c3)
            (String (dchar n) (String (channel_letter i) ""))
            ([c0; c1; c2; c3], [v0; v1; v2; v3]) spdf =
  Ok ([c0; c1; c2; c3],
      replace_nth [v0; v1; v2; v3] i (nth i [c0; c1; c2; c3] 0 + n)).
Proof.
  intros H0 H1 H2 H3 Hn Hi.
  destruct (@count_before_conf_str c0 c1 c2 c3 H0 H1 H2 H3)
    as [[Hs Hs'] [[Hp Hp'] [[Hd Hd'] [Hf Hf']]]].
  assert (Hhas : forall s, In s ["s"; "p"; "d"; "f"]%char ->
            PyStr.has_char s (String (dchar n) (String (channel_letter i) ""))
            = Ascii.eqb (channel_letter i) s).
  { intros s Hin. cbn [PyStr.has_char].
    rewrite (dchar_not_letter Hn Hin). cbn [orb]. apply orb_false_r. }
  assert (Hcnt : count_before (channel_letter i)
                   (String (dchar n) (String (channel_letter i) "")) = Ok n).
  { unfold count_before. cbn [PyStr.split_head].
    rewrite dchar_not_letter
      by (assumption || (do 4 (destruct i as [|i]; [simpl; tauto|]); lia)).
    rewrite Ascii.eqb_refl, item_last1. cbn [bind].
    apply int_of_dchar. assumption. }
  unfold spdf, conf_loop, conf_step.
  rewrite !Hhas by (simpl; tauto).
  rewrite Hs, Hs', Hp, Hp', Hd, Hd', Hf, Hf'.
  do 4 (destruct i as [|i];
        [cbn [channel_letter] in *;
         repeat match goal with
                | |- context [Ascii.eqb ?a ?b] =>
                    let v := eval vm_compute in (Ascii.eqb a b) in
                    change (Ascii.eqb a b) with v
                end;
         cbn [bind setitem getitem nth_error nth replace_nth];
         rewrite ?Hcnt; reflexivity |]).
  lia.
Qed.

Section ConfDescriptions.

Variable _charge : element -> result nat.

(** The override on a well-formed row, for a string description that
    [to_conf] turns into [v_desc]. *)
Lemma set_atom_conf_desc (tbl : conf_table) (elem : element) (z : nat)
  (c0 c1 c2 c3 v0 v1 v2 v3 : nat) (desc v_desc : string) (ncv : list nat)
  (cv_conf : string) :
  _charge elem = Ok z ->
  getitem tbl z = Ok (conf_str c0 c1 c2 c3, conf_str v0 v1 v2 v3) ->
  Forall (fun n => n < 10) [c0; c1; c2; c3; v0; v1; v2; v3] ->
  to_conf tbl z desc = Ok v_desc ->
  conf_loop (conf_str c0 c1 c2 c3) v_desc
            ([c0; c1; c2; c3], [v0; v1; v2; v3]) spdf =
    Ok ([c0; c1; c2; c3], ncv) ->
  fmt_conf ncv = Ok cv_conf ->
  exists msg,
    set_atom_conf _charge tbl elem (DStr desc) =
    Ok (replace_nth tbl z (conf_str c0 c1 c2 c3, cv_conf), msg).
Proof.
  intros Hz Hrow Hd Hconf Hloop Hfmt.
  apply Forall_cons_iff in Hd; destruct Hd as [Hc0 Hd].
  apply Forall_cons_iff in Hd; destruct Hd as [Hc1 Hd].
  apply Forall_cons_iff in Hd; destruct Hd as [Hc2 Hd].
  apply Forall_cons_iff in Hd; destruct Hd as [Hc3 Hd].
  apply Forall_cons_iff in Hd; destruct Hd as [Hv0 Hd].
  apply Forall_cons_iff in Hd; destruct Hd as [Hv1 Hd].
  apply Forall_cons_iff in Hd; destruct Hd as [Hv2 Hd].
  apply Forall_cons_iff in Hd; destruct Hd as [Hv3 _].
  unfold set_atom_conf. rewrite Hz. cbn [bind].
  rewrite Hrow. cbn [bind fst snd]. rewrite Hconf. cbn [bind].
  rewrite !shell_counts_conf_str by assumption. cbn [bind].
  rewrite Hloop. cbn [bind].
  rewrite fmt_conf_digits by assumption. cbn [bind].
  rewrite Hfmt. cbn [bind].
  rewrite setitem_replace by (eapply getitem_Ok_lt; eassumption).
  cbn [bind]. eexists. reflexivity.
Qed.

End ConfDescriptions.

Lemma fmt_conf_replace_nth (v0 v1 v2 v3 i x : nat) :
  exists s, fmt_conf (replace_nth [v0; v1; v2; v3] i x) = Ok s.
Proof.
  do 4 (destruct i as [|i]; [eexists; reflexivity|]).
  eexists. reflexivity.
Qed.

(** The row [set_atom_conf] writes for a description of one count and
    one channel letter. *)
Lemma set_atom_conf_channel_row (_charge : element -> result nat)
  (tbl : conf_table) (elem : element) (z c0 c1 c2 c3 v0 v1 v2 v3 n i : nat) :
  _charge elem = Ok z ->
  getitem tbl z = Ok (conf_str c0 c1 c2 c3, conf_str v0 v1 v2 v3) ->
  Forall (fun n => n < 10) [c0; c1; c2; c3; v0; v1; v2; v3] ->
  n < 10 -> i < 4 ->
  exists cv_conf msg,
    fmt_conf (replace_nth [v0; v1; v2; v3] i (nth i [c0; c1; c2; c3] 0 + n))
      = Ok cv_conf /\
    set_atom_conf _charge tbl elem
      (DStr (String (dchar n) (String (channel_letter i) ""))) =
      Ok (replace_nth tbl z (conf_str c0 c1 c2 c3, cv_conf), msg).
Proof.
  intros Hz Hrow Hd Hn Hi.
  destruct (fmt_conf_replace_nth v0 v1 v2 v3 i (nth i [c0; c1; c2; c3] 0 + n))
    as [cv_conf Hfmt].
  exists cv_conf.
  assert (Hd' := Hd).
  apply Forall_cons_iff in Hd'; destruct Hd' as [Hc0 Hd'].
  apply Forall_cons_iff in Hd'; destruct Hd' as [Hc1 Hd'].
  apply Forall_cons_iff in Hd'; destruct Hd' as [Hc2 Hd'].
  apply Forall_cons_iff in Hd'; destruct Hd' as [Hc3 _].
  destruct (@set_atom_conf_desc _charge tbl elem z c0 c1 c2 c3 v0 v1 v2 v3
              _ _ _ cv_conf Hz Hrow Hd (to_conf_literal tbl z Hn Hi)
              (@conf_loop_literal c0 c1 c2 c3 v0 v1 v2 v3 n i
                 Hc0 Hc1 Hc2 Hc3 Hn Hi) Hfmt) as [msg Hmsg].
  exists msg. split; [exact Hfmt | exact Hmsg].
Qed.



(** X6.  On a row of single-digit counts, ['double p'], ['double d'] and
    ['double f'] set the stored core+valence count of the channel to the
    core count plus two: two valence shells of that kind, not twice the
    count the row had.  The core string, the other counts and the other
    rows are unchanged. *)
Theorem set_atom_conf_double (_charge : element -> result nat)
  (tbl : conf_table) (elem : element) (z c0 c1 c2 c3 v0 v1 v2 v3 i : nat) :
  _charge elem = Ok z ->
  getitem tbl z = Ok (conf_str c0 c1 c2 c3, conf_str v0 v1 v2 v3) ->
  Forall (fun n => n < 10) [c0; c1; c2; c3; v0; v1; v2; v3] ->
  1 <= i < 4 ->
  exists cv_conf msg,
    fmt_conf (replace_nth [v0; v1; v2; v3] i (nth i [c0; c1; c2; c3] 0 + 2))
      = Ok cv_conf /\
    set_atom_conf _charge tbl elem
      (DStr ("double " ++ String (channel_letter i) "")) =
      Ok (replace_nth tbl z (conf_str c0 c1 c2 c3, cv_conf), msg).
Proof.
  intros Hz Hrow Hd [Hi1 Hi4].
  destruct (fmt_conf_replace_nth v0 v1 v2 v3 i (nth i [c0; c1; c2; c3] 0 + 2))
    as [cv_conf Hfmt].
  exists cv_conf.
  assert (Hd' := Hd).
  apply Forall_cons_iff in Hd'; destruct Hd' as [Hc0 Hd'].
  apply Forall_cons_iff in Hd'; destruct Hd' as [Hc1 Hd'].
  apply Forall_cons_iff in Hd'; destruct Hd' as [Hc2 Hd'].
  apply Forall_cons_iff in Hd'; destruct Hd' as [Hc3 _].
  assert (Hconf : to_conf tbl z ("double " ++ String (channel_letter i) "")
                  = Ok (String (dchar 2) (String (channel_letter i) ""))).
  { destruct i as [|i]; [lia|].
    do 3 (destruct i as [|i]; [reflexivity|]). lia. }
  destruct (@set_atom_conf_desc _charge tbl elem z c0 c1 c2 c3 v0 v1 v2 v3
              _ _ _ cv_conf Hz Hrow Hd Hconf
              (@conf_loop_literal c0 c1 c2 c3 v0 v1 v2 v3 2 i
                 Hc0 Hc1 Hc2 Hc3 ltac:(lia) Hi4) Hfmt) as [msg Hmsg].
  exists msg. split; [exact Hfmt | exact Hmsg].
Qed.

Lemma set_atom_conf_double_witness :
  exists cv_conf msg,
    fmt_conf (replace_nth [4; 2; 1; 0] 1 (nth 1 [3; 2; 0; 0] 0 + 2)) = Ok cv_conf /\
    set_atom_conf charge_of AOSHELL (Symbol "Fe") (DStr "double p") =
      Ok (replace_nth AOSHELL 26 (conf_str 3 2 0 0, cv_conf), msg).
Proof.
  apply (@set_atom_conf_double charge_of AOSHELL (Symbol "Fe")
           26 3 2 0 0 4 2 1 0 1).
  - reflexivity.
  - reflexivity.
  - repeat constructor; lia.
  - lia.
Defined.

Lemma conf_loop_no_channel (c0 c1 c2 c3 v0 v1 v2 v3 : nat) (v_desc : string) :
  c0 < 10 -> c1 < 10 -> c2 < 10 -> c3 < 10 ->
  (forall s, In s ["s"; "p"; "d"; "f"]%char -> PyStr.has_char s v_desc = false) ->
  conf_loop (conf_str c0 c1 c2 c3) v_desc
            ([c0; c1; c2; c3], [v0; v1; v2; v3]) spdf =
  Ok ([c0; c1; c2; c3], [v0; v1; v2; v3]).
Proof.
  intros H0 H1 H2 H3 Hno.
  destruct (@count_before_conf_str c0 c1 c2 c3 H0 H1 H2 H3)
    as [[Hs Hs'] [[Hp Hp'] [[Hd Hd'] [Hf Hf']]]].
  unfold spdf, conf_loop, conf_step.
  rewrite !Hno by (simpl; tauto).
  rewrite Hs, Hs', Hp, Hp', Hd, Hd', Hf, Hf'.
  reflexivity.
Qed.

(** X7.  On a row of single-digit counts a description without a channel
    letter is accepted and changes nothing: when the text [to_conf] yields
    holds none of [s], [p], [d], [f] (an empty description, or digits
    only), [set_atom_conf] does not raise; it writes the row back as it
    was. *)
Theorem set_atom_conf_no_channel_letter (_charge : element -> result nat)
  (tbl : conf_table) (elem : element) (z c0 c1 c2 c3 v0 v1 v2 v3 : nat)
  (desc v_desc : string) :
  _charge elem = Ok z ->
  getitem tbl z = Ok (conf_str c0 c1 c2 c3, conf_str v0 v1 v2 v3) ->
  Forall (fun n => n < 10) [c0; c1; c2; c3; v0; v1; v2; v3] ->
  to_conf tbl z desc = Ok v_desc ->
  (forall s, In s ["s"; "p"; "d"; "f"]%char -> PyStr.has_char s v_desc = false) ->
  exists msg, set_atom_conf _charge tbl elem (DStr desc) = Ok (tbl, msg).
Proof.
  intros Hz Hrow Hd Hconf Hno.
  assert (Hd' := Hd).
  apply Forall_cons_iff in Hd'; destruct Hd' as [Hc0 Hd'].
  apply Forall_cons_iff in Hd'; destruct Hd' as [Hc1 Hd'].
  apply Forall_cons_iff in Hd'; destruct Hd' as [Hc2 Hd'].
  apply Forall_cons_iff in Hd'; destruct Hd' as [Hc3 Hd'].
  apply Forall_cons_iff in Hd'; destruct Hd' as [Hv0 Hd'].
  apply Forall_cons_iff in Hd'; destruct Hd' as [Hv1 Hd'].
  apply Forall_cons_iff in Hd'; destruct Hd' as [Hv2 Hd'].
  apply Forall_cons_iff in Hd'; destruct Hd' as [Hv3 _].
  destruct (@set_atom_conf_desc _charge tbl elem z c0 c1 c2 c3 v0 v1 v2 v3
              desc v_desc _ (conf_str v0 v1 v2 v3) Hz Hrow Hd Hconf
              (@conf_loop_no_channel c0 c1 c2 c3 v0 v1 v2 v3 v_desc
                 Hc0 Hc1 Hc2 Hc3 Hno)
              (fmt_conf_digits Hv0 Hv1 Hv2 Hv3)) as [msg Hmsg].
  rewrite replace_nth_same in Hmsg by (apply getitem_Ok; exact Hrow).
  exists msg. exact Hmsg.
Qed.

Lemma set_atom_conf_no_channel_letter_witness :
  exists msg, set_atom_conf charge_of AOSHELL (Symbol "Fe") (DStr "") = Ok (AOSHELL, msg).
Proof.
  apply (@set_atom_conf_no_channel_letter charge_of AOSHELL (Symbol "Fe")
           26 3 2 0 0 4 2 1 0 "" "").
  - reflexivity.
  - reflexivity.
  - repeat constructor; lia.
  - reflexivity.
  - intros s _. reflexivity.
Defined.

(** X8.  Overriding one channel twice is overriding it once: the count
    is set from the core count, not added to the stored one.  After
    [set_atom_conf(element, '<n><letter>')] has returned table [tbl'], the
    same call on [tbl'] returns [tbl'] again.  (Rows of single-digit
    counts, with core count plus [n] below ten.) *)
Theorem set_atom_conf_one_channel_idempotent (_charge : element -> result nat)
  (tbl : conf_table) (elem : element) (z c0 c1 c2 c3 v0 v1 v2 v3 n i : nat) :
  _charge elem = Ok z ->
  getitem tbl z = Ok (conf_str c0 c1 c2 c3, conf_str v0 v1 v2 v3) ->
  Forall (fun n => n < 10) [c0; c1; c2; c3; v0; v1; v2; v3] ->
  i < 4 -> nth i [c0; c1; c2; c3] 0 + n < 10 ->
  let d := DStr (String (dchar n) (String (channel_letter i) "")) in
  exists tbl' msg msg',
    set_atom_conf _charge tbl elem d = Ok (tbl', msg) /\
    set_atom_conf _charge tbl' elem d = Ok (tbl', msg').
Proof.
  intros Hz Hrow Hd Hi Hsum d. subst d.
  assert (Hn : n < 10) by lia.
  destruct (@set_atom_conf_channel_row _charge tbl elem z c0 c1 c2 c3
              v0 v1 v2 v3 n i Hz Hrow Hd Hn Hi) as (cv & msg & Hfmt & Hrun).
  assert (Hz_lt : z < length tbl) by (eapply getitem_Ok_lt; eassumption).
  assert (Hd' := Hd).
  apply Forall_cons_iff in Hd'; destruct Hd' as [Hc0 Hd'].
  apply Forall_cons_iff in Hd'; destruct Hd' as [Hc1 Hd'].
  apply Forall_cons_iff in Hd'; destruct Hd' as [Hc2 Hd'].
  apply Forall_cons_iff in Hd'; destruct Hd' as [Hc3 Hd'].
  apply Forall_cons_iff in Hd'; destruct Hd' as [Hv0 Hd'].
  apply Forall_cons_iff in Hd'; destruct Hd' as [Hv1 Hd'].
  apply Forall_cons_iff in Hd'; destruct Hd' as [Hv2 Hd'].
  apply Forall_cons_iff in Hd'; destruct Hd' as [Hv3 _].
  exists (replace_nth tbl z (conf_str c0 c1 c2 c3, cv)), msg.
  assert (Hagain : forall w0 w1 w2 w3,
            replace_nth [v0; v1; v2; v3] i (nth i [c0; c1; c2; c3] 0 + n)
              = [w0; w1; w2; w3] ->
            replace_nth [w0; w1; w2; w3] i (nth i [c0; c1; c2; c3] 0 + n)
              = [w0; w1; w2; w3] ->
            Forall (fun n => n < 10) [w0; w1; w2; w3] ->
            exists msg',
              set_atom_conf _charge (replace_nth tbl z (conf_str c0 c1 c2 c3, cv))
                elem (DStr (String (dchar n) (String (channel_letter i) "")))
              = Ok (replace_nth tbl z (conf_str c0 c1 c2 c3, cv), msg')).
  { intros w0 w1 w2 w3 Hw Hw' Hwd.
    rewrite Hw in Hfmt.
    assert (Hwd' := Hwd).
    apply Forall_cons_iff in Hwd'; destruct Hwd' as [Hw0 Hwd'].
    apply Forall_cons_iff in Hwd'; destruct Hwd' as [Hw1 Hwd'].
    apply Forall_cons_iff in Hwd'; destruct Hwd' as [Hw2 Hwd'].
    apply Forall_cons_iff in Hwd'; destruct Hwd' as [Hw3 _].
    rewrite (fmt_conf_digits Hw0 Hw1 Hw2 Hw3) in Hfmt.
    inversion Hfmt; subst cv. clear Hfmt.
    assert (Hrow' : getitem (replace_nth tbl z
                               (conf_str c0 c1 c2 c3, conf_str w0 w1 w2 w3)) z
                    = Ok (conf_str c0 c1 c2 c3, conf_str w0 w1 w2 w3)).
    { apply getitem_Ok. rewrite nth_error_replace_nth, Nat.eqb_refl.
      apply Nat.ltb_lt in Hz_lt. rewrite Hz_lt. reflexivity. }
    assert (Hd2 : Forall (fun n => n < 10) [c0; c1; c2; c3; w0; w1; w2; w3])
      by (repeat (constructor; [assumption|]); constructor).
    destruct (@set_atom_conf_channel_row _charge _ elem z c0 c1 c2 c3
                w0 w1 w2 w3 n i Hz Hrow' Hd2 Hn Hi) as (cv2 & msg' & Hfmt2 & Hrun2).
    rewrite Hw' in Hfmt2.
    rewrite (fmt_conf_digits Hw0 Hw1 Hw2 Hw3) in Hfmt2.
    inversion Hfmt2; subst cv2. clear Hfmt2.
    exists msg'. rewrite Hrun2. f_equal. f_equal.
    apply replace_nth_same. apply getitem_Ok. exact Hrow'. }
  do 4 (destruct i as [|i];
        [cbn [nth replace_nth] in *;
         edestruct (Hagain _ _ _ _ eq_refl) as [msg' Hmsg'];
         [reflexivity
         | repeat (constructor; [assumption || lia|]); constructor
         | exists msg'; split; assumption] |]).
  lia.
Qed.

Lemma set_atom_conf_one_channel_idempotent_witness :
  exists tbl' msg msg',
    set_atom_conf charge_of AOSHELL (Symbol "Fe") (DStr "2d") = Ok (tbl', msg) /\
    set_atom_conf charge_of tbl' (Symbol "Fe") (DStr "2d") = Ok (tbl', msg').
Proof.
  apply (@set_atom_conf_one_channel_idempotent charge_of AOSHELL (Symbol "Fe")
           26 3 2 0 0 4 2 1 0 2 2).
  - reflexivity.
  - reflexivity.
  - repeat constructor; lia.
  - lia.
  - cbn. lia.
Defined.




(** ** Lists read and written by index *)

Lemma mapM_Ok_map {A B : Type} (f : A -> result B) (g : A -> B) (xs : list A) :
  (forall x, In x xs -> f x = Ok (g x)) -> mapM f xs = Ok (map g xs).
Proof.
  induction xs as [|x t IH]; intros H; simpl; [reflexivity|].
  rewrite (H x) by (simpl; auto). simpl.
  rewrite IH by (intros y Hy; apply H; simpl; auto). reflexivity.
Qed.

Lemma mapM_Ok_inv {A B : Type} (f : A -> result B) (xs : list A) (ys : list B) :
  mapM f xs = Ok ys ->
  length ys = length xs /\ forall x, In x xs -> exists y, f x = Ok y.
Proof.
  revert ys. induction xs as [|x t IH]; intros ys H; simpl in H.
  - inversion H. split; [reflexivity|]. intros x [].
  - bind_ok H as y Hy. bind_ok H as ys' Hys. inversion H; subst ys.
    destruct (IH _ Hys) as [Hlen Hall]. split; [simpl; congruence|].
    intros x' [<- | Hin]; eauto.
Qed.

Lemma mapM_Raise {A B : Type} (f : A -> result B) (xs : list A) (e : exn) :
  mapM f xs = Raise e -> exists x, In x xs /\ f x = Raise e.
Proof.
  induction xs as [|x t IH]; simpl; intros H; [discriminate|].
  destruct (f x) as [y|e'] eqn:E; simpl in H.
  - destruct (mapM f t) as [ys|e'] eqn:Et; simpl in H; [discriminate|].
    inversion H; subst e'. destruct (IH eq_refl) as (x' & Hin & Hx').
    exists x'. auto.
  - inversion H; subst e'. exists x. auto.
Qed.

Lemma take_Ok {A : Type} (xs : list A) (lst : list nat) (d : A) :
  Forall (fun i => i < length xs) lst ->
  take xs lst = Ok (map (fun i => nth i xs d) lst).
Proof.
  intros H. unfold take. apply mapM_Ok_map.
  rewrite Forall_forall in H. intros i Hi. apply getitem_nth. auto.
Qed.

Lemma take_Raise {A : Type} (xs : list A) (lst : list nat) :
  Exists (fun i => length xs <= i) lst -> take xs lst = Raise IndexError.
Proof.
  intros H. unfold take.
  destruct (mapM (getitem xs) lst) as [ys|e] eqn:E.
  - apply mapM_Ok_inv in E. destruct E as [_ Hall].
    apply Exists_exists in H. destruct H as (i & Hin & Hi).
    destruct (Hall i Hin) as [y Hy]. apply getitem_Ok_lt in Hy. lia.
  - apply mapM_Raise in E. destruct E as (i & _ & Hi).
    unfold getitem in Hi. destruct (nth_error xs i); inversion Hi. reflexivity.
Qed.

(** ** Pieces of a flat array *)

Lemma firstn_skipn_concat {A : Type} (N r : nat) (rows : list (list A)) :
  Forall (fun row => length row = N) rows -> r < length rows ->
  firstn N (skipn (r * N) (concat rows)) = nth r rows [].
Proof.
  revert r. induction rows as [|row t IH]; intros r Hall Hr; simpl in Hr; [lia|].
  inversion Hall as [|? ? Hrow Ht]; subst. destruct r as [|r]; simpl.
  - rewrite firstn_app, Nat.sub_diag, firstn_all. simpl. apply app_nil_r.
  - rewrite skipn_app.
    rewrite (skipn_all2 row) by lia. simpl.
    replace (length row + r * length row - length row) with (r * length row) by lia.
    apply IH; [assumption | lia].
Qed.

Lemma skipn_concat_rows {A : Type} (N k : nat) (rows : list (list A)) :
  Forall (fun row => length row = N) rows ->
  skipn (k * N) (concat rows) = concat (skipn k rows).
Proof.
  revert k. induction rows as [|row t IH]; intros k Hall.
  - rewrite skipn_nil. simpl. rewrite skipn_nil. reflexivity.
  - inversion Hall as [|? ? Hrow Ht]; subst. destruct k as [|k]; simpl; [reflexivity|].
    rewrite skipn_app. rewrite (skipn_all2 row) by lia. simpl.
    replace (length row + k * length row - length row) with (k * length row) by lia.
    apply IH. assumption.
Qed.

Lemma firstn_concat_rows {A : Type} (N k : nat) (rows : list (list A)) :
  Forall (fun row => length row = N) rows ->
  firstn (k * N) (concat rows) = concat (firstn k rows).
Proof.
  revert k. induction rows as [|row t IH]; intros k Hall.
  - rewrite firstn_nil. simpl. rewrite firstn_nil. reflexivity.
  - inversion Hall as [|? ? Hrow Ht]; subst. destruct k as [|k]; simpl; [reflexivity|].
    rewrite firstn_app.
    rewrite (firstn_all2 (n := length row + k * length row) row) by lia.
    replace (length row + k * length row - length row) with (k * length row) by lia.
    f_equal. apply IH. assumption.
Qed.

Lemma firstn_skipn_seq_nth {A : Type} (d j : nat) (row : list A) (x : A) :
  j * d + d <= length row ->
  firstn d (skipn (j * d) row) = map (fun n => nth (j * d + n) row x) (seq 0 d).
Proof.
  intros H.
  assert (Hlen : length (firstn d (skipn (j * d) row)) = d).
  { rewrite length_firstn, length_skipn. lia. }
  apply nth_ext with (d := x) (d' := x).
  - rewrite Hlen, length_map, length_seq. reflexivity.
  - intros n Hn. rewrite Hlen in Hn.
    rewrite nth_firstn. apply Nat.ltb_lt in Hn. rewrite Hn.
    apply Nat.ltb_lt in Hn.
    rewrite nth_skipn.
    set (f := fun n => nth (j * d + n) row x).
    rewrite (nth_indep (map f (seq 0 d)) x (f 0))
      by (rewrite length_map, length_seq; assumption).
    rewrite map_nth, seq_nth by assumption. reflexivity.
Qed.

(** ** The block averager *)

Lemma chunks_length {A : Type} (n count : nat) (xs : list A) :
  length (chunks n count xs) = count.
Proof. unfold chunks. rewrite length_map, length_seq. reflexivity. Qed.

Lemma chunks_nth {A : Type} (n count j : nat) (xs : list A) :
  j < count -> nth j (chunks n count xs) [] = firstn n (skipn (j * n) xs).
Proof.
  intros Hj. unfold chunks.
  set (f := fun i => firstn n (skipn (i * n) xs)).
  rewrite (nth_indep (map f (seq 0 count)) [] (f 0))
    by (rewrite length_map, length_seq; assumption).
  rewrite map_nth, seq_nth by assumption. reflexivity.
Qed.

Lemma nth_firstn_skipn {A : Type} (d k m : nat) (xs : list A) (x : A) :
  m < d -> nth m (firstn d (skipn k xs)) x = nth (k + m) xs x.
Proof.
  intros Hm. rewrite nth_firstn. apply Nat.ltb_lt in Hm. rewrite Hm.
  apply nth_skipn.
Qed.

Lemma in_skipn {A : Type} (k : nat) (xs : list A) (x : A) :
  In x (skipn k xs) -> In x xs.
Proof.
  intros H. rewrite <- (firstn_skipn k xs). apply in_or_app. auto.
Qed.

Lemma in_firstn {A : Type} (k : nat) (xs : list A) (x : A) :
  In x (firstn k xs) -> In x xs.
Proof.
  intros H. rewrite <- (firstn_skipn k xs). apply in_or_app. auto.
Qed.

(** Piece [m] of block [i] of the flattened rows is row [i * d + m]. *)
Lemma reshape_row {A : Type} (N d count i m : nat) (rows : list (list A)) :
  Forall (fun row => length row = N) rows ->
  length rows = count * d -> i < count -> m < d ->
  nth m (chunks N d (firstn (d * N) (skipn (i * (d * N)) (concat rows)))) []
  = nth (i * d + m) rows [].
Proof.
  intros Hall Hlen Hi Hm.
  rewrite chunks_nth by assumption.
  replace (i * (d * N)) with ((i * d) * N) by lia.
  rewrite (skipn_concat_rows (i * d) Hall).
  assert (Hall' : Forall (fun row => length row = N) (skipn (i * d) rows)).
  { apply Forall_forall. intros row Hrow. rewrite Forall_forall in Hall.
    apply Hall. eapply in_skipn. eassumption. }
  rewrite (firstn_concat_rows d Hall').
  rewrite firstn_skipn_concat.
  - apply nth_firstn_skipn. assumption.
  - apply Forall_forall. intros row Hrow. rewrite Forall_forall in Hall'.
    apply Hall'. eapply in_firstn. eassumption.
  - rewrite length_firstn, length_skipn. nia.
Qed.

Section Averager.

Context {F : Type} {SF : Scalar F}.

Lemma sub_matrix_Ok (n : nat) (mat : matrix F) (lst : list nat) :
  square n mat -> Forall (fun a => a < n) lst ->
  (rows <- take mat lst ;; take_cols rows lst) =
  Ok (map (fun a => map (fun b => entry mat a b) lst) lst).
Proof.
  intros [Hlen Hrows] Hlst.
  rewrite (@take_Ok _ mat lst [])
    by (rewrite Hlen; exact Hlst).
  cbn [bind]. unfold take_cols.
  rewrite (@mapM_Ok_map _ _ (fun row => take row lst)
             (fun row => map (fun b => nth b row zero) lst)).
  - rewrite map_map. reflexivity.
  - intros row Hrow. apply take_Ok.
    apply in_map_iff in Hrow. destruct Hrow as (a & <- & Ha).
    rewrite Forall_forall in Hlst, Hrows.
    rewrite (Hrows (nth a mat [])); [exact (proj2 (Forall_forall _ _) Hlst)|].
    apply nth_In. rewrite Hlen. auto.
Qed.

Lemma length_concat_rows {A : Type} (N : nat) (rows : list (list A)) :
  Forall (fun row => length row = N) rows ->
  length (concat rows) = length rows * N.
Proof.
  induction 1 as [|row t Hrow _ IH]; simpl; [reflexivity|].
  rewrite length_app, IH, Hrow. reflexivity.
Qed.

(** The array [_spheric_average_mat] returns, entry by entry. *)
Lemma spheric_average_mat_block_sums (n nd degen l : nat) (mat : matrix F)
  (lst : list nat) :
  0 < degen -> length lst = nd * degen ->
  square n mat -> Forall (fun a => a < n) lst ->
  exists A,
    _spheric_average_mat mat l lst (Some degen) = Ok A /\
    has_shape nd nd A /\
    forall i j, i < nd -> j < nd ->
      entry A i j = (block_sum mat lst degen i j / of_Z (Z.of_nat degen))%F.
Proof.
  intros Hdeg Hlen Hsq Hlst. unfold _spheric_average_mat.
  destruct (degen =? 0) eqn:E; [apply Nat.eqb_eq in E; lia|]. clear E.
  rewrite Hlen, Nat.div_mul by lia.
  pose proof (sub_matrix_Ok Hsq Hlst) as Hsub.
  destruct (take mat lst) as [rows|e]; [|discriminate Hsub].
  cbn [bind] in Hsub |- *. rewrite Hsub. cbn [bind]. clear Hsub rows.
  set (sub_mat := map (fun a => map (fun b => entry mat a b) lst) lst).
  assert (Hrows : Forall (fun row => length row = nd * degen) sub_mat).
  { apply Forall_forall. intros row Hrow. apply in_map_iff in Hrow.
    destruct Hrow as (a & <- & _). rewrite length_map. exact Hlen. }
  assert (Hsublen : length sub_mat = nd * degen).
  { unfold sub_mat. rewrite length_map. exact Hlen. }
  unfold reshape4.
  rewrite (length_concat_rows Hrows), Hsublen.
  replace (nd * degen * (nd * degen) =? nd * degen * nd * degen) with true
    by (symmetry; apply Nat.eqb_eq; lia).
  cbn [bind]. eexists. split; [reflexivity|].
  unfold mat_div, einsum_imjn_ij. rewrite !map_map.
  split.
  - split.
    + rewrite length_map, chunks_length. reflexivity.
    + apply Forall_forall. intros row Hrow. apply in_map_iff in Hrow.
      destruct Hrow as (blk & <- & _).
      rewrite !length_map, length_seq. reflexivity.
  - intros i j Hi Hj. unfold entry.
    set (rowf := fun blk : list F =>
                   map (fun x => (x / of_Z (Z.of_nat degen))%F)
                     (map (fun j0 =>
                        vsum (map (fun Tim => vsum (nth j0 Tim []))
                                (map (chunks degen nd)
                                   (chunks (nd * degen) degen blk))))
                        (seq 0 nd))).
    rewrite (nth_indep (map rowf _) [] (rowf []))
      by (rewrite length_map, chunks_length; assumption).
    rewrite map_nth. rewrite chunks_nth by assumption.
    unfold rowf. rewrite map_map.
    set (g := fun j0 => (vsum (map (fun Tim => vsum (nth j0 Tim []))
                (map (chunks degen nd)
                   (chunks (nd * degen) degen
                      (firstn (degen * nd * degen)
                         (skipn (i * (degen * nd * degen)) (concat sub_mat))))))
              / of_Z (Z.of_nat degen))%F).
    rewrite (nth_indep (map g (seq 0 nd)) zero (g 0))
      by (rewrite length_map, length_seq; assumption).
    rewrite map_nth, seq_nth by assumption. unfold g. cbn [Nat.add].
    f_equal. unfold block_sum. rewrite map_map. unfold chunks at 2.
    rewrite map_map. f_equal. apply map_ext_in. intros m Hm.
    apply in_seq in Hm.
    pose proof (@reshape_row _ (nd * degen) degen nd i m sub_mat
                  Hrows Hsublen Hi ltac:(lia)) as Hrow.
    rewrite chunks_nth in Hrow by lia.
    replace (degen * nd * degen) with (degen * (nd * degen)) by lia.
    rewrite Hrow. rewrite chunks_nth by assumption.
    assert (Him : i * degen + m < length lst) by nia.
    unfold sub_mat.
    set (f := fun a => map (fun b => entry mat a b) lst).
    rewrite (nth_indep (map f lst) [] (f 0))
      by (rewrite length_map; assumption).
    rewrite map_nth. unfold f.
    rewrite (@firstn_skipn_seq_nth _ degen j _ zero)
      by (rewrite length_map; nia).
    f_equal. apply map_ext_in. intros k Hk. apply in_seq in Hk.
    set (h := fun b => entry mat (nth (i * degen + m) lst 0) b).
    rewrite (nth_indep (map h lst) zero (h 0))
      by (rewrite length_map; nia).
    rewrite map_nth. reflexivity.
Qed.

(** X10.  What the block averager returns.  For a square matrix, a list
    of [nd * degen] indices within it and [degen > 0],
    [_spheric_average_mat] returns an [nd] by [nd] array whose entry
    [(i, j)] is the sum of [mat[lst[i*degen+m], lst[j*degen+n]]] over the
    components [m] and [n], divided by [degen]. *)
Theorem spheric_average_mat_entries (n nd degen l : nat) (mat : matrix F)
  (lst : list nat) :
  0 < degen -> length lst = nd * degen ->
  square n mat -> Forall (fun a => a < n) lst ->
  exists A,
    _spheric_average_mat mat l lst (Some degen) = Ok A /\
    has_shape nd nd A /\
    forall i j, i < nd -> j < nd ->
      entry A i j = (block_sum mat lst degen i j / of_Z (Z.of_nat degen))%F.
Proof.
  exact (@spheric_average_mat_block_sums n nd degen l mat lst).
Qed.

End Averager.

Lemma spheric_average_mat_entries_witness :
  exists A,
    _spheric_average_mat
      (map (map q) [[1; 2; 3; 4]; [2; 6; 7; 8]; [3; 7; 11; 12]; [4; 8; 12; 16]]%Z)
      0 [0; 1; 2; 3] (Some 2) = Ok A /\
    has_shape 2 2 A /\
    forall i j, i < 2 -> j < 2 ->
      entry A i j =
      (block_sum
         (map (map q) [[1; 2; 3; 4]; [2; 6; 7; 8]; [3; 7; 11; 12]; [4; 8; 12; 16]]%Z)
         [0; 1; 2; 3] 2 i j / of_Z 2)%F.
Proof.
  apply (@spheric_average_mat_entries _ Qc_scalar 4 2 2 0).
  - lia.
  - reflexivity.
  - split; [reflexivity | repeat constructor].
  - repeat constructor.
Defined.

Section AveragerSymmetry.

Context {F : Type} {SF : Scalar F}.

(** The arithmetic of the entries is that of a commutative ring. *)
Hypothesis Fring : ring_theory zero one add mul sub opp (@eq F).

Add Ring Fring_avg : Fring.

Lemma vsum_zero {A : Type} (l : list A) :
  vsum (map (fun _ => zero) l) = zero.
Proof.
  induction l as [|x t IH]; simpl; [reflexivity|]. rewrite IH. ring.
Qed.

Lemma vsum_add {A : Type} (f g : A -> F) (l : list A) :
  vsum (map (fun x => (f x + g x)%F) l) = (vsum (map f l) + vsum (map g l))%F.
Proof.
  induction l as [|x t IH]; simpl; [ring|]. rewrite IH. ring.
Qed.

Lemma vsum_swap {A B : Type} (f : A -> B -> F) (l1 : list A) (l2 : list B) :
  vsum (map (fun m => vsum (map (fun n => f m n) l2)) l1) =
  vsum (map (fun n => vsum (map (fun m => f m n) l1)) l2).
Proof.
  induction l1 as [|a t IH]; simpl.
  - symmetry. apply vsum_zero.
  - rewrite IH. symmetry.
    apply (vsum_add (fun n => f a n) (fun n => vsum (map (fun m => f m n) t))).
Qed.

Lemma block_sum_symmetric (mat : matrix F) (lst : list nat) (nd degen i j : nat) :
  length lst = nd * degen -> i < nd -> j < nd ->
  symmetric_on lst mat ->
  block_sum mat lst degen i j = block_sum mat lst degen j i.
Proof.
  intros Hlen Hi Hj Hsym. unfold block_sum.
  rewrite vsum_swap. f_equal. apply map_ext_in. intros n Hn.
  f_equal. apply map_ext_in. intros m Hm.
  apply in_seq in Hn. apply in_seq in Hm.
  apply Hsym; apply nth_In; nia.
Qed.

(** X11.  Averaging keeps symmetry.  Under the hypotheses of X10, when
    the matrix is symmetric on the indices of the block, so is the array
    the averager returns. *)
Theorem spheric_average_mat_symmetric (n nd degen l : nat) (mat : matrix F)
  (lst : list nat) :
  0 < degen -> length lst = nd * degen ->
  square n mat -> Forall (fun a => a < n) lst ->
  symmetric_on lst mat ->
  exists A,
    _spheric_average_mat mat l lst (Some degen) = Ok A /\
    forall i j, i < nd -> j < nd -> entry A i j = entry A j i.
Proof.
  intros Hdeg Hlen Hsq Hlst Hsym.
  destruct (@spheric_average_mat_block_sums F SF n nd degen l mat lst
              Hdeg Hlen Hsq Hlst) as (A & Hrun & _ & Hent).
  exists A. split; [exact Hrun|].
  intros i j Hi Hj. rewrite (Hent i j Hi Hj), (Hent j i Hj Hi).
  f_equal. apply (@block_sum_symmetric mat lst nd degen i j); assumption.
Qed.

End AveragerSymmetry.

Lemma spheric_average_mat_symmetric_witness :
  exists A,
    _spheric_average_mat
      (map (map q) [[1; 2; 3; 4]; [2; 6; 7; 8]; [3; 7; 11; 12]; [4; 8; 12; 16]]%Z)
      0 [0; 1; 2; 3] (Some 2) = Ok A /\
    forall i j, i < 2 -> j < 2 -> entry A i j = entry A j i.
Proof.
  apply (@spheric_average_mat_symmetric _ Qc_scalar Qcanon.Qcrt 4 2 2 0).
  - lia.
  - reflexivity.
  - split; [reflexivity | repeat constructor].
  - repeat constructor.
  - intros a b Ha Hb. simpl in Ha, Hb.
    decompose [or] Ha; decompose [or] Hb; subst; try contradiction; reflexivity.
Defined.

Section AveragerErrors.

Context {F : Type} {SF : Scalar F}.

(** X12.  An index of the block beyond the rows of the matrix makes the
    block averager raise [IndexError]. *)
Theorem spheric_average_mat_index_error (degen l : nat) (mat : matrix F)
  (lst : list nat) :
  0 < degen ->
  Exists (fun a => length mat <= a) lst ->
  _spheric_average_mat mat l lst (Some degen) = Raise IndexError.
Proof.
  intros Hdeg Hex. unfold _spheric_average_mat.
  destruct (degen =? 0) eqn:E; [apply Nat.eqb_eq in E; lia|].
  rewrite (take_Raise mat Hex). reflexivity.
Qed.

(** X13.  A block whose length is not a multiple of [degen] makes the
    block averager raise [ValueError]: for a square matrix and indices
    within it, the reshape to [(nd, degen, nd, degen)] with
    [nd = len(lst) // degen] does not fit the submatrix. *)
Theorem spheric_average_mat_ragged_block (n degen l : nat) (mat : matrix F)
  (lst : list nat) :
  0 < degen ->
  square n mat -> Forall (fun a => a < n) lst ->
  length lst mod degen <> 0 ->
  _spheric_average_mat mat l lst (Some degen) = Raise ValueError.
Proof.
  intros Hdeg Hsq Hlst Hmod. unfold _spheric_average_mat.
  destruct (degen =? 0) eqn:E; [apply Nat.eqb_eq in E; lia|]. clear E.
  pose proof (sub_matrix_Ok Hsq Hlst) as Hsub.
  destruct (take mat lst) as [rows|e]; [|discriminate Hsub].
  cbn [bind] in Hsub |- *. rewrite Hsub. cbn [bind]. clear Hsub rows.
  unfold reshape4.
  rewrite (@length_concat_rows _ (length lst))
    by (apply Forall_forall; intros row Hrow; apply in_map_iff in Hrow;
        destruct Hrow as (a & <- & _); apply length_map).
  rewrite length_map.
  set (N := length lst) in *. set (nd := N / degen).
  assert (Hlt : nd * degen < N).
  { pose proof (Nat.div_mod_eq N degen) as Hdm. unfold nd. nia. }
  destruct (N * N =? nd * degen * nd * degen) eqn:E; [|reflexivity].
  apply Nat.eqb_eq in E. nia.
Qed.

End AveragerErrors.

Lemma spheric_average_mat_index_error_witness :
  _spheric_average_mat (map (map q) [[1; 2]; [2; 6]]%Z) 0 [0; 2] (Some 1)
  = Raise IndexError.
Proof.
  apply (@spheric_average_mat_index_error _ Qc_scalar 1 0).
  - lia.
  - apply Exists_cons_tl. apply Exists_cons_hd. cbn. lia.
Defined.

Lemma spheric_average_mat_ragged_block_witness :
  _spheric_average_mat (map (map q) [[1; 2]; [2; 6]]%Z) 1 [0; 1] (Some 3)
  = Raise ValueError.
Proof.
  apply (@spheric_average_mat_ragged_block _ Qc_scalar 2 3 1).
  - lia.
  - split; [reflexivity | repeat constructor].
  - repeat constructor.
  - cbn. discriminate.
Defined.

(** ** The pre-NAO solver *)

Lemma foldM_Ok_each {St X : Type} (body : St -> X -> result St) (xs : list X)
  (st st' : St) (x : X) :
  foldM body xs st = Ok st' -> In x xs -> exists s s', body s x = Ok s'.
Proof.
  revert st. induction xs as [|y t IH]; intros st H Hin; [contradiction|].
  simpl in H. bind_ok H as s1 Hs1. destruct Hin as [-> | Hin]; eauto.
Qed.

Lemma where_eq_nil (xs : list nat) (l : nat) :
  Forall (fun x => x <> l) xs -> where_eq xs l = [].
Proof.
  intros H. unfold where_eq.
  assert (Hall : forall i, In i (seq 0 (length xs)) -> (nth i xs 0 =? l) = false).
  { intros i Hi. apply in_seq in Hi. apply Nat.eqb_neq.
    rewrite Forall_forall in H. apply H. apply nth_In. lia. }
  induction (seq 0 (length xs)) as [|i t IH]; simpl; [reflexivity|].
  rewrite (Hall i) by (simpl; auto). apply IH.
  intros j Hj. apply Hall. simpl. auto.
Qed.

Section PreNaoErrors.

Context {F : Type} {SF : Scalar F}.
Variable eigh : matrix F -> matrix F -> result (vec F * matrix F).

Lemma block_idx_no_shell (ao_loc bas_ang : list nat) (b0 b1 l : nat) :
  Forall (fun x => x <> l) (slice bas_ang b0 b1) ->
  block_idx ao_loc bas_ang b0 b1 l = Raise ValueError.
Proof.
  intros H. unfold block_idx. rewrite (@where_eq_nil _ _ H). reflexivity.
Qed.

(** X14.  An atom must have every angular momentum up to its highest.
    When the shells of an atom have no shell of some [l] at or below the
    atom's maximum, the turn of the loop for that [l] raises [ValueError]
    ([numpy.hstack] of an empty list) before the test [idx.size < 1] is
    reached, in every state; so [_prenao_sub] does not return for such a
    molecule, whatever the matrices and the eigensolver. *)
Theorem prenao_sub_missing_angular_momentum (mol : Mole) (p s : matrix F)
  (b0 b1 p0 p1 l_max l : nat) :
  In (b0, b1, p0, p1) (mol_aoslice mol) ->
  np_max (slice (map sh_ang (mol_bas mol)) b0 b1) = Ok l_max ->
  l <= l_max ->
  Forall (fun x => x <> l) (slice (map sh_ang (mol_bas mol)) b0 b1) ->
  (forall st, prenao_l eigh mol p s (map sh_ang (mol_bas mol)) b0 b1 st l
              = Raise ValueError) /\
  forall r, _prenao_sub eigh mol p s <> Ok r.
Proof.
  intros Hin Hmax Hl Hno.
  assert (Hturn : forall st,
            prenao_l eigh mol p s (map sh_ang (mol_bas mol)) b0 b1 st l
            = Raise ValueError).
  { intros st. unfold prenao_l. rewrite (@block_idx_no_shell (mol_ao_loc mol) _ _ _ _ Hno). reflexivity. }
  split; [exact Hturn|].
  intros r Hrun. unfold _prenao_sub in Hrun.
  bind_ok Hrun as nao Hnao.
  destruct (@foldM_Ok_each _ _ _ _ _ _ _ Hrun Hin) as (st & st' & Hatom).
  unfold prenao_atom in Hatom. rewrite Hmax in Hatom. cbn [bind] in Hatom.
  assert (Hl_in : In l (seq 0 (l_max + 1))) by (apply in_seq; lia).
  destruct (@foldM_Ok_each _ _ _ _ _ _ _ Hatom Hl_in) as (s1 & s2 & Hbad).
  rewrite Hturn in Hbad. discriminate.
Qed.

(** X15.  An atom without shells stops the solver: when a row of
    [aoslice_by_atom] spans no shell, [bas_ang[b0:b1].max()] raises
    [ValueError] and [_prenao_sub] does not return. *)
Theorem prenao_sub_atom_without_shells (mol : Mole) (p s : matrix F)
  (b0 b1 p0 p1 : nat) :
  In (b0, b1, p0, p1) (mol_aoslice mol) ->
  slice (map sh_ang (mol_bas mol)) b0 b1 = [] ->
  (forall st, prenao_atom eigh mol p s (map sh_ang (mol_bas mol)) st
                (b0, b1, p0, p1) = Raise ValueError) /\
  forall r, _prenao_sub eigh mol p s <> Ok r.
Proof.
  intros Hin Hnil.
  assert (Hturn : forall st,
            prenao_atom eigh mol p s (map sh_ang (mol_bas mol)) st
              (b0, b1, p0, p1) = Raise ValueError).
  { intros st. unfold prenao_atom. rewrite Hnil. reflexivity. }
  split; [exact Hturn|].
  intros r Hrun. unfold _prenao_sub in Hrun.
  bind_ok Hrun as nao Hnao.
  destruct (@foldM_Ok_each _ _ _ _ _ _ _ Hrun Hin) as (st & st' & Hatom).
  rewrite Hturn in Hatom. discriminate.
Qed.

End PreNaoErrors.

(** ** Writing through a list of indices *)

Lemma scatter_spec {A : Type} (d : A) (lst : list nat) :
  forall (xs vals : list A),
  length vals = length lst ->
  Forall (fun i => i < length xs) lst ->
  exists xs',
    scatter xs lst vals = Ok xs' /\
    length xs' = length xs /\
    (forall i, ~ In i lst -> nth i xs' d = nth i xs d) /\
    (NoDup lst -> forall r, r < length lst ->
       nth (nth r lst 0) xs' d = nth r vals d).
Proof.
  induction lst as [|i t IH]; intros xs vals Hlen Hall.
  - destruct vals; [|discriminate]. exists xs. simpl.
    repeat split; auto. intros _ r Hr. lia.
  - destruct vals as [|v vals]; [discriminate|]. simpl in Hlen.
    inversion Hall as [|? ? Hi Ht]; subst. simpl.
    rewrite (setitem_replace xs v Hi). cbn [bind].
    destruct (IH (replace_nth xs i v) vals ltac:(lia)) as (xs' & Hrun & Hl & Hout & Hin).
    { rewrite replace_nth_length. exact Ht. }
    exists xs'. split; [exact Hrun|]. split.
    { rewrite Hl. apply replace_nth_length. }
    split.
    + intros j Hj. rewrite Hout by (intros Hc; apply Hj; simpl; auto).
      rewrite nth_replace_nth.
      destruct (j =? i) eqn:E; [|reflexivity].
      apply Nat.eqb_eq in E. subst. exfalso. apply Hj. simpl. auto.
    + intros Hnd r Hr. inversion Hnd as [|? ? Hni Hnd']; subst.
      destruct r as [|r]; simpl.
      * rewrite (Hout i Hni), nth_replace_nth, Nat.eqb_refl.
        apply Nat.ltb_lt in Hi. rewrite Hi. reflexivity.
      * apply Hin; [assumption | simpl in Hr; lia].
Qed.

Lemma put_spec {A : Type} (d : A) (xs : list A) (lst : list nat) (vals : list A) :
  length vals = length lst ->
  Forall (fun i => i < length xs) lst ->
  exists xs',
    put xs lst vals = Ok xs' /\
    length xs' = length xs /\
    (forall i, ~ In i lst -> nth i xs' d = nth i xs d) /\
    (NoDup lst -> forall r, r < length lst ->
       nth (nth r lst 0) xs' d = nth r vals d).
Proof.
  intros Hlen Hall. unfold put, broadcast_to.
  rewrite Hlen, Nat.eqb_refl. cbn [bind]. apply scatter_spec; assumption.
Qed.

Lemma icolumn_chunks (idx : list nat) (degen nd k : nat) :
  length idx = nd * degen -> k < degen ->
  icolumn (chunks degen nd idx) k =
  Ok (map (fun r => nth (r * degen + k) idx 0) (seq 0 nd)).
Proof.
  intros Hlen Hk. unfold icolumn, chunks. 
  rewrite (@mapM_Ok_map _ _ (fun row => getitem row k) (fun row => nth k row 0)).
  - rewrite map_map. f_equal. apply map_ext_in. intros r Hr. apply in_seq in Hr.
    apply nth_firstn_skipn. assumption.
  - intros row Hrow. apply in_map_iff in Hrow. destruct Hrow as (r & <- & Hr).
    apply in_seq in Hr. apply getitem_nth.
    rewrite length_firstn, length_skipn. nia.
Qed.

Lemma reshape_rows_Ok (idx : list nat) (degen nd : nat) :
  0 < degen -> length idx = nd * degen ->
  reshape_rows idx degen = Ok (chunks degen nd idx).
Proof.
  intros Hdeg Hlen. unfold reshape_rows.
  destruct (degen =? 0) eqn:E; [apply Nat.eqb_eq in E; lia|].
  rewrite Hlen, Nat.Div0.mod_mul, Nat.div_mul by lia. reflexivity.
Qed.

Lemma component_indices_length (idx : list nat) (degen nd k : nat) :
  length (component_indices idx degen nd k) = nd.
Proof. unfold component_indices. rewrite length_map, length_seq. reflexivity. Qed.

Lemma component_indices_nth (idx : list nat) (degen nd k r : nat) :
  r < nd ->
  nth r (component_indices idx degen nd k) 0 = nth (r * degen + k) idx 0.
Proof.
  intros Hr. unfold component_indices.
  set (f := fun r => nth (r * degen + k) idx 0).
  rewrite (nth_indep (map f (seq 0 nd)) 0 (f 0))
    by (rewrite length_map, length_seq; assumption).
  rewrite map_nth, seq_nth by assumption. reflexivity.
Qed.

Lemma component_indices_in (idx : list nat) (degen nd k a : nat) :
  In a (component_indices idx degen nd k) <->
  exists r, r < nd /\ a = nth (r * degen + k) idx 0.
Proof.
  unfold component_indices. rewrite in_map_iff. split.
  - intros (r & <- & Hr). apply in_seq in Hr. exists r. split; [lia | reflexivity].
  - intros (r & Hr & ->). exists r. split; [reflexivity|]. apply in_seq. lia.
Qed.

Lemma component_indices_incl (idx : list nat) (degen nd k a : nat) :
  length idx = nd * degen -> k < degen ->
  In a (component_indices idx degen nd k) -> In a idx.
Proof.
  intros Hlen Hk Hin. apply component_indices_in in Hin.
  destruct Hin as (r & Hr & ->). apply nth_In. nia.
Qed.

Lemma nth_NoDup_inj (l : list nat) (i j : nat) :
  NoDup l -> i < length l -> j < length l -> nth i l 0 = nth j l 0 -> i = j.
Proof.
  intros Hnd Hi Hj Heq. rewrite (NoDup_nth l 0) in Hnd. auto.
Qed.

Lemma component_indices_NoDup (idx : list nat) (degen nd k : nat) :
  length idx = nd * degen -> k < degen -> NoDup idx ->
  NoDup (component_indices idx degen nd k).
Proof.
  intros Hlen Hk Hnd. apply (NoDup_nth _ 0).
  intros i j Hi Hj. rewrite component_indices_length in Hi, Hj.
  rewrite !component_indices_nth by assumption. intros Heq.
  apply nth_NoDup_inj in Heq; [nia | assumption | nia | nia].
Qed.

Lemma component_indices_disjoint (idx : list nat) (degen nd k k' a : nat) :
  length idx = nd * degen -> k < degen -> k' < degen -> NoDup idx ->
  In a (component_indices idx degen nd k) ->
  In a (component_indices idx degen nd k') -> k = k'.
Proof.
  intros Hlen Hk Hk' Hnd H1 H2.
  apply component_indices_in in H1. destruct H1 as (r & Hr & ->).
  apply component_indices_in in H2. destruct H2 as (r' & Hr' & Heq).
  apply nth_NoDup_inj in Heq; [|assumption|nia|nia].
  assert (Hmod : (r * degen + k) mod degen = (r' * degen + k') mod degen)
    by (rewrite Heq; reflexivity).
  rewrite !(Nat.add_comm _ k), !(Nat.add_comm _ k'), !Nat.Div0.mod_add in Hmod.
  rewrite !Nat.mod_small in Hmod by assumption. exact Hmod.
Qed.

Section WriteBlock.

Context {F : Type} {SF : Scalar F}.

Lemma has_shape_row (m n a : nat) (A : matrix F) :
  has_shape m n A -> a < m -> length (nth a A []) = n.
Proof.
  intros [Hlen Hrows] Ha. rewrite Forall_forall in Hrows.
  apply Hrows. apply nth_In. lia.
Qed.

Lemma has_shape_replace (m n a : nat) (A : matrix F) (row : vec F) :
  has_shape m n A -> length row = n -> has_shape m n (replace_nth A a row).
Proof.
  intros [Hlen Hrows] Hrow. split; [rewrite replace_nth_length; exact Hlen|].
  apply Forall_forall. intros r Hr. apply In_nth_error in Hr.
  destruct Hr as [j Hj]. rewrite nth_error_replace_nth in Hj.
  destruct ((j =? a) && (a <? length A)).
  - injection Hj as <-. exact Hrow.
  - apply nth_error_In in Hj. rewrite Forall_forall in Hrows. auto.
Qed.

Lemma put_row_spec (n i0 : nat) (cao : matrix F) (ilst : list nat) (vals : vec F) :
  has_shape n n cao -> i0 < n ->
  length vals = length ilst -> Forall (fun b => b < n) ilst ->
  exists cao',
    put_row cao i0 ilst vals = Ok cao' /\
    has_shape n n cao' /\
    (forall a, a <> i0 -> nth a cao' [] = nth a cao []) /\
    (forall b, ~ In b ilst -> entry cao' i0 b = entry cao i0 b) /\
    (NoDup ilst -> forall j, j < length ilst ->
       entry cao' i0 (nth j ilst 0) = nth j vals zero).
Proof.
  intros Hsh Hi0 Hlen Hall. unfold put_row.
  assert (Hrow : length (nth i0 cao []) = n) by (eapply has_shape_row; eassumption).
  rewrite (@getitem_nth _ cao i0 []) by (destruct Hsh as [-> _]; exact Hi0).
  cbn [bind].
  destruct (@put_spec _ zero (nth i0 cao []) ilst vals Hlen)
    as (row' & Hput & Hl & Hout & Hin).
  { rewrite Hrow. exact Hall. }
  rewrite Hput. cbn [bind].
  rewrite setitem_replace by (destruct Hsh as [-> _]; exact Hi0).
  eexists. split; [reflexivity|].
  assert (Hi0' : (i0 <? length cao) = true)
    by (apply Nat.ltb_lt; destruct Hsh as [-> _]; exact Hi0).
  split; [apply has_shape_replace; [assumption | congruence]|].
  split; [|split].
  - intros a Ha. rewrite nth_replace_nth.
    destruct (a =? i0) eqn:E; [apply Nat.eqb_eq in E; contradiction|].
    reflexivity.
  - intros b Hb. unfold entry. rewrite nth_replace_nth, Nat.eqb_refl, Hi0'.
    cbn [andb]. apply Hout. exact Hb.
  - intros Hnd j Hj. unfold entry. rewrite nth_replace_nth, Nat.eqb_refl, Hi0'.
    cbn [andb]. apply Hin; assumption.
Qed.

Lemma write_rows_spec (n : nat) (v : matrix F) (ilst : list nat)
  (rs : list (nat * nat)) :
  forall cao,
  has_shape n n cao ->
  Forall (fun b => b < n) ilst ->
  NoDup (map snd rs) ->
  Forall (fun r => fst r < length v /\ snd r < n /\
                   length (nth (fst r) v []) = length ilst) rs ->
  exists cao',
    foldM (write_row v ilst) rs cao = Ok cao' /\
    has_shape n n cao' /\
    (forall a, ~ In a (map snd rs) -> nth a cao' [] = nth a cao []) /\
    (forall i i0 b, In (i, i0) rs -> ~ In b ilst ->
       entry cao' i0 b = entry cao i0 b) /\
    (NoDup ilst -> forall i i0 j, In (i, i0) rs -> j < length ilst ->
       entry cao' i0 (nth j ilst 0) = entry v i j).
Proof.
  induction rs as [|[i i0] t IH]; intros cao Hsh Hall Hnd Hrs.
  - exists cao. split; [reflexivity|]. split; [assumption|].
    split; [reflexivity|]. split; intros; contradiction.
  - inversion Hnd as [|? ? Hni Hnd']; subst.
    inversion Hrs as [|? ? (Hi & Hi0 & Hvi) Hrs']; subst. cbn [fst snd] in *.
    simpl. rewrite (@getitem_nth _ v i []) by exact Hi. cbn [bind].
    destruct (@put_row_spec n i0 cao ilst (nth i v []) Hsh Hi0 Hvi Hall)
      as (cao1 & Hput & Hsh1 & Hother & Hout & Hin).
    rewrite Hput. cbn [bind].
    destruct (IH cao1 Hsh1 Hall Hnd' Hrs')
      as (cao' & Hrun & Hsh' & Hrows & Hout' & Hin').
    exists cao'. split; [exact Hrun|]. split; [exact Hsh'|].
    split; [|split].
    + intros a Ha. rewrite Hrows by (intros Hc; apply Ha; simpl; auto).
      apply Hother. intros ->. apply Ha. simpl. auto.
    + intros i' i0' b [Heq | Hin2] Hb.
      * inversion Heq; subst i' i0'. unfold entry at 1.
        rewrite (Hrows i0 Hni). apply Hout. exact Hb.
      * rewrite (Hout' i' i0' b Hin2 Hb). unfold entry.
        rewrite Hother; [reflexivity|].
        intros ->. apply Hni. apply in_map_iff. exists (i', i0). auto.
    + intros Hndl i' i0' j [Heq | Hin2] Hj.
      * inversion Heq; subst i' i0'. unfold entry at 1.
        rewrite (Hrows i0 Hni). apply (Hin Hndl j Hj).
      * apply Hin'; assumption.
Qed.

End WriteBlock.

Lemma combine_seq_in (a : nat) (l : list nat) (i i0 : nat) :
  In (i, i0) (combine (seq a (length l)) l) <->
  a <= i < a + length l /\ i0 = nth (i - a) l 0.
Proof.
  revert a. induction l as [|x t IH]; intros a; simpl.
  - split; [contradiction | lia].
  - rewrite IH. split.
    + intros [Heq | [Hr ->]].
      * inversion Heq; subst. rewrite Nat.sub_diag. split; [lia | reflexivity].
      * split; [lia|]. replace (i - a) with (S (i - S a)) by lia. reflexivity.
    + intros [Hr ->]. destruct (Nat.eq_dec i a) as [->|Hne].
      * left. rewrite Nat.sub_diag. reflexivity.
      * right. split; [lia|]. replace (i - a) with (S (i - S a)) by lia.
        reflexivity.
Qed.

Lemma combine_seq_snd (a : nat) (l : list nat) :
  map snd (combine (seq a (length l)) l) = l.
Proof.
  revert a. induction l as [|x t IH]; intros a; simpl; [reflexivity|].
  rewrite IH. reflexivity.
Qed.

Section ComponentSpec.

Context {F : Type} {SF : Scalar F}.

(** One turn of [for k in range(degen)], on a block of distinct indices. *)
Lemma write_component_spec (n nd degen k : nat) (idx : list nat)
  (e : vec F) (v : matrix F) (occ : vec F) (cao : matrix F) :
  length idx = nd * degen -> k < degen -> NoDup idx ->
  Forall (fun a => a < n) idx ->
  length e = nd -> has_shape nd nd v ->
  length occ = n -> has_shape n n cao ->
  let ilst := component_indices idx degen nd k in
  exists occ' cao',
    write_component e v (chunks degen nd idx) (occ, cao) k = Ok (occ', cao') /\
    length occ' = n /\ has_shape n n cao' /\
    (forall a, ~ In a ilst -> nth a occ' zero = nth a occ zero) /\
    (forall r, r < nd -> nth (nth r ilst 0) occ' zero = nth r e zero) /\
    (forall a b, ~ (In a ilst /\ In b ilst) -> entry cao' a b = entry cao a b) /\
    (forall i j, i < nd -> j < nd ->
       entry cao' (nth i ilst 0) (nth j ilst 0) = entry v i j).
Proof.
  intros Hlen Hk Hnd Hall He Hv Hocc Hcao ilst.
  assert (Hil_len : length ilst = nd) by apply component_indices_length.
  assert (Hil_nd : NoDup ilst) by (apply component_indices_NoDup; assumption).
  assert (Hil_all : Forall (fun a => a < n) ilst).
  { apply Forall_forall. intros a Ha. rewrite Forall_forall in Hall.
    apply Hall. eapply component_indices_incl; eassumption. }
  unfold write_component. rewrite (@icolumn_chunks idx degen nd k Hlen Hk).
  cbn [bind].
  change (map (fun r => nth (r * degen + k) idx 0) (seq 0 nd)) with ilst.
  destruct (@put_spec _ zero occ ilst e ltac:(congruence))
    as (occ' & Hput & Hl & Hout & Hin).
  { rewrite Hocc. exact Hil_all. }
  rewrite Hput. cbn [bind].
  destruct (@write_rows_spec F SF n v ilst (combine (seq 0 (length ilst)) ilst)
              cao Hcao Hil_all)
    as (cao' & Hrun & Hsh & Hrows & Hcout & Hcin).
  { rewrite combine_seq_snd. exact Hil_nd. }
  { apply Forall_forall. intros [i i0] Hr. apply combine_seq_in in Hr.
    destruct Hr as [Hi ->]. cbn [fst snd].
    destruct Hv as [Hvl Hvr]. rewrite Hvl.
    split; [lia|]. split.
    - rewrite Forall_forall in Hil_all. apply Hil_all. apply nth_In. lia.
    - rewrite Forall_forall in Hvr. rewrite Hil_len. apply Hvr.
      apply nth_In. lia. }
  rewrite Hrun. cbn [bind]. exists occ', cao'.
  split; [reflexivity|]. split; [congruence|]. split; [exact Hsh|].
  split; [exact Hout|]. split.
  { intros r Hr. apply Hin; [exact Hil_nd | lia]. }
  split.
  - intros a b Hab.
    destruct (in_dec Nat.eq_dec a ilst) as [Ha | Ha].
    + assert (Hb : ~ In b ilst) by tauto.
      apply In_nth with (d := 0) in Ha. destruct Ha as (i & Hi & <-).
      apply (Hcout i); [|exact Hb].
      apply combine_seq_in. split; [lia|]. rewrite Nat.sub_0_r. reflexivity.
    + unfold entry. rewrite Hrows; [reflexivity|].
      rewrite combine_seq_snd. exact Ha.
  - intros i j Hi Hj. apply (Hcin Hil_nd i); [|lia].
    apply combine_seq_in. split; [lia|]. rewrite Nat.sub_0_r. reflexivity.
Qed.

End ComponentSpec.

Section BlockSpec.

Context {F : Type} {SF : Scalar F}.

(** The whole of [for k in range(degen)], on a block of distinct indices:
    [occ] receives [e] on each component, [cao] receives [v] on each
    component, and nothing else changes. *)
Lemma write_block_spec (n nd degen : nat) (idx : list nat)
  (e : vec F) (v : matrix F) (occ : vec F) (cao : matrix F) :
  length idx = nd * degen -> NoDup idx ->
  Forall (fun a => a < n) idx ->
  length e = nd -> has_shape nd nd v ->
  length occ = n -> has_shape n n cao ->
  exists occ' cao',
    foldM (write_component e v (chunks degen nd idx)) (seq 0 degen) (occ, cao)
      = Ok (occ', cao') /\
    length occ' = n /\ has_shape n n cao' /\
    (forall a, ~ In a idx -> nth a occ' zero = nth a occ zero) /\
    (forall k r, k < degen -> r < nd ->
       nth (nth (r * degen + k) idx 0) occ' zero = nth r e zero) /\
    (forall a b, ~ same_component idx degen nd a b ->
       entry cao' a b = entry cao a b) /\
    (forall k i j, k < degen -> i < nd -> j < nd ->
       entry cao' (nth (i * degen + k) idx 0) (nth (j * degen + k) idx 0)
       = entry v i j).
Proof.
  intros Hlen Hnd Hall He Hv Hocc Hcao.
  set (comp := component_indices idx degen nd).
  destruct (@foldM_seq_total _
    (fun k (st : vec F * matrix F) =>
       length (fst st) = n /\ has_shape n n (snd st) /\
       (forall a, (forall k', k' < k -> ~ In a (comp k')) ->
          nth a (fst st) zero = nth a occ zero) /\
       (forall k' r, k' < k -> r < nd ->
          nth (nth (r * degen + k') idx 0) (fst st) zero = nth r e zero) /\
       (forall a b, (forall k', k' < k -> ~ (In a (comp k') /\ In b (comp k'))) ->
          entry (snd st) a b = entry cao a b) /\
       (forall k' i j, k' < k -> i < nd -> j < nd ->
          entry (snd st) (nth (i * degen + k') idx 0) (nth (j * degen + k') idx 0)
          = entry v i j))
    (write_component e v (chunks degen nd idx)) degen 0 (occ, cao))
    as [[occ' cao'] [Hrun HP]].
  - cbn [fst snd]. split; [assumption|]. split; [assumption|].
    split; [reflexivity|]. split; [intros; lia|].
    split; [reflexivity|]. intros; lia.
  - intros k [occ_k cao_k] [_ Hk] (Hl & Hsh & Hocc_out & Hocc_in & Hcao_out & Hcao_in).
    cbn [fst snd] in *. cbn [Nat.add] in Hk.
    destruct (@write_component_spec F SF n nd degen k idx e v occ_k cao_k
                Hlen Hk Hnd Hall He Hv Hl Hsh)
      as (occ1 & cao1 & Hstep & Hl1 & Hsh1 & Ho_out & Ho_in & Hc_out & Hc_in).
    fold (comp k) in Ho_out, Ho_in, Hc_out, Hc_in.
    exists (occ1, cao1). split; [exact Hstep|]. cbn [fst snd].
    assert (Hother : forall k' r, k' < k -> r < nd ->
              ~ In (nth (r * degen + k') idx 0) (comp k)).
    { intros k' r Hk' Hr Hc.
      assert (k' = k); [|lia].
      apply (@component_indices_disjoint idx degen nd k' k
               (nth (r * degen + k') idx 0) Hlen); try lia; try assumption.
      apply component_indices_in. exists r. auto. }
    split; [assumption|]. split; [assumption|].
    split; [|split; [|split]].
    + intros a Ha. rewrite Ho_out by (apply Ha; lia).
      apply Hocc_out. intros k' Hk'. apply Ha. lia.
    + intros k' r Hk' Hr. destruct (Nat.eq_dec k' k) as [->|Hne].
      * rewrite <- (Ho_in r Hr). unfold comp.
        rewrite component_indices_nth by assumption. reflexivity.
      * rewrite Ho_out by (apply Hother; lia). apply Hocc_in; lia.
    + intros a b Hab. rewrite Hc_out by (apply Hab; lia).
      apply Hcao_out. intros k' Hk'. apply Hab. lia.
    + intros k' i j Hk' Hi Hj. destruct (Nat.eq_dec k' k) as [->|Hne].
      * rewrite <- (Hc_in i j Hi Hj). unfold comp.
        rewrite !component_indices_nth by assumption. reflexivity.
      * rewrite Hc_out.
        -- apply Hcao_in; lia.
        -- intros [Ha _]. revert Ha. apply Hother; lia.
  - cbn [fst snd Nat.add] in HP.
    destruct HP as (Hl & Hsh & Hocc_out & Hocc_in & Hcao_out & Hcao_in).
    exists occ', cao'. split; [exact Hrun|].
    split; [assumption|]. split; [assumption|].
    split; [|split; [|split]].
    + intros a Ha. apply Hocc_out. intros k' Hk' Hc. apply Ha.
      eapply component_indices_incl; eassumption.
    + intros k r Hk Hr. apply Hocc_in; assumption.
    + intros a b Hab. apply Hcao_out. intros k' Hk' [Ha Hb]. apply Hab.
      apply component_indices_in in Ha. destruct Ha as (i & Hi & ->).
      apply component_indices_in in Hb. destruct Hb as (j & Hj & ->).
      exists k', i, j. auto.
    + intros k i j Hk Hi Hj. apply Hcao_in; assumption.
Qed.

End BlockSpec.

Lemma degen_of_pos (cart : bool) (l : nat) : 0 < degen_of cart l.
Proof.
  unfold degen_of. destruct cart; [|lia].
  apply Nat.div_str_pos. nia.
Qed.

Lemma StronglySorted_app {A : Type} (R : A -> A -> Prop) (l1 l2 : list A) :
  StronglySorted R l1 -> StronglySorted R l2 ->
  (forall x y, In x l1 -> In y l2 -> R x y) ->
  StronglySorted R (l1 ++ l2).
Proof.
  induction l1 as [|a t IH]; intros H1 H2 HR; simpl; [assumption|].
  inversion H1 as [|? ? Ht Ha]; subst. constructor.
  - apply IH; [assumption..|]. intros x y Hx Hy. apply HR; simpl; auto.
  - apply Forall_app. split; [assumption|].
    apply Forall_forall. intros y Hy. apply HR; simpl; auto.
Qed.

Lemma StronglySorted_rev {A : Type} (R : A -> A -> Prop) (l : list A) :
  StronglySorted R l -> StronglySorted (fun a b => R b a) (rev l).
Proof.
  induction 1 as [|a t Ht IH Ha]; simpl; [constructor|].
  apply StronglySorted_app; [assumption | repeat constructor |].
  intros x y Hx [<- | []]. apply in_rev in Hx.
  rewrite Forall_forall in Ha. auto.
Qed.

Section OccupationOrder.

Context {F : Type} {SF : Scalar F}.
Variable eigh : matrix F -> matrix F -> result (vec F * matrix F).

Lemma has_shape_map_rev (m n : nat) (v : matrix F) :
  has_shape m n v -> has_shape m n (map (@rev F) v).
Proof.
  intros [Hl Hr]. split; [rewrite length_map; exact Hl|].
  apply Forall_forall. intros row Hrow. apply in_map_iff in Hrow.
  destruct Hrow as (r & <- & Hin). rewrite length_rev.
  rewrite Forall_forall in Hr. auto.
Qed.

(** What one block does to the state, given what the eigensolver
    returned for it. *)
Lemma prenao_block_spec (n nd l : nat) (cart : bool) (p s p_frag s_frag : matrix F)
  (idx : list nat) (e : vec F) (v : matrix F) (occ : vec F) (cao : matrix F) :
  let degen := degen_of cart l in
  length idx = nd * degen -> NoDup idx -> Forall (fun a => a < n) idx ->
  length occ = n -> has_shape n n cao ->
  _spheric_average_mat p l idx (Some degen) = Ok p_frag ->
  _spheric_average_mat s l idx (Some degen) = Ok s_frag ->
  eigh p_frag s_frag = Ok (e, v) ->
  length e = nd -> has_shape nd nd v ->
  exists occ' cao',
    prenao_block eigh cart p s l idx (occ, cao) = Ok (occ', cao') /\
    length occ' = n /\ has_shape n n cao' /\
    (forall a, ~ In a idx -> nth a occ' zero = nth a occ zero) /\
    (forall k r, k < degen -> r < nd ->
       nth (nth (r * degen + k) idx 0) occ' zero = nth r (rev e) zero) /\
    (forall a b, ~ same_component idx degen nd a b ->
       entry cao' a b = entry cao a b) /\
    (forall k i j, k < degen -> i < nd -> j < nd ->
       entry cao' (nth (i * degen + k) idx 0) (nth (j * degen + k) idx 0)
       = entry (map (@rev F) v) i j).
Proof.
  intros degen Hlen Hnd Hall Hocc Hcao Hp Hs He Hel Hv.
  unfold prenao_block. fold degen. rewrite Hp, Hs. cbn [bind].
  rewrite He. cbn [bind].
  rewrite (@reshape_rows_Ok idx degen nd (degen_of_pos cart l) Hlen). cbn [bind].
  apply (@write_block_spec F SF n nd degen idx (rev e) (map (@rev F) v) occ cao);
    try assumption.
  - rewrite length_rev. exact Hel.
  - apply has_shape_map_rev. exact Hv.
Qed.

(** X16.  Occupations of a block are written highest first.  For a
    block of distinct indices, when the eigensolver returns [nd]
    eigenvalues in ascending order (as [scipy.linalg.eigh] does) with an
    [nd] by [nd] matrix, [prenao_block] returns, and on each of the [degen]
    components the occupations at the block's indices, read in radial
    order, are the eigenvalues in reverse order: a non-increasing
    sequence. *)
Theorem prenao_block_occupations_descending (n nd l : nat) (cart : bool)
  (p s p_frag s_frag : matrix F) (idx : list nat) (e : vec F) (v : matrix F)
  (occ : vec F) (cao : matrix F) :
  let degen := degen_of cart l in
  length idx = nd * degen -> NoDup idx -> Forall (fun a => a < n) idx ->
  length occ = n -> has_shape n n cao ->
  _spheric_average_mat p l idx (Some degen) = Ok p_frag ->
  _spheric_average_mat s l idx (Some degen) = Ok s_frag ->
  eigh p_frag s_frag = Ok (e, v) ->
  length e = nd -> has_shape nd nd v -> ascending e ->
  exists occ' cao',
    prenao_block eigh cart p s l idx (occ, cao) = Ok (occ', cao') /\
    forall k, k < degen ->
      map (fun a => nth a occ' zero) (component_indices idx degen nd k) = rev e /\
      non_increasing
        (map (fun a => nth a occ' zero) (component_indices idx degen nd k)).
Proof.
  intros degen Hlen Hnd Hall Hocc Hcao Hp Hs He Hel Hv Hasc.
  destruct (@prenao_block_spec n nd l cart p s p_frag s_frag idx e v occ cao
              Hlen Hnd Hall Hocc Hcao Hp Hs He Hel Hv)
    as (occ' & cao' & Hrun & _ & _ & _ & Hin & _).
  exists occ', cao'. split; [exact Hrun|]. intros k Hk.
  assert (Heq : map (fun a => nth a occ' zero)
                    (component_indices idx degen nd k) = rev e).
  { apply nth_ext with (d := zero) (d' := zero).
    - rewrite length_map, component_indices_length, length_rev. congruence.
    - intros r Hr. rewrite length_map, component_indices_length in Hr.
      set (f := fun a => nth a occ' zero).
      rewrite (nth_indep (map f _) zero (f 0))
        by (rewrite length_map, component_indices_length; assumption).
      rewrite map_nth, component_indices_nth by assumption.
      apply Hin; assumption. }
  split; [exact Heq|]. rewrite Heq. apply StronglySorted_rev. exact Hasc.
Qed.

End OccupationOrder.

Lemma prenao_block_occupations_descending_witness :
  exists occ' cao',
    prenao_block eigh_diag false [[q 1; q 0]; [q 0; q 8]] (eye 2) 0 [0; 1]
      (zeros 2, zeros2 2 2) = Ok (occ', cao') /\
    forall k, k < degen_of false 0 ->
      map (fun a => nth a occ' zero) (component_indices [0; 1] (degen_of false 0) 2 k)
        = rev [q 1; q 8] /\
      non_increasing
        (map (fun a => nth a occ' zero)
             (component_indices [0; 1] (degen_of false 0) 2 k)).
Proof.
  eapply (@prenao_block_occupations_descending _ Qc_scalar eigh_diag 2 2 0 false
            [[q 1; q 0]; [q 0; q 8]] (eye 2) _ _ [0; 1] [q 1; q 8] (eye 2)).
  - reflexivity.
  - repeat constructor; simpl; intuition lia.
  - repeat constructor.
  - reflexivity.
  - split; [reflexivity | repeat constructor].
  - vm_compute. reflexivity.
  - vm_compute. reflexivity.
  - vm_compute. reflexivity.
  - reflexivity.
  - split; [reflexivity | repeat constructor].
  - repeat constructor.
Defined.

Lemma prenao_sub_missing_angular_momentum_witness :
  (forall st, prenao_l eigh_diag p_only_atom (eye 3) (eye 3)
                (map sh_ang (mol_bas p_only_atom)) 0 1 st 0
              = Raise ValueError) /\
  forall r, _prenao_sub eigh_diag p_only_atom (eye 3) (eye 3) <> Ok r.
Proof.
  apply (@prenao_sub_missing_angular_momentum _ Qc_scalar eigh_diag p_only_atom
           (eye 3) (eye 3) 0 1 0 3 1 0).
  - left. reflexivity.
  - reflexivity.
  - lia.
  - repeat constructor. discriminate.
Defined.

Lemma prenao_sub_atom_without_shells_witness :
  (forall st, prenao_atom eigh_diag bare_second_atom (eye 1) (eye 1)
                (map sh_ang (mol_bas bare_second_atom)) st (1, 1, 1, 1)
              = Raise ValueError) /\
  forall r, _prenao_sub eigh_diag bare_second_atom (eye 1) (eye 1) <> Ok r.
Proof.
  apply (@prenao_sub_atom_without_shells _ Qc_scalar eigh_diag bare_second_atom
           (eye 1) (eye 1) 1 1 1 1).
  - right. left. reflexivity.
  - reflexivity.
Defined.

(** ** The store: what a computation leaves alone *)

Section StoreRules.

Context {F : Type} {SF : Scalar F}.

Lemma heap_ext_refl (n0 : nat) (h : list (ndarray F)) : heap_ext n0 h h.
Proof. split; auto. Qed.

Lemma heap_ext_trans (n0 : nat) (h1 h2 h3 : list (ndarray F)) :
  heap_ext n0 h1 h2 -> heap_ext n0 h2 h3 -> heap_ext n0 h1 h3.
Proof.
  intros [Hl1 H1] [Hl2 H2]. split; [lia|].
  intros r Hr. rewrite H2, H1 by assumption. reflexivity.
Qed.

Lemma quiet_ret {A : Type} (n0 : nat) (a : A) (Q : A -> Prop) :
  Q a -> quiet n0 (@ret F A a) Q.
Proof.
  intros HQ w Hw. cbn. split; [apply heap_ext_refl|]. split; [reflexivity|].
  intros a' H. inversion H. subst. exact HQ.
Qed.

Lemma quiet_lift {A : Type} (n0 : nat) (r : result A) (Q : A -> Prop) :
  (forall a, r = Ok a -> Q a) -> quiet n0 (@lift F A r) Q.
Proof.
  intros HQ w Hw. cbn. split; [apply heap_ext_refl|]. split; [reflexivity|].
  exact HQ.
Qed.

Lemma quiet_bind {A B : Type} (n0 : nat) (m : M F A) (k : A -> M F B)
  (Q : A -> Prop) (Q' : B -> Prop) :
  quiet n0 m Q -> (forall a, Q a -> quiet n0 (k a) Q') ->
  quiet n0 (mbind m k) Q'.
Proof.
  intros Hm Hk w Hw. unfold mbind.
  destruct (Hm w Hw) as (Hext & Hwarn & HQ).
  destruct (m w) as [[a|e] w1] eqn:E; cbn [fst snd] in *.
  - assert (Hw1 : n0 <= length (heap w1)) by (destruct Hext; lia).
    destruct (Hk a (HQ a eq_refl) w1 Hw1) as (Hext2 & Hwarn2 & HQ2).
    split; [eapply heap_ext_trans; eassumption|].
    split; [congruence | exact HQ2].
  - split; [exact Hext|]. split; [exact Hwarn|]. intros b Hb. discriminate.
Qed.

Lemma quiet_weaken {A : Type} (n0 : nat) (m : M F A) (Q Q' : A -> Prop) :
  quiet n0 m Q -> (forall a, Q a -> Q' a) -> quiet n0 m Q'.
Proof.
  intros Hm HQ w Hw. destruct (Hm w Hw) as (H1 & H2 & H3).
  split; [exact H1|]. split; [exact H2|]. intros a Ha. auto.
Qed.

Lemma quiet_alloc (n0 : nat) (a : ndarray F) :
  quiet n0 (alloc a) (fun r => n0 <= r).
Proof.
  intros w Hw. cbn. split; [|split].
  - split; [rewrite length_app; lia|].
    intros r Hr. apply nth_error_app1. lia.
  - reflexivity.
  - intros r H. inversion H. subst. exact Hw.
Qed.

Lemma quiet_load (n0 : nat) (r : ref) :
  quiet n0 (load r) (fun _ : ndarray F => True).
Proof.
  intros w Hw. cbn. split; [apply heap_ext_refl|]. split; [reflexivity|]. auto.
Qed.

Lemma quiet_store (n0 : nat) (r : ref) (a : ndarray F) :
  n0 <= r -> quiet n0 (store r a) (fun _ => True).
Proof.
  intros Hr w Hw. unfold store.
  destruct (setitem (heap w) r a) as [h|e] eqn:E; cbn [fst snd heap warnings].
  - apply setitem_Ok in E. destruct E as [Hlt ->].
    split; [|split; [reflexivity | auto]].
    split; [rewrite replace_nth_length; lia|].
    intros r' Hr'. rewrite nth_error_replace_nth.
    destruct (r' =? r) eqn:E; [apply Nat.eqb_eq in E; lia | reflexivity].
  - split; [apply heap_ext_refl|]. split; [reflexivity|]. intros; discriminate.
Qed.

Lemma quiet_load1 (n0 : nat) (r : ref) :
  quiet n0 (load1 r) (fun _ : vec F => True).
Proof.
  unfold load1. eapply quiet_bind; [apply quiet_load|].
  intros [v|m] _; [apply quiet_ret | apply quiet_lift]; auto.
Qed.

Lemma quiet_load2 (n0 : nat) (r : ref) :
  quiet n0 (load2 r) (fun _ : array2 F => True).
Proof.
  unfold load2. eapply quiet_bind; [apply quiet_load|].
  intros [v|m] _; [apply quiet_lift | apply quiet_ret]; auto.
Qed.

End StoreRules.

Section NumpyRules.

Context {F : Type} {SF : Scalar F}.

Ltac quiet_reads :=
  repeat (eapply quiet_bind;
          [first [apply quiet_load2 | apply quiet_load1 | apply quiet_load
                 | apply quiet_lift; intros; exact I]
          | intros ? _]).

Lemma quiet_np_copy (n0 : nat) (a : ref) :
  quiet n0 (np_copy (F:=F) a) (fun r => n0 <= r).
Proof. unfold np_copy. quiet_reads. apply quiet_alloc. Qed.

Lemma quiet_np_take_cols (n0 : nat) (a : ref) (lst : list nat) :
  quiet n0 (np_take_cols (F:=F) a lst) (fun r => n0 <= r).
Proof. unfold np_take_cols. quiet_reads. apply quiet_alloc. Qed.

Lemma quiet_np_take (n0 : nat) (a : ref) (lst : list nat) :
  quiet n0 (np_take (F:=F) a lst) (fun r => n0 <= r).
Proof. unfold np_take. quiet_reads. apply quiet_alloc. Qed.

Lemma quiet_np_conjT (n0 : nat) (a : ref) :
  quiet n0 (np_conjT (F:=F) a) (fun r => n0 <= r).
Proof. unfold np_conjT. quiet_reads. apply quiet_alloc. Qed.

Lemma quiet_lib_dot (n0 : nat) (a b : ref) :
  quiet n0 (lib_dot (F:=F) a b) (fun r => n0 <= r).
Proof. unfold lib_dot. quiet_reads. apply quiet_alloc. Qed.

Lemma quiet_np_sub (n0 : nat) (a b : ref) :
  quiet n0 (np_sub (F:=F) a b) (fun r => n0 <= r).
Proof.
  unfold np_sub. quiet_reads. apply quiet_alloc.
Qed.

Lemma quiet_np_isub (n0 : nat) (a b : ref) :
  n0 <= a -> quiet n0 (np_isub (F:=F) a b) (fun _ => True).
Proof.
  intros Ha. unfold np_isub. quiet_reads. apply quiet_store. exact Ha.
Qed.

Lemma quiet_np_put_cols (n0 : nat) (a : ref) (lst : list nat) (b : ref) :
  n0 <= a -> quiet n0 (np_put_cols (F:=F) a lst b) (fun _ => True).
Proof.
  intros Ha. unfold np_put_cols. quiet_reads. apply quiet_store. exact Ha.
Qed.

Lemma quiet_gram (n0 : nat) (c s : ref) :
  quiet n0 (gram (F:=F) c s) (fun r => n0 <= r).
Proof.
  unfold gram.
  eapply quiet_bind; [apply quiet_np_conjT | intros ct _].
  eapply quiet_bind; [apply quiet_lib_dot | intros x _].
  apply quiet_lib_dot.
Qed.

Lemma quiet_projection (n0 : nat) (c1 s c : ref) :
  quiet n0 (projection (F:=F) c1 s c) (fun r => n0 <= r).
Proof.
  unfold projection.
  eapply quiet_bind; [apply quiet_np_conjT | intros c1t _].
  eapply quiet_bind; [apply quiet_lib_dot | intros x _].
  eapply quiet_bind; [apply quiet_lib_dot | intros y _].
  apply quiet_lib_dot.
Qed.

Lemma quiet_call_lowdin (n0 : nat) (lowdin : array2 F -> result (array2 F))
  (s1 : ref) :
  quiet n0 (call_lowdin lowdin s1) (fun r => n0 <= r).
Proof. unfold call_lowdin. quiet_reads. apply quiet_alloc. Qed.

Lemma quiet_call_weight_orth (n0 : nat)
  (weight_orth : array2 F -> vec F -> result (array2 F)) (s1 wt : ref) :
  quiet n0 (call_weight_orth weight_orth s1 wt) (fun r => n0 <= r).
Proof. unfold call_weight_orth. quiet_reads. apply quiet_alloc. Qed.

End NumpyRules.

(** ** The assembler *)

Section NaoSubFrame.

Context {F : Type} {SF : Scalar F}.

Variable _charge : element -> result nat.
Variable core_configuration : nat -> result (list nat).
Variable AOSHELL : conf_table.
Variable intor_ovlp : Mole -> result (array2 F).
Variable lowdin : array2 F -> result (array2 F).
Variable weight_orth : array2 F -> vec F -> result (array2 F).
Variable norm : array2 F -> F.
Variable np_empty : nat -> nat -> matrix F.

Ltac quiet_fresh :=
  first [ apply quiet_np_copy | apply quiet_np_take_cols | apply quiet_np_take
        | apply quiet_np_conjT | apply quiet_lib_dot | apply quiet_np_sub
        | apply quiet_gram | apply quiet_projection
        | apply quiet_call_lowdin | apply quiet_call_weight_orth
        | apply quiet_alloc ].

Ltac quiet_write :=
  first [ apply quiet_np_isub; assumption
        | apply quiet_np_put_cols; assumption ].

Ltac quiet_chain :=
  repeat first
    [ eapply quiet_bind; [quiet_fresh | intros ? ?]
    | eapply quiet_bind; [quiet_write | intros _ _] ].

Lemma quiet_nao_assemble (n0 : nat) (mol : Mole) (pre_occ pre_nao : ref)
  (s : option ref) :
  quiet n0
    (nao_assemble _charge core_configuration AOSHELL intor_ovlp lowdin
       weight_orth np_empty mol pre_occ pre_nao s)
    (fun cs => n0 <= fst cs).
Proof.
  unfold nao_assemble.
  eapply quiet_bind with (Q := fun _ => True).
  { destruct s as [s0|].
    - apply quiet_ret. exact I.
    - eapply quiet_bind; [apply quiet_lift; intros; exact I | intros S0 _].
      eapply quiet_weaken; [apply quiet_alloc | auto]. }
  intros s' _.
  eapply quiet_bind; [apply quiet_lift; intros; exact I | intros lists _].
  destruct lists as [[core_lst val_lst] rydbg_lst].
  eapply quiet_bind; [apply quiet_np_copy | intros pre_nao' Hpre].
  eapply quiet_bind; [apply quiet_alloc | intros cnao Hcnao].
  eapply quiet_bind with (Q := fun c => n0 <= c).
  { destruct core_lst as [|i0 core_t].
    - apply quiet_np_take_cols.
    - quiet_chain. apply quiet_ret. assumption. }
  intros c Hc.
  eapply quiet_bind with (Q := fun _ => True).
  { destruct val_lst as [|v0 val_t].
    - apply quiet_ret. exact I.
    - quiet_chain. quiet_write. }
  intros _ _.
  eapply quiet_bind with (Q := fun _ => True).
  { destruct rydbg_lst as [|r0 ryd_t].
    - apply quiet_ret. exact I.
    - quiet_chain. quiet_write. }
  intros _ _. apply quiet_ret. exact Hcnao.
Qed.

Lemma quiet_residual (n0 nbf : nat) (cnao s : ref) :
  quiet n0 (residual norm nbf cnao s) (fun _ => True).
Proof.
  unfold residual. quiet_chain.
  eapply quiet_bind; [apply quiet_load2 | intros D _].
  apply quiet_ret. exact I.
Qed.

(** X17.  The assembler writes only to arrays of its own.  Every array
    object that exists when [_nao_sub] is called, the arguments [pre_occ],
    [pre_nao] and [s] among them, holds the same values when it ends,
    whether it returns or raises; and the array it returns is a new
    object. *)
Theorem nao_sub_leaves_existing_arrays (mol : Mole) (pre_occ pre_nao : ref)
  (s : option ref) (w : world F) :
  let out := _nao_sub _charge core_configuration AOSHELL intor_ovlp lowdin
               weight_orth norm np_empty mol pre_occ pre_nao s w in
  (forall r, r < length (heap w) ->
     nth_error (heap (snd out)) r = nth_error (heap w) r) /\
  (forall cnao, fst out = Ok cnao -> length (heap w) <= cnao).
Proof.
  cbv zeta. unfold _nao_sub, mbind.
  destruct (@quiet_nao_assemble (length (heap w)) mol pre_occ pre_nao s w
              (le_n _)) as ([Hl1 Hext1] & _ & Hfresh).
  destruct (nao_assemble _ _ _ _ _ _ _ _ _ _ _ w) as [[[cnao s']|e] w1];
    cbn [fst snd] in *.
  - unfold nao_validate, mbind.
    destruct (@quiet_residual (length (heap w)) (nao_nr mol) cnao s' w1
                ltac:(lia)) as ([Hl2 Hext2] & _ & _).
    destruct (residual _ _ _ _ w1) as [[snorm|e] w2]; cbn [fst snd] in *.
    + assert (Hcnao : length (heap w) <= cnao) by (apply (Hfresh _ eq_refl)).
      destruct (ltb weak_tol snorm); cbn; (split;
        [intros r Hr; rewrite Hext2, Hext1 by assumption; reflexivity
        |intros c Hc; inversion Hc; subst; exact Hcnao]).
    + split; [|intros; discriminate].
      intros r Hr. rewrite Hext2, Hext1 by assumption. reflexivity.
  - split; [exact Hext1 | intros; discriminate].
Qed.

(** X18.  Weak orthogonality is a warning, never an error.  Once the
    three partitions are assembled and the residual
    [norm(C^T S C - eye(nbf))] is computed, [_nao_sub] returns the
    assembled array in either case; it logs one warning, carrying the
    residual, when the residual is greater than [1e-9], and logs nothing
    otherwise. *)
Theorem nao_sub_warns_iff_weak (mol : Mole) (pre_occ pre_nao : ref)
  (s : option ref) (w w1 w2 : world F) (cnao s' : ref) (snorm : F) :
  nao_assemble _charge core_configuration AOSHELL intor_ovlp lowdin
    weight_orth np_empty mol pre_occ pre_nao s w = (Ok (cnao, s'), w1) ->
  residual norm (nao_nr mol) cnao s' w1 = (Ok snorm, w2) ->
  _nao_sub _charge core_configuration AOSHELL intor_ovlp lowdin
    weight_orth norm np_empty mol pre_occ pre_nao s w =
  (Ok cnao,
   World (heap w2)
         (warnings w ++ if ltb weak_tol snorm then [snorm] else [])).
Proof.
  intros Hasm Hres.
  pose proof (@quiet_nao_assemble 0 mol pre_occ pre_nao s w (Nat.le_0_l _))
    as (_ & Hw1 & _).
  rewrite Hasm in Hw1. cbn [snd] in Hw1.
  pose proof (@quiet_residual 0 (nao_nr mol) cnao s' w1 (Nat.le_0_l _))
    as (_ & Hw2 & _).
  rewrite Hres in Hw2. cbn [snd] in Hw2.
  unfold _nao_sub, mbind. rewrite Hasm. unfold nao_validate, mbind.
  rewrite Hres. destruct w2 as [h2 ws2]. cbn [heap warnings] in *.
  destruct (ltb weak_tol snorm); cbn.
  - rewrite Hw2, Hw1. reflexivity.
  - rewrite app_nil_r, Hw2, Hw1. reflexivity.
Qed.

End NaoSubFrame.
Lemma nao_sub_warns_iff_weak_witness :
  exists cnao w2 snorm,
    ltb weak_tol snorm = true /\
    _nao_sub charge_of small_core_configuration AOSHELL
      (fun _ => Raise RuntimeError) keep_columns keep_columns_weighted norm1
      zeros2 p_only_atom 0 1 (Some 2) p_only_world =
    (Ok cnao,
     World (heap w2)
           (warnings p_only_world ++ if ltb weak_tol snorm then [snorm] else [])).
Proof.
  eexists. eexists. exists (q 3).
  split; [vm_compute; reflexivity|].
  eapply (@nao_sub_warns_iff_weak _ Qc_scalar charge_of small_core_configuration
            AOSHELL (fun _ => Raise RuntimeError) keep_columns
            keep_columns_weighted norm1 zeros2 p_only_atom 0 1 (Some 2)
            p_only_world).
  - vm_compute. reflexivity.
  - vm_compute. reflexivity.
Defined.

(** ** Sums and products of arrays *)

Lemma matrix_ext {F : Type} (d : F) (m n : nat) (A B : list (list F)) :
  length A = m -> Forall (fun r => length r = n) A ->
  length B = m -> Forall (fun r => length r = n) B ->
  (forall i j, i < m -> j < n -> nth j (nth i A []) d = nth j (nth i B []) d) ->
  A = B.
Proof.
  intros HA HAr HB HBr Hent.
  apply nth_ext with (d := []) (d' := []); [congruence|].
  intros i Hi. rewrite HA in Hi.
  rewrite Forall_forall in HAr, HBr.
  assert (Hra : length (nth i A []) = n) by (apply HAr, nth_In; lia).
  assert (Hrb : length (nth i B []) = n) by (apply HBr, nth_In; lia).
  apply nth_ext with (d := d) (d' := d); [congruence|].
  intros j Hj. apply Hent; lia.
Qed.

Section LinearAlgebra.

Context {F : Type} {SF : Scalar F}.
Hypothesis Fring : ring_theory zero one add mul sub opp (@eq F).

Add Ring Fring_la : Fring.

Lemma sum_upto_ext (n : nat) (f g : nat -> F) :
  (forall k, k < n -> f k = g k) -> sum_upto n f = sum_upto n g.
Proof.
  intros H. unfold sum_upto. f_equal. apply map_ext_in.
  intros k Hk. apply in_seq in Hk. apply H. lia.
Qed.

Lemma sum_upto_zero (n : nat) : sum_upto n (fun _ => zero) = zero.
Proof. unfold sum_upto. apply (vsum_zero Fring). Qed.

Lemma sum_upto_scale_l (n : nat) (x : F) (f : nat -> F) :
  sum_upto n (fun k => (x * f k)%F) = (x * sum_upto n f)%F.
Proof.
  unfold sum_upto. induction (seq 0 n) as [|k t IH]; simpl; [ring|].
  rewrite IH. ring.
Qed.

Lemma sum_upto_scale_r (n : nat) (x : F) (f : nat -> F) :
  sum_upto n (fun k => (f k * x)%F) = (sum_upto n f * x)%F.
Proof.
  unfold sum_upto. induction (seq 0 n) as [|k t IH]; simpl; [ring|].
  rewrite IH. ring.
Qed.

Lemma sum_upto_swap (m n : nat) (f : nat -> nat -> F) :
  sum_upto m (fun i => sum_upto n (fun j => f i j)) =
  sum_upto n (fun j => sum_upto m (fun i => f i j)).
Proof. unfold sum_upto. apply (vsum_swap Fring). Qed.

Lemma vsum_delta_tail (s t len : nat) (f : nat -> F) :
  s < t ->
  vsum (map (fun k => ((if s =? k then one else zero) * f k)%F) (seq t len))
  = zero.
Proof.
  revert t. induction len as [|len IH]; intros t Ht; simpl; [reflexivity|].
  destruct (s =? t) eqn:E; [apply Nat.eqb_eq in E; lia|].
  rewrite IH by lia. ring.
Qed.

(** A sum against a unit vector picks one term. *)
Lemma sum_upto_delta_l (n a : nat) (f : nat -> F) :
  a < n ->
  sum_upto n (fun k => ((if a =? k then one else zero) * f k)%F) = f a.
Proof.
  intros Ha. unfold sum_upto.
  assert (Hgen : forall len s, s <= a < s + len ->
            vsum (map (fun k => ((if a =? k then one else zero) * f k)%F)
                      (seq s len)) = f a).
  { induction len as [|len IH]; intros s Hs; [lia|].
    simpl. destruct (Nat.eq_dec a s) as [->|Hne].
    - rewrite Nat.eqb_refl, vsum_delta_tail by lia. ring.
    - destruct (a =? s) eqn:E; [apply Nat.eqb_eq in E; contradiction|].
      rewrite IH by lia. ring. }
  apply Hgen. lia.
Qed.

Lemma vdot_sum (m : nat) (u w : vec F) :
  length u = m -> length w = m ->
  vdot u w = sum_upto m (fun k => (nth k u zero * nth k w zero)%F).
Proof.
  revert u w. unfold sum_upto, vdot.
  assert (Hgen : forall m s (u w : vec F), length u = m -> length w = m ->
            vsum (map (fun xy => (fst xy * snd xy)%F) (combine u w)) =
            vsum (map (fun k => (nth (k - s) u zero * nth (k - s) w zero)%F)
                      (seq s m))).
  { clear m. intros m. induction m as [|m IH]; intros s u w Hu Hw.
    - destruct u; [|discriminate]. reflexivity.
    - destruct u as [|x u]; [discriminate|]. destruct w as [|y w]; [discriminate|].
      simpl. rewrite Nat.sub_diag. f_equal.
      rewrite (IH (S s) u w) by (simpl in *; lia).
      f_equal. apply map_ext_in. intros k Hk. apply in_seq in Hk.
      replace (k - s) with (S (k - S s)) by lia. reflexivity. }
  intros u w Hu Hw. rewrite (Hgen m 0 u w Hu Hw).
  f_equal. apply map_ext. intros k. rewrite Nat.sub_0_r. reflexivity.
Qed.

End LinearAlgebra.

Section MatrixProducts.

Context {F : Type} {SF : Scalar F}.
Hypothesis Fring : ring_theory zero one add mul sub opp (@eq F).

Add Ring Fring_mm : Fring.

Lemma ncols_shape (m n : nat) (A : matrix F) :
  has_shape m n A -> 0 < m -> ncols A = n.
Proof.
  intros [Hl Hr] Hm. destruct A as [|r t]; simpl in *; [lia|].
  inversion Hr. assumption.
Qed.

Lemma nth_map_seq {A : Type} (f : nat -> A) (n i : nat) (d : A) :
  i < n -> nth i (map f (seq 0 n)) d = f i.
Proof.
  intros Hi. rewrite (nth_indep _ d (f 0)) by (rewrite length_map, length_seq; exact Hi).
  rewrite map_nth, seq_nth by exact Hi. reflexivity.
Qed.

Lemma nth_map_in {A B : Type} (f : A -> B) (l : list A) (i : nat) (d : B) (d' : A) :
  i < length l -> nth i (map f l) d = f (nth i l d').
Proof.
  intros Hi. rewrite (nth_indep _ d (f d')) by (rewrite length_map; exact Hi).
  apply map_nth.
Qed.

Lemma column_length (A : matrix F) (j : nat) : length (column A j) = length A.
Proof. unfold column. apply length_map. Qed.

Lemma column_nth (A : matrix F) (j t : nat) :
  t < length A -> nth t (column A j) zero = entry A t j.
Proof.
  intros Ht. unfold column, entry.
  exact (@nth_map_in _ _ (fun row => nth j row zero) A t zero [] Ht).
Qed.

Lemma shape_matmul (m k n : nat) (A B : matrix F) :
  has_shape m k A -> has_shape k n B -> 0 < k -> has_shape m n (matmul A B).
Proof.
  intros [HAl HAr] HB Hk. unfold matmul. split; [rewrite length_map; exact HAl|].
  apply Forall_forall. intros r Hr. apply in_map_iff in Hr.
  destruct Hr as (row & <- & _).
  rewrite length_map, length_seq. apply (ncols_shape HB Hk).
Qed.

Lemma entry_matmul (m k n i j : nat) (A B : matrix F) :
  has_shape m k A -> has_shape k n B -> 0 < k -> i < m -> j < n ->
  entry (matmul A B) i j =
  sum_upto k (fun t => (entry A i t * entry B t j)%F).
Proof.
  intros HA HB Hk Hi Hj. unfold entry at 1. unfold matmul.
  assert (HiA : i < length A) by (destruct HA as [-> _]; exact Hi).
  rewrite (@nth_map_in _ _
             (fun row => map (fun j0 => vdot row (column B j0)) (seq 0 (ncols B)))
             A i [] [] HiA).
  rewrite (ncols_shape HB Hk), nth_map_seq by exact Hj.
  rewrite (@vdot_sum _ _ k).
  - apply sum_upto_ext. intros t Ht.
    rewrite column_nth by (destruct HB as [-> _]; exact Ht). reflexivity.
  - eapply has_shape_row; eassumption.
  - rewrite column_length. destruct HB as [-> _]. reflexivity.
Qed.

Lemma shape_transpose (m n : nat) (A : matrix F) :
  has_shape m n A -> 0 < m -> has_shape n m (transpose A).
Proof.
  intros HA Hm. unfold transpose. rewrite (ncols_shape HA Hm).
  split; [rewrite length_map, length_seq; reflexivity|].
  apply Forall_forall. intros r Hr. apply in_map_iff in Hr.
  destruct Hr as (j & <- & _). rewrite column_length. destruct HA as [-> _].
  reflexivity.
Qed.

Lemma entry_transpose (m n i j : nat) (A : matrix F) :
  has_shape m n A -> 0 < m -> i < n -> j < m ->
  entry (transpose A) i j = entry A j i.
Proof.
  intros HA Hm Hi Hj. unfold entry at 1. unfold transpose.
  rewrite (ncols_shape HA Hm), nth_map_seq by exact Hi.
  apply column_nth. destruct HA as [-> _]. exact Hj.
Qed.

Lemma shape_eye (n : nat) : has_shape n n (@eye F SF n).
Proof.
  unfold eye. split; [rewrite length_map, length_seq; reflexivity|].
  apply Forall_forall. intros r Hr. apply in_map_iff in Hr.
  destruct Hr as (i & <- & _). rewrite length_map, length_seq. reflexivity.
Qed.

Lemma entry_eye (n i j : nat) :
  i < n -> j < n -> entry (@eye F SF n) i j = if i =? j then one else zero.
Proof.
  intros Hi Hj. unfold entry, eye.
  rewrite (nth_map_seq _ _ Hi), (nth_map_seq _ _ Hj). reflexivity.
Qed.

Lemma has_shape_ext (m n : nat) (A B : matrix F) :
  has_shape m n A -> has_shape m n B ->
  (forall i j, i < m -> j < n -> entry A i j = entry B i j) -> A = B.
Proof.
  intros [HAl HAr] [HBl HBr] H.
  apply (matrix_ext zero HAl HAr HBl HBr). exact H.
Qed.

Lemma matmul_assoc (n : nat) (A B C : matrix F) :
  0 < n -> has_shape n n A -> has_shape n n B -> has_shape n n C ->
  matmul (matmul A B) C = matmul A (matmul B C).
Proof.
  intros Hn HA HB HC.
  assert (HAB := shape_matmul HA HB Hn). assert (HBC := shape_matmul HB HC Hn).
  apply (@has_shape_ext n n); [apply (shape_matmul HAB HC Hn)
                              |apply (shape_matmul HA HBC Hn)|].
  intros i j Hi Hj.
  rewrite (entry_matmul HAB HC Hn Hi Hj), (entry_matmul HA HBC Hn Hi Hj).
  rewrite (@sum_upto_ext _ _ n
             (fun t => (entry (matmul A B) i t * entry C t j)%F)
             (fun t => sum_upto n (fun u =>
                         (entry A i u * entry B u t * entry C t j)%F))).
  2:{ intros t Ht. rewrite (entry_matmul HA HB Hn Hi Ht).
      rewrite <- (sum_upto_scale_r Fring). reflexivity. }
  rewrite (sum_upto_swap Fring).
  apply sum_upto_ext. intros u Hu.
  rewrite (entry_matmul HB HC Hn Hu Hj).
  rewrite <- (sum_upto_scale_l Fring).
  apply sum_upto_ext. intros t Ht. ring.
Qed.

Lemma transpose_matmul (n : nat) (A B : matrix F) :
  0 < n -> has_shape n n A -> has_shape n n B ->
  transpose (matmul A B) = matmul (transpose B) (transpose A).
Proof.
  intros Hn HA HB.
  assert (HAB := shape_matmul HA HB Hn).
  assert (HAt := shape_transpose HA Hn). assert (HBt := shape_transpose HB Hn).
  apply (@has_shape_ext n n); [apply (shape_transpose HAB Hn)
                              |apply (shape_matmul HBt HAt Hn)|].
  intros i j Hi Hj.
  rewrite (entry_transpose HAB Hn Hi Hj), (entry_matmul HA HB Hn Hj Hi),
          (entry_matmul HBt HAt Hn Hi Hj).
  apply sum_upto_ext. intros t Ht.
  rewrite (entry_transpose HB Hn Hi Ht), (entry_transpose HA Hn Ht Hj). ring.
Qed.

Lemma matmul_eye_l (n : nat) (A : matrix F) :
  0 < n -> has_shape n n A -> matmul (eye n) A = A.
Proof.
  intros Hn HA.
  apply (@has_shape_ext n n); [apply (shape_matmul (shape_eye n) HA Hn)|exact HA|].
  intros i j Hi Hj. rewrite (entry_matmul (shape_eye n) HA Hn Hi Hj).
  rewrite (@sum_upto_ext _ _ n _
             (fun t => ((if i =? t then one else zero) * entry A t j)%F)).
  - exact (@sum_upto_delta_l _ _ Fring n i (fun t => entry A t j) Hi).
  - intros t Ht. rewrite entry_eye by assumption. reflexivity.
Qed.

(** Orthonormal columns, as a matrix equation. *)
Lemma orthonormal_columns_gram (n : nat) (R : matrix F) :
  0 < n -> has_shape n n R ->
  orthonormal_columns n n R -> matmul (transpose R) R = eye n.
Proof.
  intros Hn HR Horth. assert (HRt := shape_transpose HR Hn).
  apply (@has_shape_ext n n); [apply (shape_matmul HRt HR Hn)|apply shape_eye|].
  intros a b Ha Hb. rewrite (entry_matmul HRt HR Hn Ha Hb), entry_eye by assumption.
  rewrite <- (Horth a b Ha Hb). apply sum_upto_ext. intros c Hc.
  rewrite (entry_transpose HR Hn Ha Hc). reflexivity.
Qed.

(** Multiplying an [S]-orthonormal set by a matrix with orthonormal
    columns gives an [S]-orthonormal set. *)
Lemma rotation_keeps_gram (n : nat) (C S R : matrix F) :
  0 < n -> has_shape n n C -> has_shape n n S -> has_shape n n R ->
  matmul (transpose C) (matmul S C) = eye n ->
  orthonormal_columns n n R ->
  matmul (transpose (matmul C R)) (matmul S (matmul C R)) = eye n.
Proof.
  intros Hn HC HS HR HG Horth.
  assert (HCt := shape_transpose HC Hn). assert (HRt := shape_transpose HR Hn).
  assert (HSC := shape_matmul HS HC Hn). assert (HCR := shape_matmul HC HR Hn).
  rewrite (transpose_matmul Hn HC HR).
  rewrite (matmul_assoc Hn HRt HCt (shape_matmul HS HCR Hn)).
  rewrite <- (matmul_assoc Hn HS HC HR).
  rewrite <- (matmul_assoc Hn HCt HSC HR).
  rewrite HG, (matmul_eye_l Hn HR).
  apply orthonormal_columns_gram; assumption.
Qed.

End MatrixProducts.

Section AverageOfIdentity.

Context {F : Type} {SF : Scalar F}.
Hypothesis Fring : ring_theory zero one add mul sub opp (@eq F).
Hypothesis Fdiv : averaging_division F.

Add Ring Fring_ai : Fring.

Lemma sum_upto_delta_one (n a : nat) :
  a < n -> sum_upto n (fun k => if a =? k then one else zero) = one.
Proof.
  intros Ha.
  transitivity (sum_upto n (fun k => ((if a =? k then one else zero) * one)%F)).
  - apply sum_upto_ext. intros k _. destruct (a =? k); ring.
  - exact (@sum_upto_delta_l _ _ Fring n a (fun _ => one) Ha).
Qed.

Lemma block_sum_eye (n nd degen i j : nat) (idx : list nat) :
  0 < degen -> length idx = nd * degen -> NoDup idx ->
  Forall (fun a => a < n) idx -> i < nd -> j < nd ->
  block_sum (eye n) idx degen i j =
  if i =? j then sum_upto degen (fun _ => one) else zero.
Proof.
  intros Hdeg Hlen Hnd Hall Hi Hj. unfold block_sum.
  fold (sum_upto degen (fun m =>
          vsum (map (fun n0 => entry (eye n) (nth (i * degen + m) idx 0)
                                 (nth (j * degen + n0) idx 0)) (seq 0 degen)))).
  assert (Hent : forall m k, m < degen -> k < degen ->
            entry (eye n) (nth (i * degen + m) idx 0) (nth (j * degen + k) idx 0)
            = if (i =? j) && (m =? k) then one else zero).
  { intros m k Hm Hk. rewrite Forall_forall in Hall.
    assert (Him : i * degen + m < length idx) by (rewrite Hlen; nia).
    assert (Hjk : j * degen + k < length idx) by (rewrite Hlen; nia).
    rewrite entry_eye by (apply Hall, nth_In; assumption).
    destruct (nth (i * degen + m) idx 0 =? nth (j * degen + k) idx 0) eqn:E.
    - apply Nat.eqb_eq in E. apply nth_NoDup_inj in E; [|assumption..].
      assert (Hij : i = j).
      { assert (Hd : (i * degen + m) / degen = (j * degen + k) / degen)
          by (rewrite E; reflexivity).
        rewrite !Nat.div_add_l, !Nat.div_small in Hd by lia. lia. }
      subst j. assert (m = k) by lia. subst k.
      rewrite !Nat.eqb_refl. reflexivity.
    - apply Nat.eqb_neq in E.
      destruct (i =? j) eqn:Eij; [|reflexivity].
      destruct (m =? k) eqn:Emk; [|reflexivity].
      apply Nat.eqb_eq in Eij, Emk. subst. contradiction. }
  destruct (i =? j) eqn:Eij.
  - apply sum_upto_ext. intros m Hm.
    transitivity (sum_upto degen (fun k => if m =? k then one else zero)).
    + unfold sum_upto. f_equal. apply map_ext_in. intros k Hk.
      apply in_seq in Hk. rewrite (Hent m k Hm) by lia. reflexivity.
    + apply sum_upto_delta_one. exact Hm.
  - rewrite <- (sum_upto_zero Fring degen).
    apply sum_upto_ext. intros m Hm.
    transitivity (sum_upto degen (fun _ : nat => zero)).
    + unfold sum_upto. f_equal. apply map_ext_in. intros k Hk.
      apply in_seq in Hk. rewrite (Hent m k Hm) by lia. reflexivity.
    + apply (sum_upto_zero Fring).
Qed.

(** The average of the identity over a block of distinct indices is the
    identity. *)
Lemma spheric_average_eye (n nd degen l : nat) (idx : list nat) :
  0 < degen -> length idx = nd * degen -> NoDup idx ->
  Forall (fun a => a < n) idx ->
  _spheric_average_mat (eye n) l idx (Some degen) = Ok (eye nd).
Proof.
  intros Hdeg Hlen Hnd Hall.
  destruct (@spheric_average_mat_block_sums F SF n nd degen l (eye n) idx
              Hdeg Hlen (shape_eye n) Hall) as (A & Hrun & Hsh & Hent).
  rewrite Hrun. f_equal.
  apply (@has_shape_ext _ _ nd nd); [exact Hsh | apply shape_eye|].
  intros i j Hi Hj. rewrite (Hent i j Hi Hj), entry_eye by assumption.
  rewrite (block_sum_eye Hdeg Hlen Hnd Hall Hi Hj).
  destruct (Fdiv Hdeg) as [H1 H0]. destruct (i =? j); assumption.
Qed.

End AverageOfIdentity.

(** ** The pre-NAO solver, block after block *)

Lemma foldM_app {St X : Type} (body : St -> X -> result St) (xs ys : list X)
  (st : St) :
  foldM body (xs ++ ys) st = bind (foldM body xs st) (foldM body ys).
Proof.
  revert st. induction xs as [|x t IH]; intros st; simpl; [reflexivity|].
  destruct (body st x); simpl; [apply IH | reflexivity].
Qed.

Section BlocksLink.

Context {F : Type} {SF : Scalar F}.
Variable eigh : matrix F -> matrix F -> result (vec F * matrix F).

Lemma prenao_l_blocks (mol : Mole) (p s : matrix F) (bas_ang : list nat)
  (b0 b1 : nat) (ls : list nat) :
  forall bs st,
  mapM (fun l => idx <- block_idx (mol_ao_loc mol) bas_ang b0 b1 l ;; Ok (l, idx))
       ls = Ok bs ->
  foldM (prenao_l eigh mol p s bas_ang b0 b1) ls st =
  foldM (fun st b => prenao_block eigh (mol_cart mol) p s (fst b) (snd b) st)
        (filter (fun b => negb (length (snd b) <? 1)) bs) st.
Proof.
  induction ls as [|l t IH]; intros bs st H; simpl in H.
  - inversion H. reflexivity.
  - bind_ok H as b Hb. bind_ok H as bs' Hbs. inversion H; subst bs. clear H.
    bind_ok Hb as idx Hidx. inversion Hb; subst b. clear Hb.
    cbn [foldM filter snd fst]. unfold prenao_l at 1. rewrite Hidx. cbn [bind].
    destruct (length idx <? 1); cbn [negb bind foldM fst snd].
    + apply IH. exact Hbs.
    + destruct (prenao_block eigh (mol_cart mol) p s l idx st); cbn [bind];
        [apply IH; exact Hbs | reflexivity].
Qed.

Lemma prenao_atom_blocks (mol : Mole) (p s : matrix F)
  (sl : nat * nat * nat * nat) (bs : list (nat * list nat)) (st : vec F * matrix F) :
  atom_blocks (mol_ao_loc mol) (map sh_ang (mol_bas mol)) sl = Ok bs ->
  prenao_atom eigh mol p s (map sh_ang (mol_bas mol)) st sl =
  foldM (fun st b => prenao_block eigh (mol_cart mol) p s (fst b) (snd b) st) bs st.
Proof.
  destruct sl as [[[b0 b1] p0] p1]. unfold atom_blocks, prenao_atom. intros H.
  bind_ok H as l_max Hmax. bind_ok H as bs0 Hbs0. inversion H; subst bs. clear H.
  rewrite Hmax. cbn [bind]. apply prenao_l_blocks. exact Hbs0.
Qed.

Lemma prenao_atoms_blocks (mol : Mole) (p s : matrix F)
  (sls : list (nat * nat * nat * nat)) :
  forall bss st,
  mapM (atom_blocks (mol_ao_loc mol) (map sh_ang (mol_bas mol))) sls = Ok bss ->
  foldM (prenao_atom eigh mol p s (map sh_ang (mol_bas mol))) sls st =
  foldM (fun st b => prenao_block eigh (mol_cart mol) p s (fst b) (snd b) st)
        (concat bss) st.
Proof.
  induction sls as [|sl t IH]; intros bss st H; simpl in H.
  - inversion H. reflexivity.
  - bind_ok H as bs Hbs. bind_ok H as bss' Hbss. inversion H; subst bss. clear H.
    cbn [foldM concat]. rewrite foldM_app.
    rewrite (prenao_atom_blocks mol p s sl st Hbs).
    destruct (foldM _ bs st); cbn [bind]; [apply IH; exact Hbss | reflexivity].
Qed.

(** [_prenao_sub] is the fold of [prenao_block] over the blocks of the
    molecule. *)
Lemma prenao_sub_blocks (mol : Mole) (p s : matrix F) (n : nat)
  (bs : list (nat * list nat)) :
  prenao_blocks mol = Ok bs -> last_item (mol_ao_loc mol) = Ok n ->
  _prenao_sub eigh mol p s =
  foldM (fun st b => prenao_block eigh (mol_cart mol) p s (fst b) (snd b) st)
        bs (zeros n, zeros2 n n).
Proof.
  intros Hbs Hn. unfold prenao_blocks in Hbs. bind_ok Hbs as bss Hbss.
  inversion Hbs; subst bs. clear Hbs.
  unfold _prenao_sub. rewrite Hn. cbn [bind].
  apply prenao_atoms_blocks. exact Hbss.
Qed.

End BlocksLink.

Lemma foldM_list_inv {St X : Type} (P : list X -> St -> Prop)
  (body : St -> X -> result St) (xs : list X) (st0 st : St) :
  P [] st0 ->
  (forall pre x post s s', xs = pre ++ x :: post -> P pre s ->
     body s x = Ok s' -> P (pre ++ [x]) s') ->
  foldM body xs st0 = Ok st -> P xs st.
Proof.
  intros H0 Hstep.
  assert (Hgen : forall post pre s, xs = pre ++ post -> P pre s ->
            foldM body post s = Ok st -> P xs st).
  { induction post as [|x post IH]; intros pre s Hxs Hpre Hrun; simpl in Hrun.
    - inversion Hrun. subst. rewrite app_nil_r. exact Hpre.
    - bind_ok Hrun as s' Hs'. apply (IH (pre ++ [x]) s').
      + rewrite <- app_assoc. exact Hxs.
      + eapply Hstep; eassumption.
      + exact Hrun. }
  apply (Hgen xs [] st0); [reflexivity | exact H0].
Qed.

Section SumsOverSupport.

Context {F : Type} {SF : Scalar F}.
Hypothesis Fring : ring_theory zero one add mul sub opp (@eq F).

Add Ring Fring_ss : Fring.

Lemma vsum_all_zero (f : nat -> F) (U : list nat) :
  (forall c, In c U -> f c = zero) -> vsum (map f U) = zero.
Proof.
  induction U as [|u t IH]; intros H; simpl; [reflexivity|].
  rewrite (H u) by (simpl; auto). rewrite IH by (intros c Hc; apply H; simpl; auto).
  ring.
Qed.

Lemma vsum_extract (f : nat -> F) (U : list nat) (a : nat) :
  NoDup U -> In a U ->
  vsum (map f U) =
  (f a + vsum (map (fun c => if c =? a then zero else f c) U))%F.
Proof.
  induction U as [|u t IH]; intros Hnd Hin; [contradiction|].
  inversion Hnd as [|? ? Hnu Hnd']; subst. simpl.
  destruct (Nat.eq_dec u a) as [->|Hne].
  - rewrite Nat.eqb_refl.
    rewrite (map_ext_in (fun c => if c =? a then zero else f c) f).
    + ring.
    + intros c Hc. destruct (c =? a) eqn:E; [|reflexivity].
      apply Nat.eqb_eq in E. subst. contradiction.
  - destruct (u =? a) eqn:E; [apply Nat.eqb_eq in E; contradiction|].
    destruct Hin as [Heq | Hin]; [contradiction|].
    rewrite (IH Hnd' Hin). ring.
Qed.

Lemma vsum_support (Ls : list nat) :
  forall (f : nat -> F) (U : list nat),
  NoDup Ls -> NoDup U -> incl Ls U ->
  (forall c, In c U -> ~ In c Ls -> f c = zero) ->
  vsum (map f U) = vsum (map f Ls).
Proof.
  induction Ls as [|a L IH]; intros f U HndL HndU Hincl Hz.
  - simpl. apply vsum_all_zero. intros c Hc. apply Hz; auto.
  - inversion HndL as [|? ? Hna HndL']; subst. simpl.
    rewrite (@vsum_extract f U a HndU (Hincl a (or_introl eq_refl))).
    f_equal.
    rewrite (IH (fun c => if c =? a then zero else f c) U HndL' HndU).
    + f_equal. apply map_ext_in. intros c Hc.
      destruct (c =? a) eqn:E; [|reflexivity].
      apply Nat.eqb_eq in E. subst. contradiction.
    + intros c Hc. apply Hincl. simpl. auto.
    + intros c Hc Hnc. destruct (c =? a) eqn:E; [reflexivity|].
      apply Nat.eqb_neq in E. apply Hz; [exact Hc|].
      intros [Heq | Hin]; [congruence | contradiction].
Qed.

(** A sum over [range(n)] of a function that vanishes off one component
    of a block is the sum over the radial functions of that component. *)
Lemma sum_upto_component (n nd degen k : nat) (idx : list nat) (f : nat -> F) :
  length idx = nd * degen -> k < degen -> NoDup idx ->
  Forall (fun a => a < n) idx ->
  (forall c, c < n -> ~ In c (component_indices idx degen nd k) -> f c = zero) ->
  sum_upto n f = sum_upto nd (fun r => f (nth (r * degen + k) idx 0)).
Proof.
  intros Hlen Hk Hnd Hall Hz. unfold sum_upto.
  rewrite (@vsum_support (component_indices idx degen nd k) f (seq 0 n)).
  - unfold component_indices. rewrite map_map. reflexivity.
  - apply component_indices_NoDup; assumption.
  - apply seq_NoDup.
  - intros c Hc. apply in_seq. split; [lia|]. cbn [Nat.add].
    rewrite Forall_forall in Hall. apply Hall.
    eapply component_indices_incl; eassumption.
  - intros c Hc. apply in_seq in Hc. apply Hz. lia.
Qed.

Lemma orthonormal_columns_rev (nd : nat) (v : matrix F) :
  has_shape nd nd v -> orthonormal_columns nd nd v ->
  orthonormal_columns nd nd (map (@rev F) v).
Proof.
  intros Hv Horth i j Hi Hj.
  assert (Hent : forall r c, r < nd -> c < nd ->
            entry (map (@rev F) v) r c = entry v r (nd - 1 - c)).
  { intros r c Hr Hc. unfold entry.
    assert (Hrl : r < length v) by (destruct Hv as [-> _]; exact Hr).
    rewrite (@nth_map_in _ _ (@rev F) v r [] [] Hrl).
    pose proof (has_shape_row Hv Hr) as Hrow.
    rewrite rev_nth by (rewrite Hrow; exact Hc).
    rewrite Hrow. f_equal. lia. }
  rewrite (@sum_upto_ext _ _ nd _
             (fun c => (entry v c (nd - 1 - i) * entry v c (nd - 1 - j))%F))
    by (intros c Hc; rewrite !Hent by assumption; reflexivity).
  rewrite (Horth (nd - 1 - i) (nd - 1 - j)) by lia.
  destruct (i =? j) eqn:E.
  - apply Nat.eqb_eq in E. subst. rewrite Nat.eqb_refl. reflexivity.
  - apply Nat.eqb_neq in E.
    destruct (nd - 1 - i =? nd - 1 - j) eqn:E2; [|reflexivity].
    apply Nat.eqb_eq in E2. lia.
Qed.

End SumsOverSupport.

Lemma same_component_in (idx : list nat) (degen nd a b : nat) :
  length idx = nd * degen ->
  same_component idx degen nd a b -> In a idx /\ In b idx.
Proof.
  intros Hlen (k & i & j & Hk & Hi & Hj & -> & ->).
  split; apply nth_In; nia.
Qed.

Lemma in_block_position (idx : list nat) (degen nd a : nat) :
  0 < degen -> length idx = nd * degen -> In a idx ->
  exists k i, k < degen /\ i < nd /\ a = nth (i * degen + k) idx 0.
Proof.
  intros Hdeg Hlen Hin. apply In_nth with (d := 0) in Hin.
  destruct Hin as (pos & Hpos & <-).
  exists (pos mod degen), (pos / degen).
  split; [apply Nat.mod_upper_bound; lia|]. split.
  - apply Nat.Div0.div_lt_upper_bound. rewrite Hlen in Hpos. lia.
  - f_equal. rewrite (Nat.div_mod_eq pos degen) at 1. lia.
Qed.

Lemma same_component_left (idx : list nat) (degen nd k i c : nat) :
  length idx = nd * degen -> NoDup idx -> k < degen -> i < nd ->
  same_component idx degen nd c (nth (i * degen + k) idx 0) ->
  In c (component_indices idx degen nd k).
Proof.
  intros Hlen Hnd Hk Hi (k' & i' & j' & Hk' & Hi' & Hj' & -> & Heq).
  apply nth_NoDup_inj in Heq; [|assumption|nia|nia].
  assert (Hkk : k = k').
  { assert (Hm : (i * degen + k) mod degen = (j' * degen + k') mod degen)
      by (rewrite Heq; reflexivity).
    rewrite !(Nat.add_comm _ k), !(Nat.add_comm _ k'), !Nat.Div0.mod_add in Hm.
    rewrite !Nat.mod_small in Hm by assumption. exact Hm. }
  subst k'. apply component_indices_in. exists i'. auto.
Qed.

Section BlockRotation.

Context {F : Type} {SF : Scalar F}.
Hypothesis Fring : ring_theory zero one add mul sub opp (@eq F).

Add Ring Fring_br : Fring.

(** Writing one block of orthonormal eigenvectors into [cao] extends the
    set of orthonormal columns by the block. *)
Lemma write_block_rotation (n nd degen : nat) (idx D : list nat)
  (v' cao cao' : matrix F) :
  0 < degen -> length idx = nd * degen -> NoDup idx ->
  Forall (fun a => a < n) idx -> Forall (fun a => a < n) D ->
  (forall a, In a idx -> ~ In a D) ->
  orthonormal_columns nd nd v' ->
  partial_rotation n D cao ->
  has_shape n n cao' ->
  (forall a b, ~ same_component idx degen nd a b -> entry cao' a b = entry cao a b) ->
  (forall k i j, k < degen -> i < nd -> j < nd ->
     entry cao' (nth (i * degen + k) idx 0) (nth (j * degen + k) idx 0)
     = entry v' i j) ->
  partial_rotation n (D ++ idx) cao'.
Proof.
  intros Hdeg Hlen Hnd Hall HD Hdisj Hv (Hsh & Hsupp & Horth) Hsh' Hout Hin.
  rewrite Forall_forall in Hall, HD.
  assert (Fold : forall a c, ~ In a idx -> entry cao' c a = entry cao c a).
  { intros a c Ha. apply Hout. intros Hsc.
    apply (@same_component_in idx degen nd _ _ Hlen) in Hsc. tauto. }
  assert (Foff : forall k i c, k < degen -> i < nd -> c < n ->
            ~ In c (component_indices idx degen nd k) ->
            entry cao' c (nth (i * degen + k) idx 0) = zero).
  { intros k i c Hk Hi Hc Hnc.
    assert (Ha : In (nth (i * degen + k) idx 0) idx) by (apply nth_In; nia).
    rewrite Hout.
    - apply Hsupp; [exact Hc | apply Hall; exact Ha|].
      intros [_ HaD]. exact (Hdisj _ Ha HaD).
    - intros Hsc. apply Hnc.
      eapply same_component_left; eassumption. }
  assert (Hcross : forall a b, In a D -> In b idx ->
            sum_upto n (fun c => (entry cao' c a * entry cao' c b)%F) = zero).
  { intros a b Ha Hb.
    destruct (@in_block_position idx degen nd b Hdeg Hlen Hb) as (k & j & Hk & Hj & ->).
    rewrite <- (sum_upto_zero Fring n). apply sum_upto_ext. intros c Hc.
    destruct (in_dec Nat.eq_dec c D) as [HcD | HcD].
    - rewrite (Foff k j c Hk Hj Hc); [ring|].
      intros Hcomp. apply (@component_indices_incl idx degen nd k c Hlen Hk) in Hcomp.
      exact (Hdisj _ Hcomp HcD).
    - rewrite (Fold a c) by (intros Hai; exact (Hdisj _ Hai Ha)).
      rewrite (Hsupp c a Hc (HD _ Ha)) by tauto. ring. }
  split; [exact Hsh'|]. split.
  - intros a b Ha Hb Hnot. rewrite Hout.
    + apply Hsupp; [assumption..|]. intros [HaD HbD]. apply Hnot.
      split; apply in_or_app; auto.
    + intros Hsc. apply (@same_component_in idx degen nd _ _ Hlen) in Hsc. apply Hnot.
      split; apply in_or_app; tauto.
  - intros a b Ha Hb. apply in_app_or in Ha. apply in_app_or in Hb.
    destruct Ha as [Ha | Ha], Hb as [Hb | Hb].
    + rewrite <- (Horth a b Ha Hb). apply sum_upto_ext. intros c Hc.
      rewrite !Fold; [reflexivity|..]; intros Hi; eapply Hdisj; eassumption.
    + rewrite (Hcross a b Ha Hb).
      destruct (a =? b) eqn:E; [|reflexivity].
      apply Nat.eqb_eq in E. subst. exfalso. eapply Hdisj; eassumption.
    + rewrite (@sum_upto_ext _ _ n _
                 (fun c => (entry cao' c b * entry cao' c a)%F))
        by (intros; ring).
      rewrite (Hcross b a Hb Ha).
      destruct (a =? b) eqn:E; [|reflexivity].
      apply Nat.eqb_eq in E. subst. exfalso. eapply Hdisj; eassumption.
    + destruct (@in_block_position idx degen nd a Hdeg Hlen Ha) as (k & i & Hk & Hi & ->).
      destruct (@in_block_position idx degen nd b Hdeg Hlen Hb) as (k' & j & Hk' & Hj & ->).
      destruct (Nat.eq_dec k k') as [<-|Hkk].
      * rewrite (@sum_upto_component _ _ Fring n nd degen k idx _ Hlen Hk Hnd)
          by (try (apply Forall_forall; exact Hall);
              intros c Hc Hnc; rewrite (Foff k i c Hk Hi Hc Hnc); ring).
        rewrite (@sum_upto_ext _ _ nd _
                   (fun r => (entry v' r i * entry v' r j)%F))
          by (intros r Hr; rewrite !Hin by assumption; reflexivity).
        rewrite (Hv i j Hi Hj).
        destruct (i =? j) eqn:E.
        -- apply Nat.eqb_eq in E. subst. rewrite Nat.eqb_refl. reflexivity.
        -- apply Nat.eqb_neq in E.
           destruct (nth (i * degen + k) idx 0 =? nth (j * degen + k) idx 0) eqn:E2;
             [|reflexivity].
           apply Nat.eqb_eq in E2. apply nth_NoDup_inj in E2; [|assumption|nia|nia].
           exfalso. apply E. nia.
      * assert (Hne : nth (i * degen + k) idx 0 <> nth (j * degen + k') idx 0).
        { intros E2. apply nth_NoDup_inj in E2; [|assumption|nia|nia].
          apply Hkk.
          assert (Hm : (i * degen + k) mod degen = (j * degen + k') mod degen)
            by (rewrite E2; reflexivity).
          rewrite !(Nat.add_comm _ k), !(Nat.add_comm _ k'), !Nat.Div0.mod_add in Hm.
          rewrite !Nat.mod_small in Hm by assumption. exact Hm. }
        apply Nat.eqb_neq in Hne. rewrite Hne.
        rewrite <- (sum_upto_zero Fring n). apply sum_upto_ext. intros c Hc.
        destruct (in_dec Nat.eq_dec c (component_indices idx degen nd k))
          as [Hck | Hck].
        -- rewrite (Foff k' j c Hk' Hj Hc); [ring|].
           intros Hck'. apply Hkk.
           eapply component_indices_disjoint with (a := c); eassumption.
        -- rewrite (Foff k i c Hk Hi Hc Hck). ring.
Qed.

End BlockRotation.

Lemma NoDup_concat_block {A : Type} (pre post : list (list A)) (x : list A) :
  NoDup (concat (pre ++ x :: post)) ->
  NoDup x /\ forall a, In a x -> ~ In a (concat pre).
Proof.
  rewrite concat_app. simpl. intros H. split.
  - apply NoDup_app_remove_l in H. apply NoDup_app_remove_r in H. exact H.
  - intros a Hax Hap.
    assert (Hgen : forall (l1 l2 : list A), NoDup (l1 ++ l2) ->
              forall y, In y l1 -> ~ In y l2).
    { clear. induction l1 as [|z t IH]; simpl; intros l2 H y Hy; [contradiction|].
      inversion H as [|? ? Hn Hnd]; subst. destruct Hy as [-> | Hy].
      - intros Hy2. apply Hn. apply in_or_app. auto.
      - apply IH; assumption. }
    apply (Hgen _ _ H a Hap). apply in_or_app. auto.
Qed.

Section RotationOfBlocks.

Context {F : Type} {SF : Scalar F}.
Hypothesis Fring : ring_theory zero one add mul sub opp (@eq F).
Hypothesis Fdiv : averaging_division F.
Variable eigh : matrix F -> matrix F -> result (vec F * matrix F).
Hypothesis eigh_ok : eigh_orthonormal eigh.

Add Ring Fring_rb : Fring.

Lemma entry_zeros2 (n a b : nat) : entry (@zeros2 F SF n n) a b = zero.
Proof.
  unfold entry, zeros2, zeros.
  destruct (Nat.lt_ge_cases a n) as [Ha | Ha].
  - rewrite (nth_indep _ [] (repeat zero n)) by (rewrite repeat_length; exact Ha).
    rewrite nth_repeat. destruct (Nat.lt_ge_cases b n) as [Hb | Hb].
    + rewrite nth_repeat. reflexivity.
    + apply nth_overflow. rewrite repeat_length. exact Hb.
  - rewrite (nth_overflow (repeat _ n)) by (rewrite repeat_length; exact Ha).
    destruct b; reflexivity.
Qed.

Lemma shape_zeros2 (n : nat) : has_shape n n (@zeros2 F SF n n).
Proof.
  unfold zeros2, zeros. split; [apply repeat_length|].
  apply Forall_forall. intros r Hr. apply repeat_spec in Hr. subst.
  apply repeat_length.
Qed.

Lemma eye_orthonormal (n : nat) : orthonormal_columns n n (@eye F SF n).
Proof.
  intros a b Ha Hb.
  rewrite (@sum_upto_ext _ _ n _
             (fun c => ((if a =? c then one else zero) * entry (eye n) c b)%F)).
  - rewrite (@sum_upto_delta_l _ _ Fring n a (fun c => entry (eye n) c b) Ha).
    apply entry_eye; assumption.
  - intros c Hc. rewrite (entry_eye Hc Ha), (Nat.eqb_sym c a). reflexivity.
Qed.

(** One block, with the identity as overlap. *)
Lemma prenao_block_rotation (n l : nat) (cart : bool) (p : matrix F)
  (idx D : list nat) (occ occ' : vec F) (cao cao' : matrix F) :
  length idx mod degen_of cart l = 0 -> NoDup idx ->
  Forall (fun a => a < n) idx -> Forall (fun a => a < n) D ->
  (forall a, In a idx -> ~ In a D) ->
  length occ = n -> partial_rotation n D cao ->
  prenao_block eigh cart p (eye n) l idx (occ, cao) = Ok (occ', cao') ->
  length occ' = n /\ partial_rotation n (D ++ idx) cao'.
Proof.
  intros Hmod Hnd Hall HD Hdisj Hocc Hrot Hrun.
  pose proof (degen_of_pos cart l) as Hdeg.
  set (degen := degen_of cart l) in *. set (nd := length idx / degen).
  assert (Hlen : length idx = nd * degen).
  { unfold nd. pose proof (Nat.div_mod_eq (length idx) degen). lia. }
  assert (Hrun0 := Hrun). unfold prenao_block in Hrun. fold degen in Hrun.
  bind_ok Hrun as p_frag Hp.
  pose proof (@spheric_average_eye F SF Fring Fdiv n nd degen l idx
                Hdeg Hlen Hnd Hall) as Hs.
  rewrite Hs in Hrun. cbn [bind] in Hrun.
  bind_ok Hrun as ev He. destruct ev as [e v]. clear Hrun.
  assert (Hc := He). apply eigh_ok in Hc. destruct Hc as (Hel & Hv & Horth).
  destruct (@prenao_block_spec F SF eigh n nd l cart p (eye n) p_frag (eye nd)
              idx e v occ cao Hlen Hnd Hall Hocc (proj1 Hrot) Hp Hs He Hel Hv)
    as (occ2 & cao2 & Hrun2 & Hocc2 & Hsh2 & _ & _ & Hout & Hin).
  rewrite Hrun0 in Hrun2. inversion Hrun2; subst occ2 cao2. clear Hrun2.
  split; [exact Hocc2|].
  apply write_block_rotation
    with (nd := nd) (degen := degen) (v' := map (@rev F) v) (cao := cao);
    try assumption.
  apply orthonormal_columns_rev; assumption.
Qed.

(** All the blocks: when they partition the indices, the matrix
    [_prenao_sub] returns for the identity overlap has orthonormal
    columns. *)
Lemma prenao_sub_rotation (mol : Mole) (p : matrix F) (n : nat)
  (bs : list (nat * list nat)) (r : vec F * matrix F) :
  last_item (mol_ao_loc mol) = Ok n ->
  prenao_blocks mol = Ok bs -> blocks_partition (mol_cart mol) n bs ->
  _prenao_sub eigh mol p (eye n) = Ok r ->
  has_shape n n (snd r) /\ orthonormal_columns n n (snd r).
Proof.
  intros Hn Hbs [Hperm Hmods] Hrun.
  rewrite (prenao_sub_blocks eigh mol p (eye n) Hbs Hn) in Hrun.
  assert (Hnd : NoDup (concat (map snd bs))).
  { apply Permutation_NoDup with (seq 0 n);
      [apply Permutation_sym; exact Hperm | apply seq_NoDup]. }
  assert (Hlt : forall a, In a (concat (map snd bs)) -> a < n).
  { intros a Ha. apply (Permutation_in _ Hperm) in Ha. apply in_seq in Ha. lia. }
  assert (HP : length (fst r) = n /\
               partial_rotation n (concat (map snd bs)) (snd r)).
  { refine (@foldM_list_inv _ _
             (fun pre (st : vec F * matrix F) =>
                length (fst st) = n /\
                partial_rotation n (concat (map snd pre)) (snd st))
             _ bs (zeros n, zeros2 n n) r _ _ Hrun).
    - cbn [fst snd map concat]. split; [apply repeat_length|].
      split; [apply shape_zeros2|]. split.
      + intros a b _ _ _. apply entry_zeros2.
      + intros a b [].
    - intros pre [l idx] post [occ cao] [occ' cao'] Hsplit [Hocc Hrot] Hstep.
      cbn [fst snd] in *.
      rewrite map_app, concat_app. cbn [map concat]. rewrite app_nil_r.
      rewrite Hsplit, map_app in Hnd, Hlt. cbn [map] in Hnd, Hlt.
      destruct (NoDup_concat_block _ _ _ Hnd) as [Hnd_idx Hdisj].
      rewrite Hsplit in Hmods. apply Forall_app in Hmods.
      destruct Hmods as [_ Hmods]. apply Forall_inv in Hmods. rename Hmods into Hmod.
      cbn [fst snd] in Hmod.
      apply (@prenao_block_rotation n l (mol_cart mol) p idx
               (concat (map snd pre)) occ occ' cao cao'); try assumption.
      + apply Forall_forall. intros a Ha. apply Hlt.
        rewrite concat_app. apply in_or_app. right. simpl.
        apply in_or_app. auto.
      + apply Forall_forall. intros a Ha. apply Hlt.
        rewrite concat_app. apply in_or_app. auto. }
  destruct HP as [_ (Hsh & _ & Horth)]. split; [exact Hsh|].
  intros a b Ha Hb. apply Horth;
    apply (Permutation_in _ (Permutation_sym Hperm)); apply in_seq; lia.
Qed.

End RotationOfBlocks.
(** ** Grouping indices by a key *)

Lemma Permutation_filter_split {A : Type} (p : A -> bool) (L : list A) :
  Permutation (filter p L ++ filter (fun x => negb (p x)) L) L.
Proof.
  induction L as [|x L IH]; simpl; [constructor|].
  destruct (p x); simpl.
  - constructor. exact IH.
  - apply Permutation_sym. eapply Permutation_trans;
      [|apply Permutation_middle]. constructor. apply Permutation_sym. exact IH.
Qed.

Lemma filter_key_below {A : Type} (f : A -> nat) (l m : nat) (L : list A) :
  l < m ->
  filter (fun x => f x =? l) (filter (fun x => f x <? m) L) =
  filter (fun x => f x =? l) L.
Proof.
  intros Hl. induction L as [|x L IH]; simpl; [reflexivity|].
  destruct (f x <? m) eqn:E1; simpl.
  - rewrite IH. reflexivity.
  - apply Nat.ltb_ge in E1. destruct (f x =? l) eqn:E2; [|exact IH].
    apply Nat.eqb_eq in E2. lia.
Qed.

(** The items of a list, grouped by a key below [m] in the order of the
    keys, are the items of the list. *)
Lemma Permutation_group_by_key {A : Type} (f : A -> nat) (m : nat) :
  forall L : list A,
  (forall x, In x L -> f x < m) ->
  Permutation (flat_map (fun l => filter (fun x => f x =? l) L) (seq 0 m)) L.
Proof.
  induction m as [|m IH]; intros L HL.
  - destruct L as [|x L]; [constructor|].
    specialize (HL x (or_introl eq_refl)). lia.
  - rewrite seq_S, flat_map_app. cbn [flat_map plus]. rewrite app_nil_r.
    apply Permutation_trans with
      (filter (fun x => f x <? m) L ++ filter (fun x => negb (f x <? m)) L);
      [|apply Permutation_filter_split].
    apply Permutation_app.
    + assert (E : flat_map (fun l => filter (fun x => f x =? l) L) (seq 0 m) =
                  flat_map (fun l => filter (fun x => f x =? l)
                                       (filter (fun x => f x <? m) L)) (seq 0 m)).
      { rewrite !flat_map_concat_map. f_equal. apply map_ext_in.
        intros l Hl. apply in_seq in Hl. symmetry. apply filter_key_below. lia. }
      rewrite E. apply IH. intros x Hx. apply filter_In in Hx.
      destruct Hx as [_ Hx]. apply Nat.ltb_lt in Hx. exact Hx.
    + assert (E : filter (fun x => f x =? m) L =
                  filter (fun x => negb (f x <? m)) L).
      { apply filter_ext_in. intros x Hx. specialize (HL x Hx).
        destruct (f x =? m) eqn:E1; destruct (f x <? m) eqn:E2; simpl; try reflexivity.
        - apply Nat.eqb_eq in E1. apply Nat.ltb_lt in E2. lia.
        - apply Nat.eqb_neq in E1. apply Nat.ltb_ge in E2. lia. }
      rewrite E. apply Permutation_refl.
Qed.

Lemma fold_left_max_ge (t : list nat) :
  forall x, x <= fold_left Nat.max t x /\
            forall y, In y t -> y <= fold_left Nat.max t x.
Proof.
  induction t as [|a t IH]; intros x; simpl.
  - split; [lia | intros y []].
  - destruct (IH (Nat.max x a)) as [H1 H2]. split; [lia|].
    intros y [<- | Hy]; [lia | apply H2; exact Hy].
Qed.

Lemma np_max_ge (xs : list nat) (m : nat) :
  np_max xs = Ok m -> forall y, In y xs -> y <= m.
Proof.
  destruct xs as [|x t]; simpl; intros H; [discriminate|].
  inversion H; subst m. destruct (fold_left_max_ge t x) as [H1 H2].
  intros y [<- | Hy]; [exact H1 | apply H2; exact Hy].
Qed.

(** [numpy.where(xs == l)[0]] over the values [l] of the items finds
    every position once. *)
Lemma where_eq_partition (xs : list nat) (m : nat) :
  (forall y, In y xs -> y < m) ->
  Permutation (flat_map (where_eq xs) (seq 0 m)) (seq 0 (length xs)).
Proof.
  intros H. unfold where_eq.
  apply (@Permutation_group_by_key nat (fun i => nth i xs 0) m).
  intros i Hi. apply in_seq in Hi. apply H. apply nth_In. lia.
Qed.

(** Consecutive ranges join to one range. *)
Lemma flat_map_arange (ao : nat -> nat) (b k : nat) :
  (forall i, i < k -> ao (b + i) <= ao (b + i + 1)) ->
  ao b <= ao (b + k) /\
  flat_map (fun ib => arange (ao (b + ib)) (ao (b + ib + 1))) (seq 0 k)
  = arange (ao b) (ao (b + k)).
Proof.
  induction k as [|k IH]; intros H.
  - rewrite Nat.add_0_r. split; [lia|]. unfold arange. rewrite Nat.sub_diag.
    reflexivity.
  - destruct IH as [Hle IH]; [intros i Hi; apply H; lia|].
    specialize (H k (Nat.lt_succ_diag_r k)).
    replace (b + k + 1) with (b + S k) in H by lia.
    split; [lia|].
    rewrite seq_S, flat_map_app, IH. cbn [flat_map plus]. rewrite app_nil_r.
    replace (b + k + 1) with (b + S k) by lia.
    unfold arange.
    replace (ao (b + S k) - ao b) with ((ao (b + k) - ao b) + (ao (b + S k) - ao (b + k))) by lia.
    rewrite seq_app. f_equal. f_equal. lia.
Qed.
(** ** The blocks of [_prenao_sub] on a consistent molecule *)

Lemma mapM_Ok_eq {A B : Type} (f : A -> result B) (g : A -> B) (xs : list A) :
  forall ys,
  mapM f xs = Ok ys ->
  (forall x y, In x xs -> f x = Ok y -> y = g x) ->
  ys = map g xs.
Proof.
  induction xs as [|x t IH]; intros ys H Hg; simpl in H.
  - inversion H. reflexivity.
  - bind_ok H as y Hy. bind_ok H as ys' Hys. inversion H; subst ys.
    simpl. f_equal.
    + apply (Hg x y); [left; reflexivity | exact Hy].
    + apply IH; [exact Hys|]. intros x' y' Hin. apply Hg. right. exact Hin.
Qed.

Lemma flat_map_flat_map {A B C : Type} (f : A -> list B) (g : B -> list C)
  (l : list A) :
  flat_map (fun a => flat_map g (f a)) l = flat_map g (flat_map f l).
Proof.
  induction l as [|a l IH]; simpl; [reflexivity|].
  rewrite flat_map_app, IH. reflexivity.
Qed.

Lemma flat_map_snd_nonempty {A B : Type} (bs : list (A * list B)) :
  flat_map snd (filter (fun b => negb (length (snd b) <? 1)) bs) = flat_map snd bs.
Proof.
  induction bs as [|[a l] bs IH]; simpl; [reflexivity|].
  destruct l as [|x l]; simpl; [exact IH|]. rewrite IH. reflexivity.
Qed.

Lemma divide_length_flat_map {A B : Type} (g : A -> list B) (d : nat) (L : list A) :
  (forall x, In x L -> Nat.divide d (length (g x))) ->
  Nat.divide d (length (flat_map g L)).
Proof.
  induction L as [|x L IH]; intros H; simpl.
  - apply Nat.divide_0_r.
  - rewrite length_app. apply Nat.divide_add_r.
    + apply H. left. reflexivity.
    + apply IH. intros y Hy. apply H. right. exact Hy.
Qed.

Lemma length_slice {A : Type} (xs : list A) (a b : nat) :
  b <= length xs -> length (slice xs a b) = b - a.
Proof.
  intros H. unfold slice. rewrite length_skipn, length_firstn. lia.
Qed.

Lemma nth_slice {A : Type} (xs : list A) (a b i : nat) (d : A) :
  a + i < b -> nth i (slice xs a b) d = nth (a + i) xs d.
Proof.
  intros H. unfold slice. rewrite nth_skipn, nth_firstn.
  apply Nat.ltb_lt in H. rewrite H. reflexivity.
Qed.

Lemma last_item_nth (xs : list nat) (n : nat) :
  last_item xs = Ok n -> n = nth (length xs - 1) xs 0.
Proof.
  unfold last_item. destruct xs as [|x t] using rev_ind; simpl; [discriminate|].
  rewrite rev_app_distr. simpl. intros H. inversion H; subst n.
  rewrite length_app. simpl.
  replace (length t + 1 - 1) with (length t) by lia.
  rewrite nth_middle. reflexivity.
Qed.

Lemma hstack_Ok {A : Type} (parts : list (list A)) (xs : list A) :
  hstack parts = Ok xs -> xs = concat parts.
Proof.
  destruct parts; simpl; intros H; inversion H. reflexivity.
Qed.

(** The [idx] of one atom and one [l], when it is built without an error. *)
Lemma block_idx_Ok (ao_loc bas_ang : list nat) (b0 b1 l : nat) (idx : list nat) :
  block_idx ao_loc bas_ang b0 b1 l = Ok idx ->
  idx = flat_map (fun ib => arange (nth (b0 + ib) ao_loc 0)
                                   (nth (b0 + ib + 1) ao_loc 0))
                 (where_eq (slice bas_ang b0 b1) l).
Proof.
  unfold block_idx. intros H. bind_ok H as parts Hparts.
  apply hstack_Ok in H. subst idx. rewrite flat_map_concat_map. f_equal.
  apply (@mapM_Ok_eq _ _ _ _ _ _ Hparts).
  intros ib y _ Hy. bind_ok Hy as lo Hlo. bind_ok Hy as hi Hhi.
  inversion Hy; subst y.
  apply getitem_Ok in Hlo. apply getitem_Ok in Hhi.
  rewrite (nth_error_nth _ _ 0 Hlo), (nth_error_nth _ _ 0 Hhi). reflexivity.
Qed.

Section BlocksOfConsistentMolecule.

Variable mol : Mole.
Hypothesis Hmol : mol_consistent mol.

Local Abbreviation ao i := (nth i (mol_ao_loc mol) 0).
Local Abbreviation bas_ang := (map sh_ang (mol_bas mol)).

Lemma ao_step (i : nat) :
  i < nbas mol ->
  ao (i + 1) = ao i + shell_size (mol_cart mol) (nth i (mol_bas mol) (Shell 0 0 0)).
Proof.
  intros Hi. destruct Hmol as (_ & _ & Hstep & _).
  rewrite Nat.add_1_r. apply Hstep. exact Hi.
Qed.

Lemma ao_range (b k : nat) :
  b + k <= nbas mol ->
  ao b <= ao (b + k) /\
  flat_map (fun ib => arange (ao (b + ib)) (ao (b + ib + 1))) (seq 0 k)
  = arange (ao b) (ao (b + k)).
Proof.
  intros H. apply (@flat_map_arange (fun i => nth i (mol_ao_loc mol) 0) b k).
  intros i Hi.
  rewrite (@ao_step (b + i)) by lia. lia.
Qed.

Lemma arange_app (a b c : nat) :
  a <= b -> b <= c -> arange a b ++ arange b c = arange a c.
Proof.
  intros H1 H2. unfold arange.
  replace (c - a) with ((b - a) + (c - b)) by lia.
  rewrite seq_app. f_equal. f_equal. lia.
Qed.

(** One atom: its blocks hold the functions of its shells once, and each
    block has a whole number of radial functions. *)
Lemma atom_blocks_partition (b0 b1 p0 p1 : nat) (bs : list (nat * list nat)) :
  b0 <= b1 -> b1 <= nbas mol ->
  atom_blocks (mol_ao_loc mol) bas_ang (b0, b1, p0, p1) = Ok bs ->
  Permutation (flat_map snd bs) (arange (ao b0) (ao b1)) /\
  Forall (fun b => length (snd b) mod degen_of (mol_cart mol) (fst b) = 0) bs.
Proof.
  intros Hb01 Hb1 H. unfold atom_blocks in H.
  bind_ok H as l_max Hmax. bind_ok H as bs0 Hbs0. inversion H; subst bs. clear H.
  set (xs := slice bas_ang b0 b1) in *.
  assert (Hlen : length xs = b1 - b0).
  { unfold xs. apply length_slice. rewrite length_map. exact Hb1. }
  set (g := fun ib => arange (ao (b0 + ib)) (ao (b0 + ib + 1))).
  assert (Ebs0 : bs0 = map (fun l => (l, flat_map g (where_eq xs l)))
                           (seq 0 (l_max + 1))).
  { apply (@mapM_Ok_eq _ _ _ _ _ _ Hbs0). intros l y _ Hy.
    bind_ok Hy as idx Hidx. inversion Hy; subst y. f_equal.
    apply (block_idx_Ok _ _ _ _ _ Hidx). }
  split.
  - rewrite flat_map_snd_nonempty, Ebs0.
    rewrite flat_map_concat_map, map_map. cbn [snd].
    rewrite <- flat_map_concat_map.
    rewrite (flat_map_flat_map (where_eq xs) g).
    destruct (@ao_range b0 (b1 - b0)) as [_ Hr]; [lia|].
    replace (b0 + (b1 - b0)) with b1 in Hr by lia. rewrite <- Hr, <- Hlen.
    apply Permutation_flat_map. apply where_eq_partition.
    intros y Hy. pose proof (np_max_ge _ Hmax y Hy). lia.
  - apply Forall_forall. intros b Hb. apply filter_In in Hb. destruct Hb as [Hb _].
    rewrite Ebs0 in Hb. apply in_map_iff in Hb. destruct Hb as (l & <- & _).
    cbn [fst snd]. apply Nat.Lcm0.mod_divide.
    apply divide_length_flat_map. intros ib Hib.
    unfold where_eq in Hib. apply filter_In in Hib. destruct Hib as [Hin Hl].
    apply in_seq in Hin. apply Nat.eqb_eq in Hl.
    assert (Hi : b0 + ib < b1) by lia.
    unfold xs in Hl. rewrite nth_slice in Hl by exact Hi.
    rewrite (nth_indep _ 0 (sh_ang (Shell 0 0 0))) in Hl
      by (rewrite length_map; unfold nbas in Hb1; lia).
    rewrite map_nth in Hl.
    unfold g, arange. rewrite length_seq, (@ao_step (b0 + ib)) by lia.
    replace (ao (b0 + ib) + _ - ao (b0 + ib))
      with (shell_size (mol_cart mol) (nth (b0 + ib) (mol_bas mol) (Shell 0 0 0)))
      by lia.
    unfold shell_size. rewrite Hl. apply Nat.divide_factor_r.
Qed.

Lemma aoslice_tiles_le (rows : list (nat * nat * nat * nat)) (e : nat) :
  forall b, aoslice_tiles b rows e -> b <= e.
Proof.
  induction rows as [|[[[b0 b1] p0] p1] t IH]; intros b H; simpl in H.
  - lia.
  - destruct H as (-> & Hle & Ht). specialize (IH _ Ht). lia.
Qed.

(** All the atoms. *)
Lemma atoms_blocks_partition (rows : list (nat * nat * nat * nat)) (e : nat) :
  e <= nbas mol ->
  forall b bss,
  aoslice_tiles b rows e ->
  mapM (atom_blocks (mol_ao_loc mol) bas_ang) rows = Ok bss ->
  Permutation (flat_map snd (concat bss)) (arange (ao b) (ao e)) /\
  Forall (fun b => length (snd b) mod degen_of (mol_cart mol) (fst b) = 0)
         (concat bss).
Proof.
  intros He. induction rows as [|[[[b0 b1] p0] p1] t IH]; intros b bss Ht H;
    simpl in Ht; cbn [mapM] in H.
  - inversion H; subst bss. subst e. simpl. unfold arange. rewrite Nat.sub_diag.
    split; constructor.
  - destruct Ht as (-> & Hle & Ht).
    bind_ok H as bs Hbs. bind_ok H as bss' Hbss. inversion H; subst bss. clear H.
    pose proof (aoslice_tiles_le _ _ _ Ht) as Hb1e.
    destruct (@atom_blocks_partition b b1 p0 p1 bs Hle
                (Nat.le_trans _ _ _ Hb1e He) Hbs) as [Hp1 Hm1].
    destruct (IH _ _ Ht Hbss) as [Hp2 Hm2].
    cbn [concat]. split.
    + rewrite flat_map_app.
      destruct (@ao_range b (b1 - b)) as [Hle1 _]; [lia|].
      destruct (@ao_range b1 (e - b1)) as [Hle2 _]; [lia|].
      replace (b + (b1 - b)) with b1 in Hle1 by lia.
      replace (b1 + (e - b1)) with e in Hle2 by lia.
      rewrite <- (arange_app Hle1 Hle2). apply Permutation_app; assumption.
    + apply Forall_app. split; assumption.
Qed.

(** On a consistent molecule the blocks [_prenao_sub] visits hold each
    basis function once. *)
Lemma prenao_blocks_partition (n : nat) (bs : list (nat * list nat)) :
  last_item (mol_ao_loc mol) = Ok n ->
  prenao_blocks mol = Ok bs ->
  blocks_partition (mol_cart mol) n bs.
Proof.
  intros Hn Hbs. unfold prenao_blocks in Hbs. bind_ok Hbs as bss Hbss.
  inversion Hbs; subst bs. clear Hbs.
  pose proof Hmol as (Hlen & H0 & _ & Ht).
  destruct (@atoms_blocks_partition (mol_aoslice mol) (nbas mol) (Nat.le_refl _)
              0 bss Ht Hbss) as [Hp Hm].
  apply last_item_nth in Hn. rewrite Hlen in Hn.
  replace (S (nbas mol) - 1) with (nbas mol) in Hn by lia.
  unfold arange in Hp. rewrite H0, Nat.sub_0_r, <- Hn in Hp.
  split; [|exact Hm]. rewrite <- flat_map_concat_map. exact Hp.
Qed.

End BlocksOfConsistentMolecule.

Lemma list_sum_firstn_S {A : Type} (f : A -> nat) (d : A) (xs : list A) :
  forall k, k < length xs ->
  list_sum (map f (firstn (S k) xs)) = list_sum (map f (firstn k xs)) + f (nth k xs d).
Proof.
  induction xs as [|a xs IH]; intros k Hk; simpl in Hk; [lia|].
  destruct k as [|k].
  - simpl. lia.
  - change (firstn (S (S k)) (a :: xs)) with (a :: firstn (S k) xs).
    change (firstn (S k) (a :: xs)) with (a :: firstn k xs).
    cbn [map nth].
    assert (E : forall x l, list_sum (x :: l) = x + list_sum l) by reflexivity.
    rewrite !E, IH by lia. lia.
Qed.

(** On a consistent molecule the last offset is the number of basis
    functions. *)
Lemma consistent_last_item (mol : Mole) :
  mol_consistent mol -> last_item (mol_ao_loc mol) = Ok (nao_nr mol).
Proof.
  intros (Hlen & H0 & Hstep & _).
  assert (Hsum : forall k, k <= nbas mol ->
            nth k (mol_ao_loc mol) 0 =
            list_sum (map (shell_size (mol_cart mol)) (firstn k (mol_bas mol)))).
  { induction k as [|k IH]; intros Hk; [exact H0|].
    rewrite Hstep by lia. rewrite IH by lia.
    symmetry. apply list_sum_firstn_S. exact Hk. }
  destruct (last_item (mol_ao_loc mol)) as [n|e] eqn:E.
  - apply last_item_nth in E. rewrite Hlen in E.
    replace (S (nbas mol) - 1) with (nbas mol) in E by lia.
    rewrite Hsum in E by lia. unfold nbas in E. rewrite firstn_all in E.
    subst n. reflexivity.
  - unfold last_item in E. destruct (rev (mol_ao_loc mol)) eqn:Er; [|discriminate].
    apply (f_equal (@length nat)) in Er. rewrite length_rev, Hlen in Er.
    discriminate.
Qed.
Section PreNaoOrthogonal.

Context {F : Type} {SF : Scalar F}.
Hypothesis Fring : ring_theory zero one add mul sub opp (@eq F).
Variable eigh : matrix F -> matrix F -> result (vec F * matrix F).

Lemma prenao_l_Ok_blocks (mol : Mole) (p s : matrix F) (bas_ang : list nat)
  (b0 b1 : nat) (ls : list nat) :
  forall st st',
  foldM (prenao_l eigh mol p s bas_ang b0 b1) ls st = Ok st' ->
  exists bs,
    mapM (fun l => idx <- block_idx (mol_ao_loc mol) bas_ang b0 b1 l ;; Ok (l, idx))
         ls = Ok bs.
Proof.
  induction ls as [|l t IH]; intros st st' H; cbn [foldM mapM] in *.
  - eexists. reflexivity.
  - bind_ok H as st1 Hst1. apply IH in H. destruct H as [bs Hbs].
    unfold prenao_l in Hst1. bind_ok Hst1 as idx Hidx.
    rewrite Hidx, Hbs. cbn [bind]. eexists. reflexivity.
Qed.

Lemma prenao_atoms_Ok_blocks (mol : Mole) (p s : matrix F)
  (sls : list (nat * nat * nat * nat)) :
  forall st st',
  foldM (prenao_atom eigh mol p s (map sh_ang (mol_bas mol))) sls st = Ok st' ->
  exists bss,
    mapM (atom_blocks (mol_ao_loc mol) (map sh_ang (mol_bas mol))) sls = Ok bss.
Proof.
  induction sls as [|sl t IH]; intros st st' H; cbn [foldM mapM] in *.
  - eexists. reflexivity.
  - bind_ok H as st1 Hst1. apply IH in H. destruct H as [bss Hbss].
    destruct sl as [[[b0 b1] p0] p1]. unfold prenao_atom in Hst1.
    bind_ok Hst1 as l_max Hmax.
    apply prenao_l_Ok_blocks in Hst1. destruct Hst1 as [bs Hbs].
    unfold atom_blocks at 1. rewrite Hmax. cbn [bind]. rewrite Hbs. cbn [bind].
    rewrite Hbss. cbn [bind]. eexists. reflexivity.
Qed.

(** When [_prenao_sub] returns, every block was built. *)
Lemma prenao_sub_Ok_blocks (mol : Mole) (p s : matrix F) (r : vec F * matrix F) :
  _prenao_sub eigh mol p s = Ok r ->
  exists n bs, last_item (mol_ao_loc mol) = Ok n /\ prenao_blocks mol = Ok bs.
Proof.
  unfold _prenao_sub. intros H. bind_ok H as n Hn.
  apply prenao_atoms_Ok_blocks in H. destruct H as [bss Hbss].
  exists n, (concat bss). split; [exact Hn|].
  unfold prenao_blocks. rewrite Hbss. reflexivity.
Qed.

(** On a consistent molecule, with the identity as overlap, the columns
    of the returned coefficients are orthonormal. *)
Lemma prenao_sub_consistent_rotation (mol : Mole) (n : nat)
  (p : matrix F) (r : vec F * matrix F) :
  averaging_division F -> eigh_orthonormal eigh ->
  mol_consistent mol -> nao_nr mol = n ->
  _prenao_sub eigh mol p (eye n) = Ok r ->
  has_shape n n (snd r) /\ orthonormal_columns n n (snd r).
Proof.
  intros Fdiv Heigh Hmol Hnao Hrun.
  pose proof (consistent_last_item Hmol) as Hlast. rewrite Hnao in Hlast.
  assert (Hb := Hrun). apply prenao_sub_Ok_blocks in Hb.
  destruct Hb as (n' & bs & _ & Hbs).
  pose proof (prenao_blocks_partition Hmol Hlast Hbs) as Hpart.
  apply (@prenao_sub_rotation F SF Fring Fdiv eigh Heigh mol p n bs r
           Hlast Hbs Hpart Hrun).
Qed.

(** X20. With the identity as overlap, the pre-NAO coefficients are an
    orthogonal matrix.  For a molecule with [n > 0] basis functions whose
    offsets and atom rows are consistent with its shells, and an
    eigensolver that returns orthonormal eigenvectors: when
    [_prenao_sub(mol, p, eye(n))] returns, the (atom, l) blocks its loops
    visit hold each basis function exactly once, each in a whole number of
    radial functions, and the coefficients [cao] it returns are [n] by [n]
    with [cao.T cao = 1], whatever [p] is. *)
Theorem prenao_sub_identity_overlap_orthogonal (mol : Mole) (n : nat)
  (p : matrix F) (occ : vec F) (cao : matrix F) :
  averaging_division F -> eigh_orthonormal eigh ->
  mol_consistent mol -> nao_nr mol = n -> 0 < n ->
  _prenao_sub eigh mol p (eye n) = Ok (occ, cao) ->
  (exists bs, prenao_blocks mol = Ok bs /\
              blocks_partition (mol_cart mol) n bs) /\
  has_shape n n cao /\ matmul (transpose cao) cao = eye n.
Proof.
  intros Fdiv Heigh Hmol Hnao Hn Hrun. split.
  - pose proof (consistent_last_item Hmol) as Hlast. rewrite Hnao in Hlast.
    assert (Hb := Hrun). apply prenao_sub_Ok_blocks in Hb.
    destruct Hb as (n' & bs & _ & Hbs). exists bs. split; [exact Hbs|].
    apply (prenao_blocks_partition Hmol Hlast Hbs).
  - destruct (@prenao_sub_consistent_rotation mol n p (occ, cao)
                Fdiv Heigh Hmol Hnao Hrun) as [Hsh Horth].
    cbn [snd] in Hsh, Horth. split; [exact Hsh|].
    apply orthonormal_columns_gram; assumption.
Qed.

End PreNaoOrthogonal.
(** ** When [_prenao_sub] returns *)

Lemma foldM_inv_or {St X : Type} (P : St -> Prop) (Q : X -> Prop)
  (R : exn -> Prop) (body : St -> X -> result St) (xs : list X) :
  (forall s x, P s -> Q x ->
     (exists s', body s x = Ok s' /\ P s') \/ (exists e, body s x = Raise e /\ R e)) ->
  Forall Q xs ->
  forall st0, P st0 ->
  (exists st, foldM body xs st0 = Ok st /\ P st) \/
  (exists e, foldM body xs st0 = Raise e /\ R e).
Proof.
  intros Hstep. induction 1 as [|x t Hx _ IH]; intros st0 H0; cbn [foldM].
  - left. exists st0. auto.
  - destruct (Hstep st0 x H0 Hx) as [(s' & Hs' & HP) | (e & He & HR)].
    + rewrite Hs'. cbn [bind]. apply IH. exact HP.
    + rewrite He. cbn [bind]. right. exists e. auto.
Qed.

Lemma np_max_In (xs : list nat) (m : nat) : np_max xs = Ok m -> In m xs.
Proof.
  destruct xs as [|x t]; simpl; intros H; [discriminate|].
  inversion H; subst m. clear H. revert x.
  induction t as [|a t IH]; intros x; [left; reflexivity|].
  cbn [fold_left]. destruct (IH (Nat.max x a)) as [E | Hin].
  - destruct (Nat.max_spec x a) as [[_ Hm] | [_ Hm]].
    + right. left. rewrite <- E. symmetry. exact Hm.
    + left. rewrite <- E. symmetry. exact Hm.
  - right. right. exact Hin.
Qed.

Lemma where_eq_In (xs : list nat) (l : nat) :
  In l xs -> where_eq xs l <> [].
Proof.
  intros Hin. apply (In_nth _ _ 0) in Hin. destruct Hin as (i & Hi & Hl).
  assert (H : In i (where_eq xs l)).
  { unfold where_eq. apply filter_In. split; [apply in_seq; lia|].
    apply Nat.eqb_eq. exact Hl. }
  intros E. rewrite E in H. exact H.
Qed.

Lemma NoDup_concat_In {A : Type} (ls : list (list A)) (l : list A) :
  NoDup (concat ls) -> In l ls -> NoDup l.
Proof.
  induction ls as [|a ls IH]; simpl; intros Hnd Hl; [contradiction|].
  destruct Hl as [<- | Hin].
  - apply NoDup_app_remove_r in Hnd. exact Hnd.
  - apply IH; [|exact Hin]. apply NoDup_app_remove_l in Hnd. exact Hnd.
Qed.

Section PreNaoReturns.

Context {F : Type} {SF : Scalar F}.
Variable eigh : matrix F -> matrix F -> result (vec F * matrix F).
Hypothesis eigh_ok : eigh_shapes eigh.

(** On a consistent molecule whose atoms are complete every block is
    built. *)
Lemma prenao_blocks_total (mol : Mole) :
  mol_consistent mol -> atoms_complete mol ->
  exists bs, prenao_blocks mol = Ok bs.
Proof.
  intros Hmol Hcomp. pose proof Hmol as (Hlen & _ & _ & Ht).
  unfold prenao_blocks.
  assert (H : forall rows b,
             aoslice_tiles b rows (nbas mol) ->
             Forall (fun sl : nat * nat * nat * nat =>
                       let '(b0, b1, _, _) := sl in
                       let ls := slice (map sh_ang (mol_bas mol)) b0 b1 in
                       b0 < b1 /\ forall l m, In m ls -> l <= m -> In l ls) rows ->
             exists bss, mapM (atom_blocks (mol_ao_loc mol)
                                 (map sh_ang (mol_bas mol))) rows = Ok bss).
  { induction rows as [|[[[b0 b1] p0] p1] t IH]; intros b Htl Hall; cbn [mapM].
    - eexists. reflexivity.
    - simpl in Htl. destruct Htl as (-> & _ & Htl).
      apply Forall_cons_iff in Hall. destruct Hall as [Hhd Hall'].
      cbv beta iota zeta in Hhd. destruct Hhd as [Hlt Hgap].
      destruct (IH _ Htl Hall') as [bss Hbss]. rewrite Hbss.
      pose proof (aoslice_tiles_le _ _ _ Htl) as Hb1.
      set (xs := slice (map sh_ang (mol_bas mol)) b b1) in *.
      assert (Hxs : length xs = b1 - b).
      { unfold xs. apply length_slice. rewrite length_map. exact Hb1. }
      unfold atom_blocks at 1. fold xs.
      destruct (np_max xs) as [l_max|e] eqn:Emax;
        [|destruct xs; [simpl in Hxs; lia | discriminate]].
      cbn [bind]. apply np_max_In in Emax.
      assert (Hb : exists bs0,
                 mapM (fun l => idx <- block_idx (mol_ao_loc mol)
                                         (map sh_ang (mol_bas mol)) b b1 l ;;
                                Ok (l, idx)) (seq 0 (l_max + 1)) = Ok bs0).
      { eexists. apply mapM_Ok_map with
          (g := fun l => (l, flat_map
                   (fun ib => arange (nth (b + ib) (mol_ao_loc mol) 0)
                                     (nth (b + ib + 1) (mol_ao_loc mol) 0))
                   (where_eq xs l))).
        intros l Hl. apply in_seq in Hl. unfold block_idx. fold xs.
        assert (Hne : where_eq xs l <> []).
        { apply where_eq_In. apply (Hgap l l_max Emax). lia. }
        rewrite (@mapM_Ok_map _ _ _
                   (fun ib => arange (nth (b + ib) (mol_ao_loc mol) 0)
                                     (nth (b + ib + 1) (mol_ao_loc mol) 0))).
        - cbn [bind]. rewrite flat_map_concat_map.
          destruct (where_eq xs l) as [|i0 rest]; [contradiction|].
          reflexivity.
        - intros ib Hib. unfold where_eq in Hib. apply filter_In in Hib.
          destruct Hib as [Hib _]. apply in_seq in Hib.
          unfold nbas in *.
          rewrite (getitem_nth (mol_ao_loc mol) 0) by lia. cbn [bind].
          rewrite (getitem_nth (mol_ao_loc mol) 0) by lia. reflexivity. }
      destruct Hb as [bs0 Hbs0]. rewrite Hbs0. cbn [bind].
      eexists. reflexivity. }
  destruct (H _ _ Ht Hcomp) as [bss Hbss]. rewrite Hbss. cbn [bind].
  eexists. reflexivity.
Qed.

(** One block, when the averages can be taken: it is written, or the
    eigensolver raised. *)
Lemma prenao_block_returns (n l : nat) (cart : bool) (p s : matrix F)
  (idx : list nat) (occ : vec F) (cao : matrix F) :
  square n p -> square n s ->
  length idx mod degen_of cart l = 0 -> NoDup idx ->
  Forall (fun a => a < n) idx ->
  length occ = n -> has_shape n n cao ->
  (exists st', prenao_block eigh cart p s l idx (occ, cao) = Ok st' /\
               length (fst st') = n /\ has_shape n n (snd st')) \/
  (exists e, prenao_block eigh cart p s l idx (occ, cao) = Raise e /\
             exists a b, eigh a b = Raise e).
Proof.
  intros Hp Hs Hmod Hnd Hall Hocc Hcao.
  pose proof (degen_of_pos cart l) as Hdeg.
  set (degen := degen_of cart l) in *. set (nd := length idx / degen).
  assert (Hlen : length idx = nd * degen).
  { unfold nd. pose proof (Nat.div_mod_eq (length idx) degen). lia. }
  destruct (@spheric_average_mat_block_sums F SF n nd degen l p idx
              Hdeg Hlen Hp Hall) as (p_frag & Hpf & Hpsh & _).
  destruct (@spheric_average_mat_block_sums F SF n nd degen l s idx
              Hdeg Hlen Hs Hall) as (s_frag & Hsf & Hssh & _).
  destruct (eigh p_frag s_frag) as [[e v]|err] eqn:He.
  - assert (Hc := He). apply (eigh_ok Hpsh Hssh) in Hc. destruct Hc as [Hel Hv].
    destruct (@prenao_block_spec F SF eigh n nd l cart p s p_frag s_frag
                idx e v occ cao Hlen Hnd Hall Hocc Hcao Hpf Hsf He Hel Hv)
      as (occ' & cao' & Hrun & Hocc' & Hsh' & _).
    left. exists (occ', cao'). auto.
  - right. exists err. split; [|eauto].
    unfold prenao_block. fold degen. rewrite Hpf, Hsf. cbn [bind].
    rewrite He. reflexivity.
Qed.

(** X21. On well-formed input [_prenao_sub] fails only where the
    eigensolver fails.  For a molecule whose offsets and atom rows are
    consistent with its shells and whose atoms each have shells of every
    angular momentum up to their highest, square matrices [p] and [s] of
    its [n] basis functions, and an eigensolver that returns arrays of the
    shapes of its problem: [_prenao_sub] returns [n] occupations and an
    [n] by [n] array, or it raises an exception the eigensolver raised. *)
Theorem prenao_sub_returns_or_eigh_raises (mol : Mole) (n : nat)
  (p s : matrix F) :
  mol_consistent mol -> atoms_complete mol -> nao_nr mol = n ->
  square n p -> square n s ->
  (exists occ cao, _prenao_sub eigh mol p s = Ok (occ, cao) /\
                   length occ = n /\ has_shape n n cao) \/
  (exists e, _prenao_sub eigh mol p s = Raise e /\
             exists a b, eigh a b = Raise e).
Proof.
  intros Hmol Hcomp Hnao Hp Hs.
  pose proof (consistent_last_item Hmol) as Hlast. rewrite Hnao in Hlast.
  destruct (prenao_blocks_total Hmol Hcomp) as [bs Hbs].
  destruct (prenao_blocks_partition Hmol Hlast Hbs) as [Hperm Hmods].
  rewrite (prenao_sub_blocks eigh mol p s Hbs Hlast).
  assert (Hnd : NoDup (concat (map snd bs))).
  { apply Permutation_NoDup with (seq 0 n);
      [apply Permutation_sym; exact Hperm | apply seq_NoDup]. }
  assert (HQ : Forall (fun b : nat * list nat =>
                         length (snd b) mod degen_of (mol_cart mol) (fst b) = 0 /\
                         NoDup (snd b) /\ Forall (fun a => a < n) (snd b)) bs).
  { apply Forall_forall. intros b Hb. split; [|split].
    - rewrite Forall_forall in Hmods. apply Hmods. exact Hb.
    - apply (@NoDup_concat_In _ (map snd bs) (snd b) Hnd). apply in_map. exact Hb.
    - apply Forall_forall. intros a Ha.
      assert (Hin : In a (concat (map snd bs))).
      { apply in_concat. exists (snd b). split; [apply in_map; exact Hb | exact Ha]. }
      apply (Permutation_in _ Hperm) in Hin. apply in_seq in Hin. lia. }
  destruct (@foldM_inv_or _ _
              (fun st : vec F * matrix F => length (fst st) = n /\ has_shape n n (snd st))
              (fun b : nat * list nat =>
                 length (snd b) mod degen_of (mol_cart mol) (fst b) = 0 /\
                 NoDup (snd b) /\ Forall (fun a => a < n) (snd b))
              (fun e => exists a b, eigh a b = Raise e)
              (fun st b => prenao_block eigh (mol_cart mol) p s (fst b) (snd b) st)
              bs) with (st0 := (@zeros F SF n, @zeros2 F SF n n))
    as [(st & Hst & Hocc & Hsh) | (e & He & HR)].
  - intros [occ cao] [l idx] [Hocc Hcao] (Hmod & Hndi & Halli). cbn [fst snd] in *.
    destruct (@prenao_block_returns n l (mol_cart mol) p s idx occ cao
                Hp Hs Hmod Hndi Halli Hocc Hcao)
      as [(st' & Hrun & H1 & H2) | (e & Hrun & HR)]; [left | right]; eauto.
  - exact HQ.
  - cbn [fst snd]. split; [apply repeat_length | apply shape_zeros2].
  - left. destruct st as [occ cao]. exists occ, cao. auto.
  - right. exists e. auto.
Qed.

(** One block that was written: what it left alone. *)
Lemma prenao_block_outside (n l : nat) (cart : bool) (p s : matrix F)
  (idx : list nat) (occ occ' : vec F) (cao cao' : matrix F) :
  square n p -> square n s ->
  length idx mod degen_of cart l = 0 -> NoDup idx ->
  Forall (fun a => a < n) idx ->
  length occ = n -> has_shape n n cao ->
  prenao_block eigh cart p s l idx (occ, cao) = Ok (occ', cao') ->
  length occ' = n /\ has_shape n n cao' /\
  forall a b,
    ~ same_component idx (degen_of cart l) (length idx / degen_of cart l) a b ->
    entry cao' a b = entry cao a b.
Proof.
  intros Hp Hs Hmod Hnd Hall Hocc Hcao Hrun.
  pose proof (degen_of_pos cart l) as Hdeg.
  set (degen := degen_of cart l) in *. set (nd := length idx / degen).
  assert (Hlen : length idx = nd * degen).
  { unfold nd. pose proof (Nat.div_mod_eq (length idx) degen). lia. }
  destruct (@spheric_average_mat_block_sums F SF n nd degen l p idx
              Hdeg Hlen Hp Hall) as (p_frag & Hpf & Hpsh & _).
  destruct (@spheric_average_mat_block_sums F SF n nd degen l s idx
              Hdeg Hlen Hs Hall) as (s_frag & Hsf & Hssh & _).
  assert (Hrun0 := Hrun). unfold prenao_block in Hrun. fold degen in Hrun.
  rewrite Hpf, Hsf in Hrun. cbn [bind] in Hrun.
  bind_ok Hrun as ev He. destruct ev as [e v]. clear Hrun.
  assert (Hc := He). apply (eigh_ok Hpsh Hssh) in Hc. destruct Hc as [Hel Hv].
  destruct (@prenao_block_spec F SF eigh n nd l cart p s p_frag s_frag
              idx e v occ cao Hlen Hnd Hall Hocc Hcao Hpf Hsf He Hel Hv)
    as (occ2 & cao2 & Hrun2 & Hocc2 & Hsh2 & _ & _ & Hout & _).
  rewrite Hrun0 in Hrun2. inversion Hrun2; subst occ2 cao2. auto.
Qed.

(** X23. Every pre-NAO lives on one component of one block.  For a
    consistent molecule with [n] basis functions, square matrices [p] and
    [s] and an eigensolver whose results have the shapes of its problem:
    in the coefficients [_prenao_sub] returns, the entry [(a, b)] is zero
    unless [a] and [b] are functions of the same atom, the same angular
    momentum and the same component. *)
Theorem prenao_sub_block_diagonal (mol : Mole) (n : nat) (p s : matrix F)
  (bs : list (nat * list nat)) (occ : vec F) (cao : matrix F) :
  mol_consistent mol -> nao_nr mol = n ->
  square n p -> square n s ->
  prenao_blocks mol = Ok bs ->
  _prenao_sub eigh mol p s = Ok (occ, cao) ->
  forall a b,
    (forall l idx, In (l, idx) bs ->
       ~ same_component idx (degen_of (mol_cart mol) l)
           (length idx / degen_of (mol_cart mol) l) a b) ->
    entry cao a b = zero.
Proof.
  intros Hmol Hnao Hp Hs Hbs Hrun.
  pose proof (consistent_last_item Hmol) as Hlast. rewrite Hnao in Hlast.
  destruct (prenao_blocks_partition Hmol Hlast Hbs) as [Hperm Hmods].
  rewrite (prenao_sub_blocks eigh mol p s Hbs Hlast) in Hrun.
  assert (Hnd : NoDup (concat (map snd bs))).
  { apply Permutation_NoDup with (seq 0 n);
      [apply Permutation_sym; exact Hperm | apply seq_NoDup]. }
  assert (HP : length (fst (occ, cao)) = n /\ has_shape n n (snd (occ, cao)) /\
               forall a b,
                 (forall l idx, In (l, idx) bs ->
                    ~ same_component idx (degen_of (mol_cart mol) l)
                        (length idx / degen_of (mol_cart mol) l) a b) ->
                 entry (snd (occ, cao)) a b = zero).
  { refine (@foldM_list_inv _ _
              (fun pre (st : vec F * matrix F) =>
                 length (fst st) = n /\ has_shape n n (snd st) /\
                 forall a b,
                   (forall l idx, In (l, idx) pre ->
                      ~ same_component idx (degen_of (mol_cart mol) l)
                          (length idx / degen_of (mol_cart mol) l) a b) ->
                   entry (snd st) a b = zero)
              _ bs (zeros n, zeros2 n n) (occ, cao) _ _ Hrun).
    - cbn [fst snd]. split; [apply repeat_length|].
      split; [apply shape_zeros2|]. intros a b _. apply entry_zeros2.
    - intros pre [l idx] post [occ1 cao1] [occ2 cao2] Hsplit (Hocc1 & Hsh1 & Hz) Hstep.
      cbn [fst snd] in *.
      assert (Hin : In (l, idx) bs).
      { rewrite Hsplit. apply in_or_app. right. left. reflexivity. }
      assert (Hmod : length idx mod degen_of (mol_cart mol) l = 0).
      { rewrite Forall_forall in Hmods. apply (Hmods (l, idx) Hin). }
      assert (Hndi : NoDup idx).
      { apply (@NoDup_concat_In _ (map snd bs) idx Hnd).
        apply (in_map snd) in Hin. exact Hin. }
      assert (Halli : Forall (fun a => a < n) idx).
      { apply Forall_forall. intros a Ha.
        assert (Hc : In a (concat (map snd bs))).
        { apply in_concat. exists idx. split; [|exact Ha].
          apply (in_map snd) in Hin. exact Hin. }
        apply (Permutation_in _ Hperm) in Hc. apply in_seq in Hc. lia. }
      destruct (@prenao_block_outside n l (mol_cart mol) p s idx occ1 occ2 cao1 cao2
                  Hp Hs Hmod Hndi Halli Hocc1 Hsh1 Hstep) as (Hocc2 & Hsh2 & Hout).
      split; [exact Hocc2|]. split; [exact Hsh2|].
      intros a b Hab. rewrite Hout.
      + apply Hz. intros l' idx' Hin'. apply Hab. apply in_or_app. left. exact Hin'.
      + apply Hab. apply in_or_app. right. left. reflexivity. }
  cbn [fst snd] in HP. destruct HP as (_ & _ & HP). exact HP.
Qed.

End PreNaoReturns.
Section Restoration.

Context {F : Type} {SF : Scalar F}.
Hypothesis Fring : ring_theory zero one add mul sub opp (@eq F).

Lemma np_dot_Ok (A B C : matrix F) :
  np_dot A B = Ok C -> C = matmul A B.
Proof.
  unfold np_dot. destruct (ncols A =? nrows B); intros H; inversion H.
  reflexivity.
Qed.

Lemma nrows_matmul (A B : matrix F) : nrows (matmul A B) = nrows A.
Proof. unfold matmul, nrows. apply length_map. Qed.

(** X19. The restoration step of [nao] keeps the orbitals orthonormal.
    For a molecule with [n > 0] basis functions whose offsets and atom
    rows are consistent with its shells, an eigensolver that returns
    orthonormal eigenvectors and coefficients [cnao] with
    [cnao.T S cnao = 1]: when the step returns, the coefficients it
    returns are again [n] by [n] and satisfy the same equation, whatever
    the density [p] is. *)
Theorem restore_pass_keeps_orthonormality
  (eigh : matrix F -> matrix F -> result (vec F * matrix F))
  (mol : Mole) (n : nat) (p s cnao cnao' : matrix F) :
  averaging_division F -> eigh_orthonormal eigh ->
  mol_consistent mol -> nao_nr mol = n -> 0 < n ->
  has_shape n n s -> has_shape n n cnao ->
  matmul (transpose cnao) (matmul s cnao) = eye n ->
  restore_pass eigh mol p cnao = Ok cnao' ->
  has_shape n n cnao' /\
  matmul (transpose cnao') (matmul s cnao') = eye n.
Proof.
  intros Fdiv Heigh Hmol Hnao Hn Hs Hc Hgram Hrun.
  unfold restore_pass in Hrun.
  bind_ok Hrun as p_nao Hp. bind_ok Hrun as r Hr.
  apply np_dot_Ok in Hrun. subst cnao'.
  assert (Hrows : nrows p_nao = n).
  { unfold np_dot3 in Hp. bind_ok Hp as tp Htp.
    apply np_dot_Ok in Htp. apply np_dot_Ok in Hp. subst p_nao tp.
    rewrite !nrows_matmul. apply (shape_transpose Hc Hn). }
  rewrite Hrows in Hr.
  destruct (@prenao_sub_consistent_rotation F SF Fring eigh mol n p_nao r
              Fdiv Heigh Hmol Hnao Hr) as [Hsh Horth].
  split.
  - apply (shape_matmul Hc Hsh Hn).
  - apply (rotation_keeps_gram Fring Hn Hc Hs Hsh Hgram Horth).
Qed.

End Restoration.
(** The stand-in eigensolver meets the contract of the restoration
    theorem, and the rationals divide as the averaging needs. *)
Lemma eigh_diag_orthonormal : eigh_orthonormal eigh_diag.
Proof.
  intros a nd e v H. unfold eigh_diag in H. cbv zeta in H.
  match type of H with (if ?c then _ else _) = _ => destruct c eqn:E end;
    [|discriminate].
  inversion H; subst e v; clear H.
  apply andb_prop in E. destruct E as [E _].
  apply andb_prop in E. destruct E as [E _].
  apply andb_prop in E. destruct E as [E _].
  apply Nat.eqb_eq in E.
  assert (Hnd : nrows a = nd).
  { rewrite <- E. unfold nrows, eye. rewrite length_map, length_seq. reflexivity. }
  rewrite Hnd. split; [rewrite length_map, length_seq; reflexivity|].
  split; [apply shape_eye | apply (@eye_orthonormal _ Qc_scalar Qcanon.Qcrt)].
Qed.

Lemma Qc_sum_ones (d : nat) :
  sum_upto d (fun _ => one) = q (Z.of_nat d).
Proof.
  unfold sum_upto. generalize 0. induction d as [|d IH]; intros s.
  - reflexivity.
  - cbn [seq map vsum fold_right]. change (fold_right add zero ?l) with (vsum l).
    rewrite IH. unfold q. cbn [one add Qc_scalar]. unfold Qcanon.Qcplus.
    apply Qcanon.Q2Qc_eq_iff. cbn [Qcanon.this Qcanon.Q2Qc].
    eapply QArith_base.Qeq_trans;
      [apply QArith_base.Qplus_comp; apply Qreduction.Qred_correct|].
    unfold QArith_base.Qeq, QArith_base.Qplus, QArith_base.inject_Z.
    cbn [QArith_base.Qnum QArith_base.Qden]. lia.
Qed.

Lemma Qc_averaging_division : averaging_division Qcanon.Qc.
Proof.
  intros d Hd. split.
  - rewrite Qc_sum_ones. cbn [div of_Z Qc_scalar]. fold (q (Z.of_nat d)).
    unfold Qcanon.Qcdiv. apply Qcanon.Qcmult_inv_r.
    intros H. unfold q in H. apply Qcanon.Q2Qc_eq_iff in H.
    unfold QArith_base.Qeq, QArith_base.inject_Z in H. simpl in H. lia.
  - cbn [div zero of_Z Qc_scalar]. unfold Qcanon.Qcdiv.
    apply Qcanon.Qcmult_0_l.
Qed.

(** Two arrays of rationals are equal when their entries are equal as
    fractions. *)
Lemma Qc_matrix_eq (A B : matrix Qcanon.Qc) :
  map (map Qcanon.this) A = map (map Qcanon.this) B -> A = B.
Proof.
  assert (Hrow : forall u v : vec Qcanon.Qc,
            map Qcanon.this u = map Qcanon.this v -> u = v).
  { induction u as [|x u IH]; destruct v as [|y v]; simpl; intros H;
      try discriminate; [reflexivity|].
    injection H as Hx Hu. f_equal; [|apply IH; exact Hu].
    apply Qcanon.Qc_is_canon. rewrite Hx. reflexivity. }
  revert B. induction A as [|r A IH]; destruct B as [|r' B]; simpl; intros H;
    try discriminate; [reflexivity|].
  injection H as Hr HA. f_equal; [apply Hrow; exact Hr | apply IH; exact HA].
Qed.

Lemma water_631g_consistent : mol_consistent water_631g.
Proof.
  split; [reflexivity|]. split; [reflexivity|]. split.
  - intros ib Hib. change (nbas water_631g) with 9 in Hib.
    do 9 (destruct ib as [|ib]; [reflexivity|]). lia.
  - cbn. repeat split; lia.
Qed.

Lemma prenao_sub_identity_overlap_orthogonal_witness :
  exists occ cao,
    _prenao_sub eigh_diag water_631g
      (map (fun i => map (fun j => if i =? j then q (Z.of_nat (i + 1)) else q 0)
                         (seq 0 13)) (seq 0 13))
      (eye 13) = Ok (occ, cao) /\
    (exists bs, prenao_blocks water_631g = Ok bs /\
                blocks_partition (mol_cart water_631g) 13 bs) /\
    has_shape 13 13 cao /\ matmul (transpose cao) cao = eye 13.
Proof.
  eexists. eexists. split; [vm_compute; reflexivity|].
  eapply (@prenao_sub_identity_overlap_orthogonal _ Qc_scalar Qcanon.Qcrt
            eigh_diag water_631g 13
            (map (fun i => map (fun j => if i =? j then q (Z.of_nat (i + 1)) else q 0)
                               (seq 0 13)) (seq 0 13))
            _ _ Qc_averaging_division eigh_diag_orthonormal water_631g_consistent).
  - reflexivity.
  - lia.
  - vm_compute. reflexivity.
Defined.

Lemma restore_pass_keeps_orthonormality_witness :
  exists cnao',
    restore_pass eigh_diag water_631g
      (map (fun i => map (fun j => if i =? j then q (Z.of_nat (i + 1)) else q 0)
                         (seq 0 13)) (seq 0 13))
      (map (map (fun x => Qcanon.Qcdiv x (q 2))) (eye 13)) = Ok cnao' /\
    has_shape 13 13 cnao' /\
    matmul (transpose cnao')
           (matmul (map (map (Qcanon.Qcmult (q 4))) (eye 13)) cnao') = eye 13.
Proof.
  eexists. split; [vm_compute; reflexivity|].
  eapply (@restore_pass_keeps_orthonormality _ Qc_scalar Qcanon.Qcrt eigh_diag
            water_631g 13
            (map (fun i => map (fun j => if i =? j then q (Z.of_nat (i + 1)) else q 0)
                               (seq 0 13)) (seq 0 13))
            _ (map (map (fun x => Qcanon.Qcdiv x (q 2))) (eye 13)) _
            Qc_averaging_division eigh_diag_orthonormal water_631g_consistent).
  - reflexivity.
  - lia.
  - split; [reflexivity | repeat constructor].
  - split; [reflexivity | repeat constructor].
  - apply Qc_matrix_eq. vm_compute. reflexivity.
  - vm_compute. reflexivity.
Defined.

Lemma eigh_diag_shapes : eigh_shapes eigh_diag.
Proof.
  intros a b nd e v [Ha _] _ H. unfold eigh_diag in H. cbv zeta in H.
  match type of H with (if ?c then _ else _) = _ => destruct c end;
    [|discriminate].
  inversion H; subst e v; clear H. unfold nrows. rewrite Ha.
  split; [rewrite length_map, length_seq; reflexivity | apply shape_eye].
Qed.

Lemma water_631g_complete : atoms_complete water_631g.
Proof.
  unfold atoms_complete. cbn.
  repeat (apply Forall_cons || apply Forall_nil); (split; [lia|]);
    intros l m Hm Hl; simpl in Hm;
    repeat (destruct Hm as [<- | Hm]; [|]); try contradiction;
    destruct l as [|[|l]]; simpl; auto; lia.
Qed.

Lemma prenao_sub_returns_or_eigh_raises_witness :
  (exists occ cao,
     _prenao_sub eigh_diag water_631g
       (map (fun i => map (fun j => if i =? j then q (Z.of_nat (i + 1)) else q 0)
                          (seq 0 13)) (seq 0 13))
       (eye 13) = Ok (occ, cao) /\
     length occ = 13 /\ has_shape 13 13 cao) \/
  (exists e,
     _prenao_sub eigh_diag water_631g
       (map (fun i => map (fun j => if i =? j then q (Z.of_nat (i + 1)) else q 0)
                          (seq 0 13)) (seq 0 13))
       (eye 13) = Raise e /\
     exists a b, eigh_diag a b = Raise e).
Proof.
  apply (@prenao_sub_returns_or_eigh_raises _ Qc_scalar eigh_diag eigh_diag_shapes
           water_631g 13 _ _ water_631g_consistent water_631g_complete).
  - reflexivity.
  - split; [reflexivity | repeat constructor].
  - split; [reflexivity | repeat constructor].
Defined.

Lemma prenao_sub_block_diagonal_witness :
  exists bs occ cao,
    prenao_blocks water_631g = Ok bs /\
    _prenao_sub eigh_diag water_631g
      (map (fun i => map (fun j => if i =? j then q (Z.of_nat (i + 1)) else q 0)
                         (seq 0 13)) (seq 0 13))
      (eye 13) = Ok (occ, cao) /\
    forall a b,
      (forall l idx, In (l, idx) bs ->
         ~ same_component idx (degen_of (mol_cart water_631g) l)
             (length idx / degen_of (mol_cart water_631g) l) a b) ->
      entry cao a b = zero.
Proof.
  eexists. eexists. eexists.
  split; [vm_compute; reflexivity|]. split; [vm_compute; reflexivity|].
  eapply (@prenao_sub_block_diagonal _ Qc_scalar eigh_diag eigh_diag_shapes
            water_631g 13
            (map (fun i => map (fun j => if i =? j then q (Z.of_nat (i + 1)) else q 0)
                               (seq 0 13)) (seq 0 13))
            (eye 13) _ _ _ water_631g_consistent).
  - reflexivity.
  - split; [reflexivity | repeat constructor].
  - split; [reflexivity | repeat constructor].
  - vm_compute. reflexivity.
  - vm_compute. reflexivity.
Defined.
(** ** The store: what a computation does not see *)

Section BlindRules.

Context {F : Type} {SF : Scalar F}.
Variables cn nbf : nat.

Lemma blind_ret {A : Type} (W : list nat) (a : A) (Q : A -> Prop) :
  Q a -> blind cn nbf W W (@ret F A a) Q.
Proof.
  intros HQ w1 w2 a' w1' Hw H. inversion H; subst. exists w2. auto.
Qed.

Lemma blind_lift {A : Type} (W : list nat) (r : result A) (Q : A -> Prop) :
  (forall a, r = Ok a -> Q a) -> blind cn nbf W W (@lift F A r) Q.
Proof.
  intros HQ w1 w2 a w1' Hw H. unfold lift in *. inversion H; subst.
  exists w2. auto.
Qed.

Lemma blind_bind {A B : Type} (W W' W'' : list nat) (m : M F A) (k : A -> M F B)
  (Q : A -> Prop) (Q' : B -> Prop) :
  blind cn nbf W W' m Q -> (forall a, Q a -> blind cn nbf W' W'' (k a) Q') ->
  blind cn nbf W W'' (mbind m k) Q'.
Proof.
  intros Hm Hk w1 w2 b w1' Hw H. unfold mbind in *.
  destruct (m w1) as [[a|e] w1m] eqn:E; [|discriminate].
  destruct (Hm w1 w2 a w1m Hw E) as (w2m & E2 & HQ & Hwm).
  rewrite E2. apply (Hk a HQ w1m w2m b w1' Hwm H).
Qed.

Lemma blind_weaken {A : Type} (W W' : list nat) (m : M F A) (Q Q' : A -> Prop) :
  blind cn nbf W W' m Q -> (forall a, Q a -> Q' a) -> blind cn nbf W W' m Q'.
Proof.
  intros Hm HQ w1 w2 a w1' Hw H.
  destruct (Hm w1 w2 a w1' Hw H) as (w2' & H2 & Ha & Hw').
  exists w2'. auto.
Qed.

Lemma stores_agree_lt (W : list nat) (w1 w2 : world F) :
  stores_agree cn nbf W w1 w2 -> cn < length (heap w1).
Proof.
  intros (_ & _ & _ & m & A1 & A2 & H1 & _). apply nth_error_Some. congruence.
Qed.

Lemma blind_alloc (W : list nat) (a : ndarray F) :
  blind cn nbf W W (alloc a) (fun r => r <> cn).
Proof.
  intros w1 w2 r w1' Hw H. pose proof (stores_agree_lt Hw) as Hlt.
  destruct Hw as (Hwarn & Hlen & Hsame & m & A1 & A2 & H1 & H2 & Hsh1 & Hsh2 & Hrows).
  unfold alloc in *. inversion H; subst r w1'. clear H.
  exists (World (heap w2 ++ [a]) (warnings w2)). split; [rewrite Hlen; reflexivity|].
  split; [lia|]. split; [exact Hwarn|]. cbn [heap warnings].
  split; [rewrite !length_app; lia|]. split.
  - intros r Hr. destruct (Nat.lt_ge_cases r (length (heap w1))) as [Hr1 | Hr1].
    + rewrite !nth_error_app1 by lia. apply Hsame. exact Hr.
    + rewrite !nth_error_app2 by lia. rewrite Hlen. reflexivity.
  - exists m, A1, A2. rewrite !nth_error_app1 by lia. auto.
Qed.

Lemma blind_load (W : list nat) (r : ref) :
  r <> cn -> blind cn nbf W W (load r) (fun _ : ndarray F => True).
Proof.
  intros Hr w1 w2 a w1' Hw H. unfold load in *. inversion H; subst w1'.
  exists w2. split; [|auto].
  destruct Hw as (_ & _ & Hsame & _). unfold getitem in *.
  rewrite <- (Hsame r Hr). reflexivity.
Qed.

Lemma blind_store (W : list nat) (r : ref) (a : ndarray F) :
  r <> cn -> blind cn nbf W W (store r a) (fun _ => True).
Proof.
  intros Hr w1 w2 u w1' Hw H.
  destruct Hw as (Hwarn & Hlen & Hsame & m & A1 & A2 & H1 & H2 & Hsh1 & Hsh2 & Hrows).
  unfold store in *.
  destruct (setitem (heap w1) r a) as [h|e] eqn:E; [|discriminate].
  inversion H; subst u w1'. clear H.
  apply setitem_Ok in E. destruct E as [Hlt ->].
  rewrite (@setitem_replace _ (heap w2) r a) by lia.
  eexists. split; [reflexivity|]. split; [exact I|].
  split; [exact Hwarn|]. cbn [heap warnings].
  split; [rewrite !replace_nth_length; exact Hlen|]. split.
  - intros r' Hr'. rewrite !nth_error_replace_nth, Hlen, (Hsame r' Hr').
    reflexivity.
  - exists m, A1, A2. rewrite !nth_error_replace_nth.
    destruct (cn =? r) eqn:E; [apply Nat.eqb_eq in E; congruence|]. auto.
Qed.

Lemma blind_load1 (W : list nat) (r : ref) :
  r <> cn -> blind cn nbf W W (load1 r) (fun _ : vec F => True).
Proof.
  intros Hr. unfold load1. eapply blind_bind; [apply blind_load; exact Hr|].
  intros [v|m] _; [apply blind_ret | apply blind_lift]; auto.
Qed.

Lemma blind_load2 (W : list nat) (r : ref) :
  r <> cn -> blind cn nbf W W (load2 r) (fun _ : array2 F => True).
Proof.
  intros Hr. unfold load2. eapply blind_bind; [apply blind_load; exact Hr|].
  intros [v|m] _; [apply blind_lift | apply blind_ret]; auto.
Qed.

Ltac blind_reads :=
  repeat first
    [ eapply blind_bind; [apply blind_load2; assumption | intros ? _]
    | eapply blind_bind; [apply blind_load1; assumption | intros ? _]
    | eapply blind_bind; [apply blind_load; assumption | intros ? _]
    | eapply blind_bind; [apply blind_lift; intros; exact I | intros ? _] ].

Lemma blind_np_copy (W : list nat) (a : ref) :
  a <> cn -> blind cn nbf W W (np_copy a) (fun r => r <> cn).
Proof. intros Ha. unfold np_copy. blind_reads. apply blind_alloc. Qed.

Lemma blind_np_take_cols (W : list nat) (a : ref) (lst : list nat) :
  a <> cn -> blind cn nbf W W (np_take_cols a lst) (fun r => r <> cn).
Proof. intros Ha. unfold np_take_cols. blind_reads. apply blind_alloc. Qed.

Lemma blind_np_take (W : list nat) (a : ref) (lst : list nat) :
  a <> cn -> blind cn nbf W W (np_take a lst) (fun r => r <> cn).
Proof. intros Ha. unfold np_take. blind_reads. apply blind_alloc. Qed.

Lemma blind_np_conjT (W : list nat) (a : ref) :
  a <> cn -> blind cn nbf W W (np_conjT a) (fun r => r <> cn).
Proof. intros Ha. unfold np_conjT. blind_reads. apply blind_alloc. Qed.

Lemma blind_lib_dot (W : list nat) (a b : ref) :
  a <> cn -> b <> cn -> blind cn nbf W W (lib_dot a b) (fun r => r <> cn).
Proof. intros Ha Hb. unfold lib_dot. blind_reads. apply blind_alloc. Qed.

Lemma blind_np_sub (W : list nat) (a b : ref) :
  a <> cn -> b <> cn -> blind cn nbf W W (np_sub a b) (fun r => r <> cn).
Proof.
  intros Ha Hb. unfold np_sub. blind_reads. apply blind_alloc.
Qed.

Lemma blind_np_isub (W : list nat) (a b : ref) :
  a <> cn -> b <> cn -> blind cn nbf W W (np_isub a b) (fun _ => True).
Proof.
  intros Ha Hb. unfold np_isub. blind_reads. apply blind_store. assumption.
Qed.

Lemma blind_np_put_cols (W : list nat) (a : ref) (lst : list nat) (b : ref) :
  a <> cn -> b <> cn -> blind cn nbf W W (np_put_cols a lst b) (fun _ => True).
Proof.
  intros Ha Hb. unfold np_put_cols. blind_reads. apply blind_store. assumption.
Qed.

Lemma blind_gram (W : list nat) (c s : ref) :
  c <> cn -> s <> cn -> blind cn nbf W W (gram c s) (fun r => r <> cn).
Proof.
  intros Hc Hs. unfold gram.
  eapply blind_bind; [apply blind_np_conjT; assumption | intros ct Hct].
  eapply blind_bind; [apply blind_lib_dot; assumption | intros x Hx].
  apply blind_lib_dot; assumption.
Qed.

Lemma blind_projection (W : list nat) (c1 s c : ref) :
  c1 <> cn -> s <> cn -> c <> cn ->
  blind cn nbf W W (projection c1 s c) (fun r => r <> cn).
Proof.
  intros Hc1 Hs Hc. unfold projection.
  eapply blind_bind; [apply blind_np_conjT; assumption | intros c1t Hc1t].
  eapply blind_bind; [apply blind_lib_dot; assumption | intros x Hx].
  eapply blind_bind; [apply blind_lib_dot; assumption | intros y Hy].
  apply blind_lib_dot; assumption.
Qed.

Lemma blind_call_lowdin (W : list nat) (lowdin : array2 F -> result (array2 F))
  (s1 : ref) :
  s1 <> cn -> blind cn nbf W W (call_lowdin lowdin s1) (fun r => r <> cn).
Proof. intros Hs. unfold call_lowdin. blind_reads. apply blind_alloc. Qed.

Lemma blind_call_weight_orth (W : list nat)
  (weight_orth : array2 F -> vec F -> result (array2 F)) (s1 wt : ref) :
  s1 <> cn -> wt <> cn ->
  blind cn nbf W W (call_weight_orth weight_orth s1 wt) (fun r => r <> cn).
Proof. intros Hs Hw. unfold call_weight_orth. blind_reads. apply blind_alloc. Qed.

End BlindRules.
(** ** Reading and writing columns of the array under construction *)

Section BlindColumns.

Context {F : Type} {SF : Scalar F}.

Lemma shape_a2_make (m n : nat) (f : nat -> nat -> F) :
  has_shape m n (map (fun i => map (fun j => f i j) (seq 0 n)) (seq 0 m)).
Proof.
  split; [rewrite length_map, length_seq; reflexivity|].
  apply Forall_forall. intros r Hr. apply in_map_iff in Hr.
  destruct Hr as (i & <- & _). rewrite length_map, length_seq. reflexivity.
Qed.

Lemma entry_a2_make (m n i j : nat) (f : nat -> nat -> F) :
  i < m -> j < n ->
  entry (map (fun i => map (fun j => f i j) (seq 0 n)) (seq 0 m)) i j = f i j.
Proof.
  intros Hi Hj. unfold entry.
  rewrite (@nth_map_in _ _ _ (seq 0 m) i [] 0) by (rewrite length_seq; exact Hi).
  rewrite seq_nth by exact Hi.
  rewrite (@nth_map_in _ _ _ (seq 0 n) j zero 0) by (rewrite length_seq; exact Hj).
  rewrite seq_nth by exact Hj. reflexivity.
Qed.

Lemma entry_overflow (m n i j : nat) (A : matrix F) :
  has_shape m n A -> m <= i \/ n <= j -> entry A i j = zero.
Proof.
  intros [Hl Hr] H. unfold entry.
  destruct (Nat.lt_ge_cases i m) as [Hi | Hi].
  - destruct H as [H | H]; [lia|]. apply nth_overflow.
    rewrite Forall_forall in Hr. rewrite (Hr (nth i A [])) by (apply nth_In; lia).
    exact H.
  - rewrite (nth_overflow A) by lia. destruct j; reflexivity.
Qed.

Lemma last_index_from_keeps (j : nat) (lst : list nat) :
  forall k found, found <> None -> last_index_from k j lst found <> None.
Proof.
  induction lst as [|x t IH]; intros k found H; [exact H|].
  cbn [last_index_from]. apply IH. destruct (x =? j); [discriminate | exact H].
Qed.

Lemma last_index_from_In (j : nat) (lst : list nat) :
  forall k found, In j lst -> last_index_from k j lst found <> None.
Proof.
  induction lst as [|x t IH]; intros k found Hin; [contradiction|].
  cbn [last_index_from]. destruct (x =? j) eqn:E.
  - apply last_index_from_keeps. discriminate.
  - apply Nat.eqb_neq in E. destruct Hin as [Hx | Ht]; [contradiction|].
    apply IH. exact Ht.
Qed.

Variables cn nbf : nat.

(** Reading columns that agree gives the same array. *)
Lemma blind_np_take_cols_cn (W lst : list nat) :
  incl lst W -> blind cn nbf W W (np_take_cols cn lst) (fun r => r <> cn).
Proof.
  intros Hincl w1 w2 r w1' Hw H.
  pose proof Hw as (Hwarn & Hlen & Hsame & m & A1 & A2 & H1 & H2 & Hsh1 & Hsh2 & Hag).
  unfold np_take_cols, load2, load, mbind, getitem, lift, ret in H |- *.
  rewrite H1 in H. rewrite H2.
  unfold a2_take_cols in H |- *. cbn [shape2 rows2] in H |- *.
  destruct (forallb (fun j => j <? nbf) lst); [|discriminate].
  assert (E : map (fun i => map (fun j => entry A2 i j) lst) (seq 0 m) =
              map (fun i => map (fun j => entry A1 i j) lst) (seq 0 m)).
  { apply map_ext. intros i. apply map_ext_in. intros j Hj. symmetry.
    apply Hag. apply Hincl. exact Hj. }
  rewrite E.
  apply (@blind_alloc F SF cn nbf W _ w1 w2 r w1' Hw H).
Qed.

(** Writing columns makes them agree. *)
Lemma blind_np_put_cols_cn (W lst : list nat) (b : ref) :
  b <> cn -> blind cn nbf W (lst ++ W) (np_put_cols cn lst b) (fun _ => True).
Proof.
  intros Hb w1 w2 u w1' Hw H.
  pose proof (stores_agree_lt Hw) as Hlt.
  pose proof Hw as (Hwarn & Hlen & Hsame & m & A1 & A2 & H1 & H2 & Hsh1 & Hsh2 & Hag).
  unfold np_put_cols, load2, load, mbind, getitem, lift, ret, store in H |- *.
  rewrite H1 in H. rewrite H2. rewrite <- (Hsame b Hb).
  destruct (nth_error (heap w1) b) as [[v|[[m' n'] B]]|]; try discriminate.
  unfold a2_put_cols, a2_make in H |- *. cbn [shape2 rows2] in H |- *.
  destruct ((m' =? m) && (n' =? length lst)); [|discriminate].
  destruct (forallb (fun j => j <? nbf) lst); [|discriminate].
  rewrite (@setitem_replace _ (heap w1) cn) in H by exact Hlt.
  rewrite (@setitem_replace _ (heap w2) cn) by lia.
  inversion H; subst u w1'. clear H.
  eexists. split; [reflexivity|]. split; [exact I|].
  split; [exact Hwarn|]. cbn [heap warnings].
  split; [rewrite !replace_nth_length; exact Hlen|]. split.
  - intros r Hr. rewrite !nth_error_replace_nth.
    destruct (r =? cn) eqn:Er; [apply Nat.eqb_eq in Er; contradiction|].
    apply Hsame. exact Hr.
  - eexists m, _, _. rewrite !nth_error_replace_nth, Nat.eqb_refl, <- Hlen.
    apply Nat.ltb_lt in Hlt. rewrite Hlt. cbn [andb].
    split; [reflexivity|]. split; [reflexivity|].
    split; [apply shape_a2_make|]. split; [apply shape_a2_make|].
    intros i j Hj.
    destruct (Nat.lt_ge_cases i m) as [Hi | Hi];
      [|rewrite !(entry_overflow (shape_a2_make m nbf _)) by lia; reflexivity].
    destruct (Nat.lt_ge_cases j nbf) as [Hjn | Hjn];
      [|rewrite !(entry_overflow (shape_a2_make m nbf _)) by lia; reflexivity].
    rewrite !entry_a2_make by assumption.
    destruct (last_index j lst) eqn:El; [reflexivity|].
    apply Hag. apply in_app_or in Hj. destruct Hj as [Hj | Hj]; [|exact Hj].
    exfalso. apply (@last_index_from_In j lst 0 None Hj). exact El.
Qed.

(** Once every column agrees the stores are the same. *)
Lemma stores_agree_all (W : list nat) (w1 w2 : world F) :
  (forall j, j < nbf -> In j W) -> stores_agree cn nbf W w1 w2 -> w1 = w2.
Proof.
  intros Hall (Hwarn & Hlen & Hsame & m & A1 & A2 & H1 & H2 & Hsh1 & Hsh2 & Hag).
  assert (HA : A1 = A2).
  { apply (@has_shape_ext _ _ m nbf); [exact Hsh1 | exact Hsh2 |].
    intros i j _ Hj. apply Hag. apply Hall. exact Hj. }
  subst A2. destruct w1 as [h1 x1], w2 as [h2 x2]. cbn [heap warnings] in *.
  f_equal; [|exact Hwarn].
  apply nth_error_ext. intros r. destruct (Nat.eq_dec r cn) as [-> | Hr].
  - congruence.
  - apply Hsame. exact Hr.
Qed.

End BlindColumns.
(** ** The assembler and [numpy.empty] *)

Section NaoSubBlind.

Context {F : Type} {SF : Scalar F}.

Variable _charge : element -> result nat.
Variable core_configuration : nat -> result (list nat).
Variable AOSHELL : conf_table.
Variable intor_ovlp : Mole -> result (array2 F).
Variable lowdin : array2 F -> result (array2 F).
Variable weight_orth : array2 F -> vec F -> result (array2 F).
Variable norm : array2 F -> F.

Lemma mbind_same_prefix {A B : Type} (m : M F A) (k1 k2 : A -> M F B)
  (w w' : world F) (r : B) :
  (forall a wa, m w = (Ok a, wa) -> k1 a wa = (Ok r, w') -> k2 a wa = (Ok r, w')) ->
  mbind m k1 w = (Ok r, w') -> mbind m k2 w = (Ok r, w').
Proof.
  unfold mbind. destruct (m w) as [[a|e] wa]; intros Hk H;
    [eapply Hk; eauto | discriminate].
Qed.

Lemma mbind_alloc {B : Type} (a : ndarray F) (k : ref -> M F B) (w : world F) :
  mbind (alloc a) k w = k (length (heap w)) (World (heap w ++ [a]) (warnings w)).
Proof. reflexivity. Qed.

Ltac blind_fresh :=
  first [ apply blind_np_copy; assumption
        | apply blind_np_take_cols; assumption
        | apply blind_np_take; assumption
        | apply blind_np_conjT; assumption
        | apply blind_lib_dot; assumption
        | apply blind_np_sub; assumption
        | apply blind_gram; assumption
        | apply blind_projection; assumption
        | apply blind_call_lowdin; assumption
        | apply blind_call_weight_orth; assumption
        | apply blind_alloc ].

Ltac blind_write :=
  first [ apply blind_np_isub; assumption
        | apply blind_np_put_cols_cn; assumption ].

Ltac blind_chain :=
  repeat first
    [ eapply blind_bind; [blind_fresh | intros ? ?]
    | eapply blind_bind; [blind_write | intros _ _] ].

(** The three partitions do not depend on what [numpy.empty] holds. *)
Lemma nao_assemble_ignores_empty (np_empty1 np_empty2 : nat -> nat -> matrix F)
  (mol : Mole) (pre_occ pre_nao : ref) (s : option ref) (w w' : world F)
  (cs : ref * ref) (core_lst val_lst rydbg_lst : list nat) :
  _core_val_ryd_list _charge core_configuration AOSHELL mol
    = Ok (core_lst, val_lst, rydbg_lst) ->
  (forall j, j < nao_nr mol -> In j (core_lst ++ val_lst ++ rydbg_lst)) ->
  has_shape (nao_nr mol) (nao_nr mol) (np_empty1 (nao_nr mol) (nao_nr mol)) ->
  has_shape (nao_nr mol) (nao_nr mol) (np_empty2 (nao_nr mol) (nao_nr mol)) ->
  pre_occ < length (heap w) ->
  (forall r, s = Some r -> r < length (heap w)) ->
  nao_assemble _charge core_configuration AOSHELL intor_ovlp lowdin
    weight_orth np_empty1 mol pre_occ pre_nao s w = (Ok cs, w') ->
  nao_assemble _charge core_configuration AOSHELL intor_ovlp lowdin
    weight_orth np_empty2 mol pre_occ pre_nao s w = (Ok cs, w').
Proof.
  intros Hcls Hcov HE1 HE2 Hocc Hs.
  unfold nao_assemble.
  apply mbind_same_prefix. intros s' w1 Hs1.
  assert (Hw1 : length (heap w) <= length (heap w1) /\ s' < length (heap w1)).
  { destruct s as [s0|].
    - inversion Hs1; subst. split; [lia | apply Hs; reflexivity].
    - unfold mbind, lift, alloc in Hs1.
      destruct (intor_ovlp mol); inversion Hs1; subst.
      cbn [heap]. rewrite length_app. simpl. lia. }
  destruct Hw1 as [Hle1 Hs'].
  apply mbind_same_prefix. intros lists w1' Hl.
  unfold lift in Hl. rewrite Hcls in Hl. inversion Hl; subst lists w1'. clear Hl.
  cbv beta iota.
  apply mbind_same_prefix. intros pre' w2 Hcopy.
  assert (Hw2 : length (heap w2) = S (length (heap w1)) /\ pre' = length (heap w1)).
  { unfold np_copy, mbind, load, alloc in Hcopy.
    destruct (getitem (heap w1) pre_nao); inversion Hcopy; subst.
    cbn [heap]. rewrite length_app. simpl. split; [lia | reflexivity]. }
  destruct Hw2 as [Hlen2 Hpre'].
  rewrite !mbind_alloc.
  set (cn := length (heap w2)). set (nbf := nao_nr mol) in *.
  assert (Hocc_cn : pre_occ <> cn) by (unfold cn; lia).
  assert (Hs_cn : s' <> cn) by (unfold cn; lia).
  assert (Hpre_cn : pre' <> cn) by (unfold cn; lia).
  intros H.
  match type of H with
  | ?m _ = _ =>
      assert (Hb : blind cn nbf [] (rydbg_lst ++ val_lst ++ core_lst ++ []) m
                     (fun _ => True))
  end.
  { eapply blind_bind with (W' := core_lst ++ []) (Q := fun c => c <> cn).
    { destruct core_lst as [|i0 core_t].
      - apply blind_np_take_cols. assumption.
      - blind_chain. apply blind_ret. assumption. }
    intros c Hc.
    eapply blind_bind with (W' := val_lst ++ core_lst ++ []) (Q := fun _ => True).
    { destruct val_lst as [|v0 val_t].
      - apply blind_ret. exact I.
      - blind_chain. blind_write. }
    intros _ _.
    eapply blind_bind with (W' := rydbg_lst ++ val_lst ++ core_lst ++ [])
                           (Q := fun _ => True).
    { destruct rydbg_lst as [|r0 ryd_t].
      - apply blind_ret. exact I.
      - eapply blind_bind.
        { apply blind_np_take_cols_cn. intros j Hj.
          apply in_app_or in Hj. apply in_or_app.
          destruct Hj as [Hj | Hj]; [right; apply in_or_app | left]; auto. }
        intros ? ?. blind_chain. blind_write. }
    intros _ _. apply blind_ret. exact I. }
  assert (Hag : stores_agree cn nbf []
                  (World (heap w2 ++ [Arr2 (Array2 (nbf, nbf) (np_empty1 nbf nbf))])
                         (warnings w2))
                  (World (heap w2 ++ [Arr2 (Array2 (nbf, nbf) (np_empty2 nbf nbf))])
                         (warnings w2))).
  { split; [reflexivity|]. cbn [heap warnings].
    split; [rewrite !length_app; reflexivity|]. split.
    - intros r Hr. destruct (Nat.lt_ge_cases r cn) as [Hlt | Hge].
      + rewrite !nth_error_app1 by exact Hlt. reflexivity.
      + assert (Hgt : cn < r) by lia.
        rewrite !(proj2 (nth_error_None _ _)) by (rewrite length_app; simpl; fold cn; lia).
        reflexivity.
    - exists nbf, (np_empty1 nbf nbf), (np_empty2 nbf nbf).
      rewrite !nth_error_app2 by (unfold cn; lia). unfold cn.
      rewrite Nat.sub_diag. cbn [nth_error].
      split; [reflexivity|]. split; [reflexivity|]. split; [exact HE1|].
      split; [exact HE2|]. intros i j []. }
  destruct (Hb _ _ cs w' Hag H) as (w2' & H2 & _ & Hfin).
  rewrite H2. f_equal. apply (@stores_agree_all F SF cn nbf _ _ _) in Hfin;
    [symmetry; exact Hfin|].
  intros j Hj. specialize (Hcov j Hj).
  apply in_app_or in Hcov. rewrite app_nil_r. apply in_or_app.
  destruct Hcov as [Hc | Hc]; [right; apply in_or_app; auto|].
  apply in_app_or in Hc. destruct Hc; [right; apply in_or_app|]; auto.
Qed.

(** X22. What [numpy.empty] holds never reaches the result.  When the
    three lists of the classifier hold every basis function, [_nao_sub]
    run with one content of the uninitialised [cnao] returns exactly what
    it returns with any other content of the same shape: the same object
    and the same store, every entry of [cnao] and every warning included. *)
Theorem nao_sub_ignores_uninitialised (np_empty1 np_empty2 : nat -> nat -> matrix F)
  (mol : Mole) (pre_occ pre_nao : ref) (s : option ref) (w w' : world F)
  (cnao : ref) (core_lst val_lst rydbg_lst : list nat) :
  _core_val_ryd_list _charge core_configuration AOSHELL mol
    = Ok (core_lst, val_lst, rydbg_lst) ->
  (forall j, j < nao_nr mol -> In j (core_lst ++ val_lst ++ rydbg_lst)) ->
  has_shape (nao_nr mol) (nao_nr mol) (np_empty1 (nao_nr mol) (nao_nr mol)) ->
  has_shape (nao_nr mol) (nao_nr mol) (np_empty2 (nao_nr mol) (nao_nr mol)) ->
  pre_occ < length (heap w) ->
  (forall r, s = Some r -> r < length (heap w)) ->
  _nao_sub _charge core_configuration AOSHELL intor_ovlp lowdin
    weight_orth norm np_empty1 mol pre_occ pre_nao s w = (Ok cnao, w') ->
  _nao_sub _charge core_configuration AOSHELL intor_ovlp lowdin
    weight_orth norm np_empty2 mol pre_occ pre_nao s w = (Ok cnao, w').
Proof.
  intros Hcls Hcov HE1 HE2 Hocc Hs H. unfold _nao_sub, mbind in *.
  destruct (nao_assemble _ _ _ _ _ _ np_empty1 _ _ _ _ w) as [[cs|e] wm] eqn:E;
    [|discriminate].
  rewrite (@nao_assemble_ignores_empty np_empty1 np_empty2 mol pre_occ pre_nao s
             w wm cs core_lst val_lst rydbg_lst Hcls Hcov HE1 HE2 Hocc Hs E).
  exact H.
Qed.

End NaoSubBlind.

Lemma nao_sub_ignores_uninitialised_witness :
  exists cnao w',
    _nao_sub charge_of small_core_configuration AOSHELL
      (fun _ => Raise RuntimeError) keep_columns keep_columns_weighted norm1
      zeros2 p_only_atom 0 1 (Some 2) p_only_world = (Ok cnao, w') /\
    _nao_sub charge_of small_core_configuration AOSHELL
      (fun _ => Raise RuntimeError) keep_columns keep_columns_weighted norm1
      (fun m n => repeat (repeat (q 7) n) m) p_only_atom 0 1 (Some 2) p_only_world
    = (Ok cnao, w').
Proof.
  eexists. eexists. split; [vm_compute; reflexivity|].
  eapply (@nao_sub_ignores_uninitialised _ Qc_scalar charge_of
            small_core_configuration AOSHELL (fun _ => Raise RuntimeError)
            keep_columns keep_columns_weighted norm1
            zeros2 (fun m n => repeat (repeat (q 7) n) m)
            p_only_atom 0 1 (Some 2) p_only_world).
  - vm_compute. reflexivity.
  - intros j Hj. change (nao_nr p_only_atom) with 3 in Hj.
    destruct j as [|[|[|j]]]; simpl; auto. lia.
  - split; [reflexivity | repeat constructor].
  - split; [reflexivity | repeat constructor].
  - simpl. lia.
  - intros r Hr. inversion Hr. simpl. lia.
  - vm_compute. reflexivity.
Defined.
